(** * SemanticUnweaver: segmentation, CSV parsing and lexical analytics

    A shallow embedding of the text-processing core of the repository
    ([src/services/step2_segment.ts], [src/services/step1_ingest.ts],
    [src/utils/textProcessing.ts]), of the concept graph
    ([src/services/step5_graph.ts]) and of the pure parts of the user
    interface ([src/components/CsvConfigModal.tsx], the tag handlers and
    the default split level of [src/App.tsx]), together with the
    properties its specification states about it and further properties
    read off the code.

    Modelling conventions.
    - A JavaScript string is a list of code units.  The code units are
      8-bit ([ascii]), i.e. the Latin-1 range of UTF-16; every character
      class of the source ([\s], [\w], [.], line terminators, case
      mapping) is given on that range.
    - [Math.random]-based identifiers come from an explicit supply that is
      threaded through every function that calls [generateId].
    - Indices and lengths are [nat]; a failed [indexOf] is [None]. *)

From Stdlib Require Import String Ascii List Arith Bool Lia ZArith Permutation.
Import ListNotations.

(* ================================================================== *)
(** ** JavaScript strings *)
(* ================================================================== *)

Definition jsstring := list ascii.

(** String literals of the source are written with [str]. *)
Definition str (s : string) : jsstring := list_ascii_of_string s.

Definition code (c : ascii) : nat := nat_of_ascii c.

Definition inRange (lo hi : nat) (c : ascii) : bool :=
  (lo <=? code c) && (code c <=? hi).

Definition chr_eqb (a b : ascii) : bool := Ascii.eqb a b.

Definition LF : ascii := ascii_of_nat 10.
Definition CR : ascii := ascii_of_nat 13.

(** [\s] and the characters removed by [String.prototype.trim]:
    TAB, LF, VT, FF, CR, SPACE and NO-BREAK SPACE. *)
Definition isSpace (c : ascii) : bool :=
  inRange 9 13 c || (code c =? 32) || (code c =? 160).

(** Line terminators: they are excluded by [.] and delimit lines for
    [^] and [$] under the [m] flag. *)
Definition isLineTerminator (c : ascii) : bool :=
  (code c =? 10) || (code c =? 13).

Definition isDigit (c : ascii) : bool := inRange 48 57 c.
Definition isUpper (c : ascii) : bool := inRange 65 90 c.
Definition isLower (c : ascii) : bool := inRange 97 122 c.

(** [\w] *)
Definition isWord (c : ascii) : bool :=
  isUpper c || isLower c || isDigit c || (code c =? 95).

(** [.] *)
Definition isDot (c : ascii) : bool := negb (isLineTerminator c).

Definition isChr (a : ascii) (c : ascii) : bool := chr_eqb a c.
Definition oneOf (l : jsstring) (c : ascii) : bool := existsb (chr_eqb c) l.
Definition noneOf (l : jsstring) (c : ascii) : bool := negb (oneOf l c).

Fixpoint str_eqb (a b : jsstring) : bool :=
  match a, b with
  | [], [] => true
  | x :: a', y :: b' => chr_eqb x y && str_eqb a' b'
  | _, _ => false
  end.

(** Truthiness of a string value: the empty string is falsy. *)
Definition truthy (s : jsstring) : bool :=
  match s with [] => false | _ :: _ => true end.

Fixpoint dropWhile (p : ascii -> bool) (s : jsstring) : jsstring :=
  match s with
  | [] => []
  | c :: s' => if p c then dropWhile p s' else s
  end.

Definition trimStart (s : jsstring) : jsstring := dropWhile isSpace s.
Definition trimEnd (s : jsstring) : jsstring := rev (dropWhile isSpace (rev s)).
Definition trim (s : jsstring) : jsstring := trimEnd (trimStart s).

(** [String.prototype.toLowerCase] on Latin-1: A-Z and the accented
    capitals U+00C0..U+00DE (except the multiplication sign) move up
    by 32.  On this range the mapping is unit by unit and keeps lengths;
    beyond it JavaScript can change the number of code units (U+0130
    becomes two), which this model cannot express. *)
Definition lowerChar (c : ascii) : ascii :=
  if isUpper c || (inRange 192 222 c && negb (code c =? 215))
  then ascii_of_nat (code c + 32)
  else c.

Definition toLowerCase (s : jsstring) : jsstring := map lowerChar s.

Fixpoint startsWith (p s : jsstring) : bool :=
  match p, s with
  | [], _ => true
  | x :: p', y :: s' => chr_eqb x y && startsWith p' s'
  | _ :: _, [] => false
  end.

(** [s.includes(p)] *)
Fixpoint includes (p s : jsstring) : bool :=
  startsWith p s ||
  match s with
  | [] => false
  | _ :: s' => includes p s'
  end.

(** First occurrence of [p] in [s], counted from [pos] (the index of the
    head of [s]). *)
Fixpoint findFrom (p s : jsstring) (pos : nat) : option nat :=
  if startsWith p s then Some pos
  else match s with
       | [] => None
       | _ :: s' => findFrom p s' (S pos)
       end.

(** [s.indexOf(p, from)]: [from] is clamped to the length of [s]. *)
Definition indexOf (p s : jsstring) (from : nat) : option nat :=
  findFrom p (skipn from s) (Nat.min from (length s)).

(** [s.substring(a, b)] for integer arguments: both are clamped to
    [0 .. length s] and swapped when [a > b]. *)
Definition clampIdx (s : jsstring) (i : Z) : nat :=
  Nat.min (Z.to_nat i) (length s).

Definition substring (s : jsstring) (a b : Z) : jsstring :=
  let a' := clampIdx s a in
  let b' := clampIdx s b in
  let lo := Nat.min a' b' in
  let hi := Nat.max a' b' in
  firstn (hi - lo) (skipn lo s).

(** [parts.join(sep)] *)
Fixpoint join (sep : jsstring) (parts : list jsstring) : jsstring :=
  match parts with
  | [] => []
  | [p] => p
  | p :: ps => p ++ sep ++ join sep ps
  end.

(* ================================================================== *)
(** ** Regular expressions *)
(* ================================================================== *)

(** The fragment of ECMAScript patterns used by the source, with its
    backtracking semantics: alternatives are tried left to right,
    quantifiers are greedy, an iteration of [*] that consumes nothing is
    rejected, and a lookahead is matched atomically. *)
Inductive regex : Type :=
| Eps
| Chr (p : ascii -> bool)
| Seq (a b : regex)
| Alt (a b : regex)
| Star (a : regex)
| Rep (n : nat) (a : regex)
| Bol
| Eol
| Look (a : regex).

Definition Plus (a : regex) : regex := Seq a (Star a).
Definition Opt (a : regex) : regex := Alt a Eps.

(** [a{0,n}] *)
Fixpoint UpTo (n : nat) (a : regex) : regex :=
  match n with
  | 0 => Eps
  | S n' => Alt (Seq a (UpTo n' a)) Eps
  end.

(** [a{lo,hi}] *)
Definition RepRange (lo hi : nat) (a : regex) : regex :=
  Seq (Rep lo a) (UpTo (hi - lo) a).

Fixpoint Lit (s : jsstring) : regex :=
  match s with
  | [] => Eps
  | c :: s' => Seq (Chr (isChr c)) (Lit s')
  end.

(** A position in the subject is the character before it (none at index
    0) and the text from it on.  A continuation receives the position
    reached and answers with the text left after the whole match. *)
Definition cont := option ascii -> jsstring -> option jsstring.

Section Matcher.

(** the [m] flag *)
Variable multiline : bool.

Definition atBol (prev : option ascii) : bool :=
  match prev with
  | None => true
  | Some c => multiline && isLineTerminator c
  end.

Definition atEol (s : jsstring) : bool :=
  match s with
  | [] => true
  | c :: _ => multiline && isLineTerminator c
  end.

Fixpoint run (r : regex) (prev : option ascii) (s : jsstring) (k : cont)
  {struct r} : option jsstring :=
  match r with
  | Eps => k prev s
  | Chr p =>
      match s with
      | c :: s' => if p c then k (Some c) s' else None
      | [] => None
      end
  | Seq a b => run a prev s (fun prev' s' => run b prev' s' k)
  | Alt a b =>
      match run a prev s k with
      | Some x => Some x
      | None => run b prev s k
      end
  | Star a =>
      (fix loop (fuel : nat) (prev : option ascii) (s : jsstring)
         {struct fuel} : option jsstring :=
         match fuel with
         | 0 => k prev s
         | S fuel' =>
             match run a prev s
                     (fun prev' s' =>
                        if length s' <? length s
                        then loop fuel' prev' s' else None) with
             | Some x => Some x
             | None => k prev s
             end
         end) (length s) prev s
  | Rep n a =>
      (fix rep (n : nat) (prev : option ascii) (s : jsstring)
         {struct n} : option jsstring :=
         match n with
         | 0 => k prev s
         | S n' => run a prev s (fun prev' s' => rep n' prev' s')
         end) n prev s
  | Bol => if atBol prev then k prev s else None
  | Eol => if atEol s then k prev s else None
  | Look a =>
      match run a prev s (fun _ s' => Some s') with
      | Some _ => k prev s
      | None => None
      end
  end.

(** Sticky match at one position: the length of the match. *)
Definition matchAt (r : regex) (prev : option ascii) (s : jsstring)
  : option nat :=
  match run r prev s (fun _ s' => Some s') with
  | Some s' => Some (length s - length s')
  | None => None
  end.

End Matcher.

(** What the scanning loops need from a pattern: whether it matches at a
    position, and how many characters it takes. *)
Definition matcher := option ascii -> jsstring -> option nat.

(** A string used as separator or search value. *)
Definition literal (p : jsstring) : matcher :=
  fun _ s => if startsWith p s then Some (length p) else None.

(** ** [split]

    [String.prototype.split] (and [RegExp.prototype[Symbol.split]]): with
    [p] the start of the current piece and [q] the scan position, the
    separator is tried at every [q]; a match ending at [p] itself is
    ignored, any other match closes the piece [S[p..q)] and moves both
    [p] and [q] to the end of the match.  [acc] is the current piece,
    reversed; [skip] counts the characters of a match still to pass.
    With [cap] the pattern is one capture group around the whole
    expression, whose text is spliced in after each closed piece. *)
Fixpoint splitLoop (M : matcher) (cap : bool) (prev : option ascii)
  (rest acc : jsstring) (skip : nat) : list jsstring :=
  match rest with
  | [] => [rev acc]
  | c :: rest' =>
      match skip with
      | S n => splitLoop M cap (Some c) rest' acc n
      | 0 =>
          match M prev rest with
          | None => splitLoop M cap (Some c) rest' (c :: acc) 0
          | Some 0 =>
              match acc with
              | [] => splitLoop M cap (Some c) rest' [c] 0
              | _ :: _ =>
                  rev acc :: (if cap then [[]] else [])
                  ++ splitLoop M cap (Some c) rest' [c] 0
              end
          | Some (S n) =>
              rev acc :: (if cap then [firstn (S n) rest] else [])
              ++ splitLoop M cap (Some c) rest' [] n
          end
      end
  end.

Definition splitWith (M : matcher) (cap : bool) (s : jsstring)
  : list jsstring :=
  match s with
  | [] => match M None [] with Some _ => [] | None => [[]] end
  | _ :: _ => splitLoop M cap None s [] 0
  end.

(** [s.split(sep)] for a non-empty string [sep] *)
Definition split_string (sep s : jsstring) : list jsstring :=
  splitWith (literal sep) false s.

(** [s.split(/r/flags)] *)
Definition split_regex (multiline : bool) (r : regex) (s : jsstring)
  : list jsstring :=
  splitWith (matchAt multiline r) false s.

(** [s.split(/(r)/flags)] *)
Definition split_regex_capture (multiline : bool) (r : regex) (s : jsstring)
  : list jsstring :=
  splitWith (matchAt multiline r) true s.

(** ** Global scans: [match] and [replace] with the [g] flag

    The matches are found left to right; after an empty match the scan
    resumes one character further.  [inl c] is a character outside every
    match, [inr w] a match. *)
Fixpoint scanLoop (M : matcher) (prev : option ascii) (rest : jsstring)
  (skip : nat) : list (ascii + jsstring) :=
  match rest with
  | [] =>
      match skip with
      | 0 => match M prev [] with Some _ => [inr []] | None => [] end
      | S _ => []
      end
  | c :: rest' =>
      match skip with
      | S n => scanLoop M (Some c) rest' n
      | 0 =>
          match M prev rest with
          | None => inl c :: scanLoop M (Some c) rest' 0
          | Some 0 => inr [] :: inl c :: scanLoop M (Some c) rest' 0
          | Some (S n) =>
              inr (firstn (S n) rest) :: scanLoop M (Some c) rest' n
          end
      end
  end.

Definition scan (M : matcher) (s : jsstring) : list (ascii + jsstring) :=
  scanLoop M None s 0.

Fixpoint matchesOf (l : list (ascii + jsstring)) : list jsstring :=
  match l with
  | [] => []
  | inl _ :: l' => matchesOf l'
  | inr w :: l' => w :: matchesOf l'
  end.

(** [s.match(/r/g)]: [None] is [null]. *)
Definition match_global (multiline : bool) (r : regex) (s : jsstring)
  : option (list jsstring) :=
  match matchesOf (scan (matchAt multiline r) s) with
  | [] => None
  | l => Some l
  end.

Fixpoint substitute (rep : jsstring) (l : list (ascii + jsstring)) : jsstring :=
  match l with
  | [] => []
  | inl c :: l' => c :: substitute rep l'
  | inr _ :: l' => rep ++ substitute rep l'
  end.

(** [s.replace(/r/g, rep)] for a replacement without [$] patterns *)
Definition replace_global (multiline : bool) (r : regex) (rep s : jsstring)
  : jsstring :=
  substitute rep (scan (matchAt multiline r) s).

(** [s.replace(/r/, rep)]: the first match only *)
Fixpoint replaceFirstLoop (M : matcher) (rep : jsstring)
  (prev : option ascii) (rest : jsstring) : jsstring :=
  match M prev rest with
  | Some n => rep ++ skipn n rest
  | None =>
      match rest with
      | [] => []
      | c :: rest' => c :: replaceFirstLoop M rep (Some c) rest'
      end
  end.

Definition replace_first (multiline : bool) (r : regex) (rep s : jsstring)
  : jsstring :=
  replaceFirstLoop (matchAt multiline r) rep None s.

(** [/r/.test(s)] on a fresh pattern object *)
Fixpoint testLoop (M : matcher) (prev : option ascii) (rest : jsstring)
  : bool :=
  match M prev rest with
  | Some _ => true
  | None =>
      match rest with
      | [] => false
      | c :: rest' => testLoop M (Some c) rest'
      end
  end.

Definition test (multiline : bool) (r : regex) (s : jsstring) : bool :=
  testLoop (matchAt multiline r) None s.

(* ================================================================== *)
(** ** Data model ([src/types.ts]) *)
(* ================================================================== *)

Inductive Granularity : Type :=
| WHOLE | PARAGRAPH | SENTENCE | LINE | TURN | SECTION | HEADING
| SUBSECTION | FILE | RESPONSE | PHRASE | ROW_COMBINED
| ROW_DISTINCT_COLUMNS.

Inductive DocType : Type := text | csv | markdown.

Definition DocType_eqb (a b : DocType) : bool :=
  match a, b with
  | text, text | csv, csv | markdown, markdown => true
  | _, _ => false
  end.

Record SourceDocument : Type := {
  doc_id : jsstring;
  doc_name : jsstring;
  doc_content : jsstring;
  doc_type : DocType;
  doc_csvHeaders : option (list jsstring)
}.

Inductive CsvStrategy : Type := COMBINE | DISTINCT.

Record CsvSegmentationConfig : Type := {
  targetColumns : list jsstring;
  contextColumns : list jsstring;
  sentimentContextColumns : option (list jsstring);
  strategy : CsvStrategy
}.

(** The optional enrichment fields of a chunk ([sentiment], [analysis],
    [provenance], ...) are never written by the functions below and are
    left out. *)
Record Chunk : Type := {
  chunk_id : jsstring;
  chunk_text : jsstring;
  chunk_type : Granularity;
  chunk_sourceId : option jsstring;
  chunk_sourceName : option jsstring;
  chunk_tags : list jsstring
}.

Record CSVStructure : Type := {
  headers : list jsstring;
  rows : list (list jsstring);
  totalRows : nat
}.

Record CSVColumnConfig : Type := {
  analyzeCols : list nat;
  contextCols : list nat
}.

(* ================================================================== *)
(** ** Identifier generation *)
(* ================================================================== *)

(** [generateId] draws from [Math.random]; the values it will produce
    are given by [draw] and [drawn] counts the calls made so far. *)
Record IdSupply : Type := {
  draw : nat -> jsstring;
  drawn : nat
}.

Definition Gen (A : Type) : Type := IdSupply -> A * IdSupply.

Definition ret {A : Type} (a : A) : Gen A := fun g => (a, g).

Definition bind {A B : Type} (m : Gen A) (f : A -> Gen B) : Gen B :=
  fun g => let (a, g') := m g in f a g'.

Declare Scope gen_scope.
Delimit Scope gen_scope with gen.
Notation "x <- m ;; f" := (bind m (fun x => f))
  (at level 61, m at next level, right associativity) : gen_scope.
Open Scope gen_scope.

Definition generateId : Gen jsstring :=
  fun g => (draw g (drawn g), {| draw := draw g; drawn := S (drawn g) |}).

(** [l.forEach(x => ...)] with a body that updates a local state *)
Fixpoint forEach {A S : Type} (body : S -> A -> Gen S) (l : list A) (s : S)
  : Gen S :=
  match l with
  | [] => ret s
  | x :: l' => s' <- body s x ;; forEach body l' s'
  end.

(** [l.map(x => ...)] with a body that draws identifiers *)
Fixpoint mapGen {A B : Type} (f : A -> Gen B) (l : list A) : Gen (list B) :=
  match l with
  | [] => ret []
  | x :: l' => y <- f x ;; ys <- mapGen f l' ;; ret (y :: ys)
  end.

(* ================================================================== *)
(** ** CSV parsing ([src/utils/textProcessing.ts]) *)
(* ================================================================== *)

Definition DQUOTE : ascii := ascii_of_nat 34.
Definition BACKSLASH : ascii := ascii_of_nat 92.
Definition COMMA : ascii := ascii_of_nat 44.
Definition HASH : ascii := ascii_of_nat 35.
Definition COLON : ascii := ascii_of_nat 58.

(** Concatenation of a list of patterns *)
Fixpoint Cat (l : list regex) : regex :=
  match l with
  | [] => Eps
  | [r] => r
  | r :: l' => Seq r (Cat l')
  end.

(** [/^Q|Q$/g], with Q the double quote *)
Definition re_outerQuotes : regex :=
  Alt (Seq Bol (Chr (isChr DQUOTE))) (Seq (Chr (isChr DQUOTE)) Eol).

(** [.replace(/^Q|Q$/g, '')] *)
Definition stripQuotes (s : jsstring) : jsstring :=
  replace_global false re_outerQuotes [] s.

(** [current.trim().replace(/^Q|Q$/g, '').replace(/QQ/g, 'Q')] *)
Definition cleanField (current : jsstring) : jsstring :=
  replace_global false (Lit [DQUOTE; DQUOTE]) [DQUOTE]
    (stripQuotes (trim current)).

(** The [for] loop of [splitCSVLine]; [prev] is [line[i-1]]. *)
Fixpoint splitCSVLineLoop (prev : option ascii) (line : jsstring)
  (inQuote : bool) (current : jsstring) (matches : list jsstring)
  : list jsstring :=
  match line with
  | [] => matches ++ [cleanField current]
  | char :: line' =>
      let toggles :=
        chr_eqb char DQUOTE &&
        match prev with
        | None => true
        | Some p => negb (chr_eqb p BACKSLASH)
        end in
      let inQuote' := if toggles then negb inQuote else inQuote in
      if chr_eqb char COMMA && negb inQuote'
      then splitCSVLineLoop (Some char) line' inQuote' []
             (matches ++ [cleanField current])
      else splitCSVLineLoop (Some char) line' inQuote' (current ++ [char])
             matches
  end.

Definition splitCSVLine (line : jsstring) : list jsstring :=
  splitCSVLineLoop None line false [] [].

(** [/\r?\n/] *)
Definition re_newline : regex := Seq (Opt (Chr (isChr CR))) (Chr (isChr LF)).

Definition nonBlank (t : jsstring) : bool := truthy (trim t).

(** [content.split(/\r?\n/).filter(l => l.trim())] *)
Definition csvLines (content : jsstring) : list jsstring :=
  filter nonBlank (split_regex false re_newline content).

Definition emptyCSV : CSVStructure :=
  {| headers := []; rows := []; totalRows := 0 |}.

Definition parseCSVStructure (content : jsstring) : CSVStructure :=
  let lines := csvLines content in
  if length lines <? 2 then emptyCSV
  else
    let headers := splitCSVLine (hd [] lines) in
    let rows := map splitCSVLine (tl lines) in
    {| headers := headers; rows := rows; totalRows := length rows |}.

(** A text literal in which a vertical bar stands for a line feed. *)
Definition nl (s : string) : jsstring :=
  map (fun c => if chr_eqb c "|"%char then LF else c) (str s).

(* ================================================================== *)
(** ** Segmentation ([src/services/step2_segment.ts]) *)
(* ================================================================== *)

(** [/\n\s*\n/] *)
Definition re_paragraph : regex :=
  Cat [Chr (isChr LF); Star (Chr isSpace); Chr (isChr LF)].

Definition sentenceEnd : jsstring := str ".!?".

(** [/[^.!?]+[.!?]+[Q']?|[^.!?]+$/g], with Q the double quote *)
Definition re_sentence : regex :=
  Alt (Cat [Plus (Chr (noneOf sentenceEnd));
            Plus (Chr (oneOf sentenceEnd));
            Opt (Chr (oneOf [DQUOTE; "'"%char]))])
      (Cat [Plus (Chr (noneOf sentenceEnd)); Eol]).

(** [/(?=^\s*#+\s)/gm] *)
Definition re_section : regex :=
  Look (Cat [Bol; Star (Chr isSpace); Plus (Chr (isChr HASH)); Chr isSpace]).

(** [[A-Z0-9]] and [[\w\s]] *)
Definition isSpeakerStart (c : ascii) : bool := isUpper c || isDigit c.
Definition isWordOrSpace (c : ascii) : bool := isWord c || isSpace c.

(** [/\n(?=[A-Z0-9][\w\s]*:)/g] *)
Definition re_turn : regex :=
  Seq (Chr (isChr LF))
      (Look (Cat [Chr isSpeakerStart; Star (Chr isWordOrSpace);
                  Chr (isChr COLON)])).

Definition orElse {A : Type} (o : option A) (d : A) : A :=
  match o with Some a => a | None => d end.

Definition splitRawText (text : jsstring) (strategy : Granularity)
  : list jsstring :=
  match strategy with
  | PARAGRAPH => filter nonBlank (split_regex false re_paragraph text)
  | SENTENCE => orElse (match_global false re_sentence text) [text]
  | LINE => filter nonBlank (split_string [LF] text)
  | SECTION => filter nonBlank (split_regex true re_section text)
  | TURN => filter nonBlank (split_regex false re_turn text)
  | _ => [text]
  end.

Definition Granularity_eqb (a b : Granularity) : bool :=
  match a, b with
  | WHOLE, WHOLE | PARAGRAPH, PARAGRAPH | SENTENCE, SENTENCE
  | LINE, LINE | TURN, TURN | SECTION, SECTION | HEADING, HEADING
  | SUBSECTION, SUBSECTION | FILE, FILE | RESPONSE, RESPONSE
  | PHRASE, PHRASE | ROW_COMBINED, ROW_COMBINED
  | ROW_DISTINCT_COLUMNS, ROW_DISTINCT_COLUMNS => true
  | _, _ => false
  end.

(** The object literal pushed for every chunk: the identifier is drawn
    first, the tag list is empty. *)
Definition newChunk (txt : jsstring) (ty : Granularity)
  (sourceId sourceName : jsstring) : Gen Chunk :=
  i <- generateId ;;
  ret {| chunk_id := i; chunk_text := txt; chunk_type := ty;
         chunk_sourceId := Some sourceId;
         chunk_sourceName := Some sourceName;
         chunk_tags := [] |}.

(** [arr.indexOf(c)] and [arr.includes(c)] on arrays of strings *)
Fixpoint arrIndexOf (c : jsstring) (arr : list jsstring) : option nat :=
  match arr with
  | [] => None
  | x :: arr' =>
      if str_eqb x c then Some 0
      else match arrIndexOf c arr' with
           | Some i => Some (S i)
           | None => None
           end
  end.

Definition arrIncludes (c : jsstring) (arr : list jsstring) : bool :=
  existsb (fun x => str_eqb x c) arr.

(** [row[idx] ? row[idx].replace(/^Q|Q$/g, '').trim() : ''] where
    [idx = headers.indexOf(c)]; an index of -1 or past the end of the
    row reads [undefined]. *)
Definition cellValue (hdrs row : list jsstring) (c : jsstring) : jsstring :=
  match arrIndexOf c hdrs with
  | None => []
  | Some idx =>
      match nth_error row idx with
      | Some v => if truthy v then trim (stripQuotes v) else []
      | None => []
      end
  end.

Definition contextStrOf (hdrs contextCols sentimentCols row : list jsstring)
  : jsstring :=
  join (str " | ")
    (filter truthy
       (map (fun c =>
               let val := cellValue hdrs row c in
               if arrIncludes c sentimentCols
               then (if truthy val
                     then str "[Sentiment Context] " ++ c ++ str ": " ++ val
                     else [])
               else (if truthy val then c ++ str ": " ++ val else []))
            contextCols)).

(** [(contextStr ? `[Meta: ${contextStr}]\n` : '')] *)
Definition metaPrefix (contextStr : jsstring) : jsstring :=
  if truthy contextStr then str "[Meta: " ++ contextStr ++ str "]" ++ [LF]
  else [].

Definition mainStrOf (hdrs targetCols row : list jsstring) : jsstring :=
  join [LF]
    (filter truthy
       (map (fun c =>
               let val := cellValue hdrs row c in
               if truthy val
               then (if 1 <? length targetCols
                     then c ++ str ": " ++ val else val)
               else [])
            targetCols)).

Section PerDocument.

Variable strat : Granularity.
Variable csvConfig : option CsvSegmentationConfig.
Variable isHierarchical : bool.
Variable splitLevel : nat.

(** The body of [structure.rows.forEach] in the CSV case *)
Definition csvRow (doc : SourceDocument) (hdrs : list jsstring)
  (docChunks : list Chunk) (row : list jsstring) : Gen (list Chunk) :=
  let targetCols :=
    match csvConfig with Some c => targetColumns c | None => hdrs end in
  let contextCols :=
    match csvConfig with Some c => contextColumns c | None => [] end in
  let sentimentCols :=
    match csvConfig with
    | Some c => orElse (sentimentContextColumns c) []
    | None => []
    end in
  let contextStr := contextStrOf hdrs contextCols sentimentCols row in
  if negb isHierarchical then
    let mainStr := mainStrOf hdrs targetCols row in
    if nonBlank mainStr then
      c <- newChunk (metaPrefix contextStr ++ mainStr) strat
             (doc_id doc) (doc_name doc) ;;
      ret (docChunks ++ [c])
    else ret docChunks
  else
    forEach
      (fun docChunks colName =>
         let colIdx := arrIndexOf colName hdrs in
         let val := cellValue hdrs row colName in
         match colIdx with
         | Some _ =>
             if truthy val then
               c <- newChunk
                      (metaPrefix contextStr
                       ++ str "[Column: " ++ colName ++ str "]" ++ [LF]
                       ++ val)
                      strat (doc_id doc)
                      (doc_name doc ++ str " > " ++ colName) ;;
               ret (docChunks ++ [c])
             else ret docChunks
         | None => ret docChunks
         end)
      targetCols docChunks.

Definition effectiveLevel : nat :=
  match strat with
  | SUBSECTION => Nat.min 6 (splitLevel + 1)
  | _ => splitLevel
  end.

(** [new RegExp(`(^\\s*#{${effectiveLevel}}\\s+.+$)`, 'gm')], inside
    its capture group *)
Definition sectionRegex : regex :=
  Cat [Bol; Star (Chr isSpace); Rep effectiveLevel (Chr (isChr HASH));
       Plus (Chr isSpace); Plus (Chr isDot); Eol].

(** [new RegExp(`^\\s*#{${effectiveLevel}}\\s`)] *)
Definition headerRegex : regex :=
  Cat [Bol; Star (Chr isSpace); Rep effectiveLevel (Chr (isChr HASH));
       Chr isSpace].

(** [/^[#\s]+/] *)
Definition re_headerMarks : regex :=
  Seq Bol (Plus (Chr (fun c => isChr HASH c || isSpace c))).

(** The body of [sections.forEach] in the hierarchical case; the state
    is [currentHeader] and the chunks pushed so far. *)
Definition hierSection (doc : SourceDocument)
  (st : jsstring * list Chunk) (section : jsstring)
  : Gen (jsstring * list Chunk) :=
  let (currentHeader, docChunks) := st in
  if negb (nonBlank section) then ret st
  else if test false headerRegex section then
    ret (trim (replace_first false re_headerMarks [] (trim section)),
         docChunks)
  else
    let label := doc_name doc ++ str " > " ++ currentHeader in
    match strat with
    | SUBSECTION =>
        if nonBlank section then
          c <- newChunk (trim section) strat (doc_id doc) label ;;
          ret (currentHeader, docChunks ++ [c])
        else ret st
    | _ =>
        forEach
          (fun (st : jsstring * list Chunk) segment =>
             c <- newChunk segment strat (doc_id doc) label ;;
             ret (fst st, snd st ++ [c]))
          (splitRawText section strat) (currentHeader, docChunks)
    end.

(** The body of [docs.forEach]: the chunks of one document *)
Definition segmentDoc (doc : SourceDocument) : Gen (list Chunk) :=
  match strat with
  | FILE =>
      c <- newChunk (doc_content doc) strat (doc_id doc) (doc_name doc) ;;
      ret [c]
  | _ =>
      if DocType_eqb (doc_type doc) csv then
        let structure := parseCSVStructure (doc_content doc) in
        forEach (csvRow doc (headers structure)) (rows structure) []
      else if isHierarchical then
        st <- forEach (hierSection doc)
                (split_regex_capture true sectionRegex (doc_content doc))
                (str "Intro / Untitled", []) ;;
        ret (snd st)
      else
        mapGen (fun t => newChunk (trim t) strat (doc_id doc) (doc_name doc))
          (splitRawText (doc_content doc) strat)
  end.

Definition performSegmentation (docs : list SourceDocument)
  : Gen (list Chunk) :=
  forEach (fun chunks doc =>
             docChunks <- segmentDoc doc ;;
             ret (chunks ++ docChunks))
    docs [].

End PerDocument.

(** A supply for the examples: the n-th identifier is n characters long. *)
Definition demoIds : IdSupply :=
  {| draw := fun n => repeat "i"%char n; drawn := 0 |}.

(** A Markdown document for the examples. *)
Definition mdDoc (name content : jsstring) : SourceDocument :=
  {| doc_id := str "d1"; doc_name := name; doc_content := content;
     doc_type := markdown; doc_csvHeaders := None |}.

(** The label and the text of a chunk. *)
Definition labelled (c : Chunk) : option jsstring * jsstring :=
  (chunk_sourceName c, chunk_text c).

(* ================================================================== *)
(** ** Flat splitting of one text ([splitSingleText]) *)
(* ================================================================== *)

Definition CSV_ROW_DELIMITER : jsstring := str "<<<ROW_BREAK>>>".

(** [text.replace(new RegExp(CSV_ROW_DELIMITER, 'g'), rep)] *)
Definition replaceDelimiter (rep txt : jsstring) : jsstring :=
  replace_global false (Lit CSV_ROW_DELIMITER) rep txt.

(** A chunk without source fields, as [splitSingleText] builds them. *)
Definition bareChunk (ty : Granularity) (txt : jsstring) : Gen Chunk :=
  i <- generateId ;;
  ret {| chunk_id := i; chunk_text := txt; chunk_type := ty;
         chunk_sourceId := None; chunk_sourceName := None;
         chunk_tags := [] |}.

(** [pieces.filter(t => t.trim().length > 0).map(t => chunk of t.trim())] *)
Definition trimmedChunks (ty : Granularity) (pieces : list jsstring)
  : Gen (list Chunk) :=
  mapGen (fun t => bareChunk ty (trim t)) (filter nonBlank pieces).

(** [pieces.map(t => t.trim()).filter(t => t).map(t => chunk of t)] *)
Definition responseChunks (pieces : list jsstring) : Gen (list Chunk) :=
  mapGen (bareChunk RESPONSE) (filter truthy (map trim pieces)).

(** [(text.match(/r/g) || []).length] *)
Definition countMatches (r : regex) (txt : jsstring) : nat :=
  length (orElse (match_global false r txt) []).

(** The PARAGRAPH branch, which is also the target of the TURN fallback. *)
Definition splitParagraphs (txt : jsstring) : Gen (list Chunk) :=
  let cleanText := replaceDelimiter [LF; LF] txt in
  trimmedChunks PARAGRAPH (split_regex false re_paragraph cleanText).

(** [/(?=^#+\s)/gm] *)
Definition re_heading : regex :=
  Look (Cat [Bol; Plus (Chr (isChr HASH)); Chr isSpace]).

(** [/[,;]\s+/] *)
Definition re_phrase : regex :=
  Seq (Chr (oneOf (str ",;"))) (Plus (Chr isSpace)).

Definition splitSingleText (txt : jsstring) (granularity : Granularity)
  : Gen (list Chunk) :=
  match granularity with
  | WHOLE =>
      c <- bareChunk WHOLE (replaceDelimiter [LF; LF] txt) ;;
      ret [c]
  | RESPONSE =>
      if includes CSV_ROW_DELIMITER txt then
        responseChunks (split_string CSV_ROW_DELIMITER txt)
      else
        let doubleNewlineCount := countMatches (Lit [LF; LF]) txt in
        let singleNewlineCount := countMatches (Lit [LF]) txt in
        (* doubleNewlineCount > singleNewlineCount * 0.1, on integers *)
        let splitPattern :=
          if (1 <? doubleNewlineCount)
             && (singleNewlineCount <? 10 * doubleNewlineCount)
          then Seq (Chr (isChr LF)) (Plus (Chr (isChr LF)))
          else Plus (Chr (isChr LF)) in
        responseChunks (split_regex false splitPattern txt)
  | TURN =>
      if negb (test false re_turn txt) && negb (includes [COLON] txt)
      then splitParagraphs txt
      else trimmedChunks TURN (split_regex false re_turn txt)
  | HEADING => trimmedChunks HEADING (split_regex true re_heading txt)
  | PARAGRAPH => splitParagraphs txt
  | SENTENCE =>
      let cleanText := replaceDelimiter (str " ") txt in
      trimmedChunks SENTENCE
        (orElse (match_global false re_sentence cleanText) [cleanText])
  | PHRASE =>
      let cleanText := replaceDelimiter (str " ") txt in
      trimmedChunks PHRASE (split_regex false re_phrase cleanText)
  | _ => ret []
  end.

Definition splitDocuments (documents : list SourceDocument)
  (granularity : Granularity) : Gen (list Chunk) :=
  forEach
    (fun allChunks doc =>
       cs <- splitSingleText (doc_content doc) granularity ;;
       ret (allChunks
            ++ map (fun c =>
                      {| chunk_id := chunk_id c; chunk_text := chunk_text c;
                         chunk_type := chunk_type c;
                         chunk_sourceId := Some (doc_id doc);
                         chunk_sourceName := Some (doc_name doc);
                         chunk_tags := chunk_tags c |}) cs))
    documents [].

(* ================================================================== *)
(** ** N-grams ([generateNgrams]) *)
(* ================================================================== *)

Definition STOP_WORDS : list jsstring :=
  map str
    ["the"; "and"; "or"; "but"; "in"; "on"; "at"; "to"; "a"; "an"; "is";
     "are"; "was"; "were"; "of"; "for"; "it"; "this"; "that"; "with"; "as";
     "by"; "from"; "be"; "have"; "has"; "had"; "not"; "are"; "will"; "can";
     "would"; "should"; "could"; "i"; "you"; "he"; "she"; "we"; "they"]%string.

Definition isStopWord (w : jsstring) : bool := arrIncludes w STOP_WORDS.

(** A [Map<string, number>]: keys in first-insertion order. *)
Definition CountMap := list (jsstring * nat).

Fixpoint mapGet (k : jsstring) (m : CountMap) : option nat :=
  match m with
  | [] => None
  | (k', v) :: m' => if str_eqb k' k then Some v else mapGet k m'
  end.

Fixpoint mapSet (k : jsstring) (v : nat) (m : CountMap) : CountMap :=
  match m with
  | [] => [(k, v)]
  | (k', v') :: m' =>
      if str_eqb k' k then (k', v) :: m' else (k', v') :: mapSet k v m'
  end.

(** [map.set(key, (map.get(key) || 0) + 1)] *)
Definition bump (key : jsstring) (m : CountMap) : CountMap :=
  mapSet key (orElse (mapGet key m) 0 + 1) m.

(** [chunk.text.toLowerCase().replace(/[^\w\s]/g, '').split(/\s+/)
      .filter(t => t.length > 0)] *)
Definition tokenize (txt : jsstring) : list jsstring :=
  filter truthy
    (split_regex false (Plus (Chr isSpace))
       (replace_global false (Chr (fun c => negb (isWord c || isSpace c))) []
          (toLowerCase txt))).

Definition SP : jsstring := str " ".

(** [for (i = 0; i < tokens.length - 1; i++)] *)
Fixpoint bigramLoop (tokens : list jsstring) (counts : CountMap) : CountMap :=
  match tokens with
  | a :: ((b :: _) as tokens') =>
      bigramLoop tokens'
        (if negb (isStopWord a) && negb (isStopWord b)
         then bump (a ++ SP ++ b) counts else counts)
  | _ => counts
  end.

(** [for (i = 0; i < tokens.length - 2; i++)] *)
Fixpoint trigramLoop (tokens : list jsstring) (counts : CountMap) : CountMap :=
  match tokens with
  | a :: ((b :: c :: _) as tokens') =>
      trigramLoop tokens'
        (if negb (isStopWord a) && negb (isStopWord b) && negb (isStopWord c)
         then bump (a ++ SP ++ b ++ SP ++ c) counts else counts)
  | _ => counts
  end.

Inductive NgramType : Type := bigram | trigram.

Record Ngram : Type := {
  ng_text : jsstring;
  ng_value : nat;
  ng_type : NgramType
}.

(** [arr.sort((a, b) => b.value - a.value)]: a stable sort, largest
    value first. *)
Fixpoint insertByValue (x : Ngram) (l : list Ngram) : list Ngram :=
  match l with
  | [] => [x]
  | y :: l' =>
      if ng_value x <? ng_value y then y :: insertByValue x l'
      else x :: l
  end.

Fixpoint sortByValue (l : list Ngram) : list Ngram :=
  match l with
  | [] => []
  | x :: l' => insertByValue x (sortByValue l')
  end.

Definition format (m : CountMap) (ty : NgramType) : list Ngram :=
  firstn 50
    (sortByValue
       (map (fun e => {| ng_text := fst e; ng_value := snd e; ng_type := ty |})
          m)).

Record Ngrams : Type := {
  bigrams : list Ngram;
  trigrams : list Ngram
}.

Definition ngramCounts (chunks : list Chunk) : CountMap * CountMap :=
  fold_left
    (fun (st : CountMap * CountMap) chunk =>
       let tokens := tokenize (chunk_text chunk) in
       (bigramLoop tokens (fst st), trigramLoop tokens (snd st)))
    chunks ([], []).

Definition generateNgrams (chunks : list Chunk) : Ngrams :=
  let st := ngramCounts chunks in
  {| bigrams := format (fst st) bigram;
     trigrams := format (snd st) trigram |}.

(* ================================================================== *)
(** ** Keyword in context ([generateKWIC]) *)
(* ================================================================== *)

Record KwicRow : Type := {
  kw_left : jsstring;
  kw_keyword : jsstring;
  kw_right : jsstring;
  kw_sourceName : option jsstring;
  kw_chunkId : jsstring
}.

Definition kwicRow (chunk : Chunk) (keyword : jsstring) (windowChars : Z)
  (startIndex : nat) : KwicRow :=
  let txt := chunk_text chunk in
  let start := Z.of_nat startIndex in
  let klen := Z.of_nat (length keyword) in
  let len := Z.of_nat (length txt) in
  let leftStart := Z.max 0 (start - windowChars) in
  let left := substring txt leftStart start in
  let actualKeyword := substring txt start (start + klen) in
  let rightEnd := Z.min len (start + klen + windowChars) in
  let right := substring txt (start + klen) rightEnd in
  {| kw_left := (if (0 <? leftStart)%Z then str "..." else []) ++ left;
     kw_keyword := actualKeyword;
     kw_right := right ++ (if (rightEnd <? len)%Z then str "..." else []);
     kw_sourceName := chunk_sourceName chunk;
     kw_chunkId := chunk_id chunk |}.

(** The [while] loop over one chunk.  Each unit of [fuel] pays for one
    evaluation of the loop condition; [None] means the loop was still
    running when the fuel ran out. *)
Fixpoint kwicLoop (fuel : nat) (chunk : Chunk) (keyword : jsstring)
  (windowChars : Z) (startIndex : nat) (results : list KwicRow)
  : option (list KwicRow) :=
  match fuel with
  | 0 => None
  | S fuel' =>
      match indexOf (toLowerCase keyword) (toLowerCase (chunk_text chunk))
              startIndex with
      | None => Some results
      | Some found =>
          kwicLoop fuel' chunk keyword windowChars (found + 1)
            (results ++ [kwicRow chunk keyword windowChars found])
      end
  end.

(** [chunks.forEach]: every chunk gets the same budget. *)
Fixpoint kwicChunks (fuel : nat) (chunks : list Chunk) (keyword : jsstring)
  (windowChars : Z) (results : list KwicRow) : option (list KwicRow) :=
  match chunks with
  | [] => Some results
  | chunk :: chunks' =>
      match kwicLoop fuel chunk keyword windowChars 0 results with
      | None => None
      | Some results' => kwicChunks fuel chunks' keyword windowChars results'
      end
  end.

Definition generateKWIC (fuel : nat) (chunks : list Chunk)
  (keyword : jsstring) (windowChars : Z) : option (list KwicRow) :=
  kwicChunks fuel chunks keyword windowChars [].

(* ================================================================== *)
(** ** Column roles ([guessCSVConfig]) *)
(* ================================================================== *)

Definition isHexDigit (c : ascii) : bool :=
  isDigit c || inRange 65 70 c || inRange 97 102 c.

Definition digits : regex := Plus (Chr isDigit).

Definition exponentPart : regex :=
  Opt (Cat [Chr (oneOf (str "eE")); Opt (Chr (oneOf (str "+-"))); digits]).

(** The strings that [Number] converts to a number: the grammar
    StringNumericLiteral, once surrounding white space is removed. *)
Definition re_numeric : regex :=
  Seq Bol
    (Seq
       (Alt (Seq (Opt (Chr (oneOf (str "+-"))))
               (Alt (Lit (str "Infinity"))
               (Alt (Cat [digits; Chr (isChr "."%char);
                          Star (Chr isDigit); exponentPart])
               (Alt (Cat [Chr (isChr "."%char); digits; exponentPart])
                    (Cat [digits; exponentPart])))))
       (Alt (Cat [Chr (isChr "0"%char); Chr (oneOf (str "bB"));
                  Plus (Chr (oneOf (str "01")))])
       (Alt (Cat [Chr (isChr "0"%char); Chr (oneOf (str "oO"));
                  Plus (Chr (inRange 48 55))])
       (Alt (Cat [Chr (isChr "0"%char); Chr (oneOf (str "xX"));
                  Plus (Chr isHexDigit)])
            Eps))))
       Eol).

(** [isNaN(Number(s))] *)
Definition isNaN_Number (s : jsstring) : bool :=
  negb (test false re_numeric (trim s)).

(** The counters of one column over the sampled rows *)
Record ColumnStats : Type := {
  nonNumeric : nat;
  totalLen : nat;
  validCount : nat
}.

(** [sample.forEach(row => { if (row[i]) { ... } })] *)
Definition columnStats (sample : list (list jsstring)) (i : nat)
  : ColumnStats :=
  fold_left
    (fun st row =>
       match nth_error row i with
       | Some v =>
           if truthy v then
             {| nonNumeric :=
                  if isNaN_Number v then S (nonNumeric st) else nonNumeric st;
                totalLen := totalLen st + length v;
                validCount := S (validCount st) |}
           else st
       | None => st
       end)
    sample {| nonNumeric := 0; totalLen := 0; validCount := 0 |}.

Definition hasWord (w : string) (name : jsstring) : bool :=
  includes (str w) name.

Definition isExplicitText (name : jsstring) : bool :=
  hasWord "text" name || hasWord "comment" name || hasWord "desc" name
  || hasWord "content" name || hasWord "feedback" name
  || hasWord "improve" name || hasWord "work" name
  || hasWord "response" name || hasWord "valuable" name.

(** The quotients [avgLen = totalLen / validCount] and
    [nonNumRatio = nonNumeric / validCount] are compared with their
    thresholds by cross-multiplication ([validCount > 0]). *)
Definition isLongText (st : ColumnStats) : bool :=
  (3 * validCount st <? 5 * nonNumeric st)          (* nonNumRatio > 0.6 *)
  && (30 * validCount st <? totalLen st).           (* avgLen > 30 *)

Definition isId (name : jsstring) : bool :=
  hasWord "id" name || hasWord "code" name || str_eqb name (str "no").

Definition isCategory (st : ColumnStats) (name : jsstring) : bool :=
  (totalLen st <? 20 * validCount st)               (* avgLen < 20 *)
  && (validCount st <? 10 * nonNumeric st)          (* nonNumRatio > 0.1 *)
  && negb (isExplicitText name).

Definition isMetric (st : ColumnStats) : bool :=
  10 * nonNumeric st <? validCount st.              (* nonNumRatio < 0.1 *)

Inductive ColumnRole : Type := Analyze | Context | Unassigned.

(** The decision taken for header [h] at index [i] *)
Definition columnRole (rws : list (list jsstring)) (h : jsstring) (i : nat)
  : ColumnRole :=
  let st := columnStats (firstn 30 rws) i in
  if 0 <? validCount st then
    let name := toLowerCase h in
    if isExplicitText name || isLongText st then Analyze
    else if isCategory st name || isId name || isMetric st then Context
    else Unassigned
  else Unassigned.

(** [headers.forEach((h, i) => ...)], from index [i] on *)
Fixpoint guessLoop (rws : list (list jsstring)) (hs : list jsstring)
  (i : nat) (cfg : CSVColumnConfig) : CSVColumnConfig :=
  match hs with
  | [] => cfg
  | h :: hs' =>
      guessLoop rws hs' (S i)
        match columnRole rws h i with
        | Analyze =>
            {| analyzeCols := analyzeCols cfg ++ [i];
               contextCols := contextCols cfg |}
        | Context =>
            {| analyzeCols := analyzeCols cfg;
               contextCols := contextCols cfg ++ [i] |}
        | Unassigned => cfg
        end
  end.

Definition guessCSVConfig (structure : CSVStructure) : CSVColumnConfig :=
  let cfg :=
    guessLoop (rows structure) (headers structure) 0
      {| analyzeCols := []; contextCols := [] |} in
  if (length (analyzeCols cfg) =? 0) && (0 <? length (headers structure))
  then {| analyzeCols := analyzeCols cfg ++ [length (headers structure) - 1];
          contextCols := contextCols cfg |}
  else cfg.

(* ================================================================== *)
(** ** Ingestion ([src/services/step1_ingest.ts]) *)
(* ================================================================== *)

(** The parts of a browser [File] that ingestion reads *)
Record File : Type := {
  file_name : jsstring;
  file_type : jsstring;
  file_text : jsstring
}.

(** [/^#{1,6}\s+.+$/m] *)
Definition re_mdHeader : regex :=
  Cat [Bol; RepRange 1 6 (Chr (isChr HASH)); Plus (Chr isSpace);
       Plus (Chr isDot); Eol].

Definition hasMarkdownHeaders (txt : jsstring) : bool :=
  test true re_mdHeader txt.

(** [file.name.split('.').pop()?.toLowerCase()] *)
Definition extensionOf (name : jsstring) : option jsstring :=
  match rev (split_string (str ".") name) with
  | [] => None
  | e :: _ => Some (toLowerCase e)
  end.

Definition extIs (ext : option jsstring) (e : string) : bool :=
  match ext with Some x => str_eqb x (str e) | None => false end.

(** [rows.slice(0, 5).every(r => r.length === n)] *)
Definition consistentRows (rws : list (list jsstring)) (n : nat) : bool :=
  forallb (fun r => length r =? n) (firstn 5 rws).

Definition classifyFile (file : File) : DocType :=
  let txt := file_text file in
  let extension := extensionOf (file_name file) in
  if extIs extension "csv" || str_eqb (file_type file) (str "text/csv")
  then csv
  else if extIs extension "md" || extIs extension "markdown" then markdown
  else
    let csvAttempt := parseCSVStructure txt in
    let colCount := length (headers csvAttempt) in
    let type1 :=
      if (2 <=? colCount) && (0 <? length (rows csvAttempt)) then
        if consistentRows (rows csvAttempt) colCount
           && (0 <? totalRows csvAttempt)
        then csv else text
      else text in
    if negb (DocType_eqb type1 csv) then
      if hasMarkdownHeaders txt then markdown else type1
    else type1.

Definition ingestFile (file : File) : Gen SourceDocument :=
  let txt := file_text file in
  let type := classifyFile file in
  let csvHeaders :=
    if DocType_eqb type csv then headers (parseCSVStructure txt) else [] in
  i <- generateId ;;
  ret {| doc_id := i; doc_name := file_name file; doc_content := txt;
         doc_type := type;
         doc_csvHeaders :=
           if 0 <? length csvHeaders then Some csvHeaders else None |}.

Definition classifyManualText (txt : jsstring) : DocType :=
  let type0 := if hasMarkdownHeaders txt then markdown else text in
  let csvAttempt := parseCSVStructure txt in
  if (2 <=? length (headers csvAttempt)) && (0 <? length (rows csvAttempt))
  then
    if consistentRows (rows csvAttempt) (length (headers csvAttempt))
    then csv else type0
  else type0.

Definition ingestManualText (txt : jsstring) : Gen SourceDocument :=
  let type := classifyManualText txt in
  i <- generateId ;;
  ret {| doc_id := i; doc_name := str "Manual Input"; doc_content := txt;
         doc_type := type;
         doc_csvHeaders :=
           if DocType_eqb type csv
           then Some (headers (parseCSVStructure txt)) else None |}.

(* ================================================================== *)
(** ** Definitions used to state the properties *)
(* ================================================================== *)

Definition allSpace (s : jsstring) : bool := forallb isSpace s.

(** The text of the chunk is not empty after trimming. *)
Definition okText (c : Chunk) : Prop := nonBlank (chunk_text c) = true.

(** The strategies for which [splitRawText] drops blank pieces. *)
Definition filtering (strat : Granularity) : Prop :=
  In strat [PARAGRAPH; LINE; SECTION; TURN].

(** A plain-text document for the examples. *)
Definition textDoc (content : jsstring) : SourceDocument :=
  {| doc_id := str "d0"; doc_name := str "notes.txt";
     doc_content := content; doc_type := text; doc_csvHeaders := None |}.

(** The document of the worked hierarchical example. *)
Definition c3content : jsstring := nl "# Title||## A|foo||## B|bar".

Definition c3doc : SourceDocument := mdDoc (str "doc") c3content.

(** What a chunk says about its origin and content. *)
Definition Entry : Type := (option jsstring * option jsstring * jsstring)%type.

Definition entryOf (c : Chunk) : Entry :=
  (chunk_sourceId c, chunk_sourceName c, chunk_text c).

Definition entry (id name txt : jsstring) : Entry := (Some id, Some name, txt).

(** The order the specification asks for, written as nested
    concatenations: documents in order; within a document its rows (or
    its sections, walked with the heading in force); within a row the
    target columns, within a section the pieces of the inner split. *)
Section Outline.

Variable strat : Granularity.
Variable csvConfig : option CsvSegmentationConfig.
Variable isHierarchical : bool.
Variable splitLevel : nat.

Definition rowOutline (doc : SourceDocument) (hdrs row : list jsstring)
  : list Entry :=
  let targetCols :=
    match csvConfig with Some c => targetColumns c | None => hdrs end in
  let contextCols :=
    match csvConfig with Some c => contextColumns c | None => [] end in
  let sentimentCols :=
    match csvConfig with
    | Some c => orElse (sentimentContextColumns c) []
    | None => []
    end in
  let contextStr := contextStrOf hdrs contextCols sentimentCols row in
  if negb isHierarchical then
    let mainStr := mainStrOf hdrs targetCols row in
    if nonBlank mainStr
    then [entry (doc_id doc) (doc_name doc) (metaPrefix contextStr ++ mainStr)]
    else []
  else
    flat_map
      (fun colName =>
         match arrIndexOf colName hdrs with
         | Some _ =>
             if truthy (cellValue hdrs row colName)
             then [entry (doc_id doc)
                     (doc_name doc ++ str " > " ++ colName)
                     (metaPrefix contextStr
                      ++ str "[Column: " ++ colName ++ str "]" ++ [LF]
                      ++ cellValue hdrs row colName)]
             else []
         | None => []
         end)
      targetCols.

Definition sectionPieces (section : jsstring) : list jsstring :=
  match strat with
  | SUBSECTION => [trim section]
  | _ => splitRawText section strat
  end.

Fixpoint sectionsOutline (doc : SourceDocument) (currentHeader : jsstring)
  (sections : list jsstring) : list Entry :=
  match sections with
  | [] => []
  | section :: sections' =>
      if negb (nonBlank section) then
        sectionsOutline doc currentHeader sections'
      else if test false (headerRegex strat splitLevel) section then
        sectionsOutline doc
          (trim (replace_first false re_headerMarks [] (trim section)))
          sections'
      else
        map (entry (doc_id doc)
               (doc_name doc ++ str " > " ++ currentHeader))
          (sectionPieces section)
        ++ sectionsOutline doc currentHeader sections'
  end.

Definition docOutline (doc : SourceDocument) : list Entry :=
  match strat with
  | FILE => [entry (doc_id doc) (doc_name doc) (doc_content doc)]
  | _ =>
      if DocType_eqb (doc_type doc) csv then
        flat_map (rowOutline doc (headers (parseCSVStructure (doc_content doc))))
          (rows (parseCSVStructure (doc_content doc)))
      else if isHierarchical then
        sectionsOutline doc (str "Intro / Untitled")
          (split_regex_capture true (sectionRegex strat splitLevel)
             (doc_content doc))
      else
        map (fun t => entry (doc_id doc) (doc_name doc) (trim t))
          (splitRawText (doc_content doc) strat)
  end.

End Outline.

(** The non-blank lines of a content, a line ending at each line feed. *)
Definition nonBlankLines (content : jsstring) : list jsstring :=
  filter nonBlank (split_string [LF] content).

(** Indices, from [i] on, of the headers that qualify as targets. *)
Fixpoint analyzeFrom (rws : list (list jsstring)) (hs : list jsstring)
  (i : nat) : list nat :=
  match hs with
  | [] => []
  | h :: hs' =>
      match columnRole rws h i with
      | Analyze => i :: analyzeFrom rws hs' (S i)
      | _ => analyzeFrom rws hs' (S i)
      end
  end.

Definition surveyTable : CSVStructure :=
  parseCSVStructure (nl "RespondentID,Score|17,4|18,5").

Definition headerOnlyCsv : File :=
  {| file_name := str "survey.csv"; file_type := str "text/csv";
     file_text := str "name,age,comment" |}.

Definition noLF (l : jsstring) : Prop := Forall (fun c => chr_eqb LF c = false) l.

(** The texts of the LINE chunks of a content: its non-blank lines,
    trimmed. *)
Definition lineTexts (content : jsstring) : list jsstring :=
  map trim (filter nonBlank (split_string [LF] content)).

(** The content with its leading and trailing blank lines removed. *)
Fixpoint dropBlankLines (ls : list jsstring) : list jsstring :=
  match ls with
  | [] => []
  | l :: ls' => if nonBlank l then ls else dropBlankLines ls'
  end.

Definition stripOuterBlankLines (s : jsstring) : jsstring :=
  join [LF]
    (rev (dropBlankLines (rev (dropBlankLines (split_string [LF] s))))).

Definition nonSpace (c : ascii) : Prop := isSpace c = false.

(** A token: non-empty and free of white space. *)
Definition wordTok (t : jsstring) : Prop := t <> [] /\ Forall nonSpace t.

Definition stopFreeBigram (key : jsstring) : Prop :=
  exists a b,
    key = a ++ SP ++ b /\ wordTok a /\ wordTok b
    /\ isStopWord a = false /\ isStopWord b = false.

Definition stopFreeTrigram (key : jsstring) : Prop :=
  exists a b c,
    key = a ++ SP ++ b ++ SP ++ c /\ wordTok a /\ wordTok b /\ wordTok c
    /\ isStopWord a = false /\ isStopWord b = false /\ isStopWord c = false.

Definition keysAll (P : jsstring -> Prop) (m : CountMap) : Prop :=
  Forall (fun e => P (fst e)) m.

Definition chunkOf (txt : jsstring) : Chunk :=
  {| chunk_id := str "c1"; chunk_text := txt; chunk_type := PARAGRAPH;
     chunk_sourceId := None; chunk_sourceName := None; chunk_tags := [] |}.

Definition catText : jsstring := str "the cat sat. the cat ran.".

Definition catChunk : Chunk := chunkOf (str "a cat sat near a cat").

Definition surveyDoc : SourceDocument :=
  {| doc_id := str "d2"; doc_name := str "s.csv";
     doc_content := nl "id,comment,note|1,good stuff,|2,,n2|3,bad,n3";
     doc_type := csv; doc_csvHeaders := None |}.

Definition surveyConfig : option CsvSegmentationConfig :=
  Some {| targetColumns := [str "comment"; str "note"];
          contextColumns := [str "id"];
          sentimentContextColumns := Some [str "id"];
          strategy := DISTINCT |}.

Definition commentsTable : CSVStructure :=
  parseCSVStructure
    (nl ("RespondentID,Comments"
         ++ "|r1,I really liked the workshop and the people there a lot"
         ++ "|r2,It was fine but the room was far too cold for me")).

(* ================================================================== *)
(** ** Definitions used to state the further properties *)
(* ================================================================== *)

(** The next [n] identifiers of a supply, and the supply after them. *)
Definition idsFrom (g : IdSupply) (n : nat) : list jsstring :=
  map (draw g) (seq (drawn g) n).

Definition advance (g : IdSupply) (n : nat) : IdSupply :=
  {| draw := draw g; drawn := drawn g + n |}.

(** [csvConfig?.targetColumns || headers] *)
Definition targetColsOf (cfg : option CsvSegmentationConfig)
  (hdrs : list jsstring) : list jsstring :=
  match cfg with Some c => targetColumns c | None => hdrs end.

(** A chunk text that is not empty and has no white space around it. *)
Definition trimmedText (t : jsstring) : Prop := t <> [] /\ trim t = t.

(** The granularities that [splitSingleText] has no branch for. *)
Definition unsupportedBySplitSingleText : list Granularity :=
  [LINE; SECTION; SUBSECTION; FILE; ROW_COMBINED; ROW_DISTINCT_COLUMNS].

(** Largest value first. *)
Fixpoint descending (l : list Ngram) : Prop :=
  match l with
  | x :: ((y :: _) as l') => ng_value y <= ng_value x /\ descending l'
  | _ => True
  end.

Definition jsstring_eq_dec : forall a b : jsstring, {a = b} + {a <> b} :=
  list_eq_dec ascii_dec.

(** The bigrams and trigrams of a token list that hold no stop word, in
    the order of the text. *)
Fixpoint bigramsOf (tokens : list jsstring) : list jsstring :=
  match tokens with
  | a :: ((b :: _) as tokens') =>
      (if negb (isStopWord a) && negb (isStopWord b)
       then [a ++ SP ++ b] else [])
      ++ bigramsOf tokens'
  | _ => []
  end.

Fixpoint trigramsOf (tokens : list jsstring) : list jsstring :=
  match tokens with
  | a :: ((b :: c :: _) as tokens') =>
      (if negb (isStopWord a) && negb (isStopWord b) && negb (isStopWord c)
       then [a ++ SP ++ b ++ SP ++ c] else [])
      ++ trigramsOf tokens'
  | _ => []
  end.

Definition allBigrams (chunks : list Chunk) : list jsstring :=
  flat_map (fun c => bigramsOf (tokenize (chunk_text c))) chunks.

Definition allTrigrams (chunks : list Chunk) : list jsstring :=
  flat_map (fun c => trigramsOf (tokenize (chunk_text c))) chunks.

Definition occurrencesOf (key : jsstring) (l : list jsstring) : nat :=
  count_occ jsstring_eq_dec l key.

Definition countOf (k : jsstring) (m : CountMap) : nat := orElse (mapGet k m) 0.

(** Keys of a count map are pairwise different and counts positive. *)
Definition wellFormedCounts (m : CountMap) : Prop :=
  NoDup (map fst m) /\ Forall (fun e => 1 <= snd e) m.

(** A computation that extends the chunk list [s], drawing one identifier
    for every chunk it adds. *)
Definition Emits (m : Gen (list Chunk)) (s : list Chunk) : Prop :=
  forall g, exists new,
    m g = (s ++ new, advance g (length new))
    /\ map chunk_id new = idsFrom g (length new).

(** The same for the state of the hierarchical walk. *)
Definition EmitsH (m : Gen (jsstring * list Chunk)) (s : list Chunk) : Prop :=
  forall g, exists cur new,
    m g = ((cur, s ++ new), advance g (length new))
    /\ map chunk_id new = idsFrom g (length new).

(** The positions at which [p] occurs in [s], in increasing order; [pos]
    is the index of the head of [s]. *)
Fixpoint occurrencesFrom (p s : jsstring) (pos : nat) : list nat :=
  (if startsWith p s then [pos] else [])
  ++ match s with
     | [] => []
     | _ :: s' => occurrencesFrom p s' (S pos)
     end.

Definition occurrences (p s : jsstring) : list nat := occurrencesFrom p s 0.

(** The string holds no double quote. *)
Definition quoteFree (s : jsstring) : Prop :=
  Forall (fun c => chr_eqb c DQUOTE = false) s.

(** The text with every line feed turned into carriage return and line
    feed. *)
Definition toCRLF (s : jsstring) : jsstring :=
  flat_map (fun c => if chr_eqb LF c then [CR; LF] else [c]) s.

Definition noCR (s : jsstring) : Prop :=
  Forall (fun c => chr_eqb CR c = false) s.

(** Indices, from [i] on, of the headers that are given the context
    role. *)
Fixpoint contextFrom (rws : list (list jsstring)) (hs : list jsstring)
  (i : nat) : list nat :=
  match hs with
  | [] => []
  | h :: hs' =>
      match columnRole rws h i with
      | Context => i :: contextFrom rws hs' (S i)
      | _ => contextFrom rws hs' (S i)
      end
  end.

(* ================================================================== *)
(** ** Formatting a table as text ([generateFormattedCSV]) *)
(* ================================================================== *)

(** [arr.filter(Boolean)] on an array of strings and [null]s: [null] and
    the empty string are dropped. *)
Definition filterBoolean (l : list (option jsstring)) : list jsstring :=
  flat_map (fun o =>
              match o with
              | Some s => if truthy s then [s] else []
              | None => []
              end) l.

(** [`${headers[idx]}`]: a missing header prints as [undefined]. *)
Definition headerText (hdrs : list jsstring) (idx : nat) : jsstring :=
  orElse (nth_error hdrs idx) (str "undefined").

(** [row[idx]], unless it is missing or blank *)
Definition filledCell (row : list jsstring) (idx : nat) : option jsstring :=
  match nth_error row idx with
  | Some val => if negb (truthy val) || negb (nonBlank val) then None
                else Some val
  | None => None
  end.

Definition contextPartsOf (hdrs row : list jsstring) (contextCols : list nat)
  : list jsstring :=
  filterBoolean
    (map (fun idx =>
            match filledCell row idx with
            | None => None
            | Some val =>
                Some (str "[" ++ headerText hdrs idx ++ str "]: " ++ val)
            end) contextCols).

Definition analyzePartsOf (hdrs row : list jsstring) (analyzeCols : list nat)
  : list jsstring :=
  filterBoolean
    (map (fun idx =>
            match filledCell row idx with
            | None => None
            | Some val =>
                if 1 <? length analyzeCols
                then Some (headerText hdrs idx ++ str ": " ++ val)
                else Some val
            end) analyzeCols).

(** The callback of [rows.map]: [None] is [null]. *)
Definition formatRow (hdrs : list jsstring) (config : CSVColumnConfig)
  (row : list jsstring) : option jsstring :=
  let contextParts := contextPartsOf hdrs row (contextCols config) in
  let contextStr :=
    if 0 <? length contextParts
    then join (str " | ") contextParts ++ [LF] else [] in
  let analyzeStr := join [LF] (analyzePartsOf hdrs row (analyzeCols config)) in
  if negb (nonBlank analyzeStr) then None
  else Some (contextStr ++ analyzeStr).

Definition formattedRows (structure : CSVStructure) (config : CSVColumnConfig)
  : list jsstring :=
  filterBoolean (map (formatRow (headers structure) config) (rows structure)).

Definition rowSeparator : jsstring :=
  [LF; LF] ++ CSV_ROW_DELIMITER ++ [LF; LF].

Definition generateFormattedCSV (structure : CSVStructure)
  (config : CSVColumnConfig) : jsstring :=
  join rowSeparator (formattedRows structure config).

(** The string holds no less-than sign, the first character of the row
    delimiter. *)
Definition ltFree (s : jsstring) : Prop :=
  Forall (fun c => chr_eqb "<"%char c = false) s.

(* ================================================================== *)
(** ** Heading levels ([analyzeMarkdownLevels], [initStep2]) *)
(* ================================================================== *)

(** [restAfter r1 r2 s]: the text that follows the part taken by [r1] in
    the first match of [r1] followed by [r2] that the backtracking search
    finds at index 0 of [s], for a pattern without the [m] flag. *)
Definition restAfter (r1 r2 : regex) (s : jsstring) : option jsstring :=
  run false r1 None s
    (fun prev1 s1 => run false r2 prev1 s1 (fun _ _ => Some s1)).

Definition re_hashes : regex := RepRange 1 6 (Chr (isChr HASH)).
Definition re_spaces : regex := Plus (Chr isSpace).
Definition re_title : regex := Seq (Plus (Chr isDot)) Eol.

(** [line.match(/^(#{1,6})\s+(.+)$/)]: the length of the first group and
    the second group.  Without the [m] flag [^] holds at index 0 only,
    so that is the only index at which the search can succeed, and [$]
    holds at the end of the text only, so the second group is all that
    follows the white space. *)
Definition headingMatch (line : jsstring) : option (nat * jsstring) :=
  match restAfter (Seq Bol re_hashes) (Seq re_spaces re_title) line,
        restAfter (Cat [Bol; re_hashes; re_spaces]) re_title line with
  | Some afterHashes, Some title =>
      Some (length line - length afterHashes, title)
  | _, _ => None
  end.

(** The object [{1:[], 2:[], 3:[], 4:[], 5:[], 6:[]}] as a function of
    the key; a key outside 1..6 reads [undefined], which is written as
    the empty list and never pushed to. *)
Definition Levels : Type := nat -> list jsstring.

Definition noLevels : Levels := fun _ => [].

(** [if (levels[level]) levels[level].push(text)] *)
Definition pushLevel (level : nat) (txt : jsstring) (levels : Levels)
  : Levels :=
  if (1 <=? level) && (level <=? 6)
  then fun i => if i =? level then levels i ++ [txt] else levels i
  else levels.

(** The body of [lines.forEach] *)
Definition analyzeLine (levels : Levels) (line : jsstring) : Levels :=
  match headingMatch (trim line) with
  | Some (level, title) => pushLevel level (trim title) levels
  | None => levels
  end.

(** The body of [docs.forEach] *)
Definition analyzeDoc (levels : Levels) (doc : SourceDocument) : Levels :=
  if DocType_eqb (doc_type doc) markdown || DocType_eqb (doc_type doc) text
  then fold_left analyzeLine
         (split_regex false re_newline (doc_content doc)) levels
  else levels.

Definition analyzeMarkdownLevels (docs : list SourceDocument) : Levels :=
  fold_left analyzeDoc docs noLevels.

(** [for (let i = 1; i <= 6; i++) { if (p(levels[i])) { x = i; break; } }]
    with [x] initialised to 1 *)
Definition firstLevel (p : list jsstring -> bool) (levels : Levels) : nat :=
  orElse (find (fun i => p (levels i)) (seq 1 6)) 1.

(** The default split level computed by [initStep2] *)
Definition defaultLevelOf (levels : Levels) : nat :=
  if (length (levels 1) <=? 1) && (1 <? length (levels 2)) then 2
  else firstLevel (fun l => 0 <? length l) levels.

Definition defaultLevel (docs : list SourceDocument) : nat :=
  defaultLevelOf (analyzeMarkdownLevels docs).

(* ================================================================== *)
(** ** Column mapping dialogue ([src/components/CsvConfigModal.tsx]) *)
(* ================================================================== *)

(** The component state: the three column lists and the strategy
    switch. *)
Record ModalState : Type := {
  st_targetColumns : list jsstring;
  st_contextColumns : list jsstring;
  st_sentimentContextColumns : list jsstring;
  st_combineMode : bool
}.

(** The four [useState] initialisers *)
Definition openModal (initialConfig : CsvSegmentationConfig) : ModalState :=
  {| st_targetColumns := targetColumns initialConfig;
     st_contextColumns := contextColumns initialConfig;
     st_sentimentContextColumns :=
       orElse (sentimentContextColumns initialConfig) [];
     st_combineMode :=
       match strategy initialConfig with
       | COMBINE => true
       | DISTINCT => false
       end |}.

Inductive ToggleType : Type := onTarget | onContext | onSentiment.

(** [arr.filter(c => c !== col)] *)
Definition without (col : jsstring) (arr : list jsstring) : list jsstring :=
  filter (fun c => negb (str_eqb c col)) arr.

(** Every branch calls each state setter at most once, with a value
    computed from the state of the current render. *)
Definition handleToggle (col : jsstring) (type : ToggleType)
  (st : ModalState) : ModalState :=
  let targetCols := st_targetColumns st in
  let contextCols := st_contextColumns st in
  let sentimentCols := st_sentimentContextColumns st in
  match type with
  | onTarget =>
      if arrIncludes col targetCols then
        {| st_targetColumns := without col targetCols;
           st_contextColumns := contextCols;
           st_sentimentContextColumns := sentimentCols;
           st_combineMode := st_combineMode st |}
      else
        {| st_targetColumns := targetCols ++ [col];
           st_contextColumns := without col contextCols;
           st_sentimentContextColumns := without col sentimentCols;
           st_combineMode := st_combineMode st |}
  | onContext =>
      if arrIncludes col contextCols then
        {| st_targetColumns := targetCols;
           st_contextColumns := without col contextCols;
           st_sentimentContextColumns := without col sentimentCols;
           st_combineMode := st_combineMode st |}
      else
        {| st_targetColumns := without col targetCols;
           st_contextColumns := contextCols ++ [col];
           st_sentimentContextColumns := sentimentCols;
           st_combineMode := st_combineMode st |}
  | onSentiment =>
      if arrIncludes col sentimentCols then
        {| st_targetColumns := targetCols;
           st_contextColumns := contextCols;
           st_sentimentContextColumns := without col sentimentCols;
           st_combineMode := st_combineMode st |}
      else
        {| st_targetColumns := targetCols;
           st_contextColumns := contextCols;
           st_sentimentContextColumns := sentimentCols ++ [col];
           st_combineMode := st_combineMode st |}
  end.

(** The button that calls [handleSave] is disabled while
    [targetColumns] is empty. *)
Definition handleSave (st : ModalState) : CsvSegmentationConfig :=
  {| targetColumns := st_targetColumns st;
     contextColumns := st_contextColumns st;
     sentimentContextColumns := Some (st_sentimentContextColumns st);
     strategy := if st_combineMode st then COMBINE else DISTINCT |}.

(** The sentiment box of a column is rendered with
    [disabled={!isContext}], where [isContext] is
    [contextColumns.includes(header)]; the two other boxes are always
    enabled. *)
Definition enabledBox (st : ModalState) (col : jsstring) (type : ToggleType)
  : bool :=
  match type with
  | onSentiment => arrIncludes col (st_contextColumns st)
  | _ => true
  end.

(** A click on a box: a disabled box raises no change event. *)
Definition click (st : ModalState) (ev : jsstring * ToggleType)
  : ModalState :=
  if enabledBox st (fst ev) (snd ev) then handleToggle (fst ev) (snd ev) st
  else st.

Definition clicks (evs : list (jsstring * ToggleType)) (st : ModalState)
  : ModalState :=
  fold_left click evs st.

(* ================================================================== *)
(** ** Evidence management ([handleRealignChunk], [handleRemoveTag]) *)
(* ================================================================== *)

(** [{ ...chunk, tags }] *)
Definition withTags (chunk : Chunk) (tags : list jsstring) : Chunk :=
  {| chunk_id := chunk_id chunk; chunk_text := chunk_text chunk;
     chunk_type := chunk_type chunk;
     chunk_sourceId := chunk_sourceId chunk;
     chunk_sourceName := chunk_sourceName chunk;
     chunk_tags := tags |}.

(** [chunks.find(c => c.id === chunkId)] *)
Definition findChunk (chunkId : jsstring) (chunks : list Chunk)
  : option Chunk :=
  find (fun c => str_eqb (chunk_id c) chunkId) chunks.

(** [chunks.map(c => c.id === chunkId ? updatedChunk : c)] *)
Definition replaceChunk (chunkId : jsstring) (updatedChunk : Chunk)
  (chunks : list Chunk) : list Chunk :=
  map (fun c => if str_eqb (chunk_id c) chunkId then updatedChunk else c)
    chunks.

(** [newTags = tags.filter(t => t !== oldTerm);
     if (!newTags.includes(newTerm)) newTags.push(newTerm)] *)
Definition realignTags (oldTerm newTerm : jsstring) (tags : list jsstring)
  : list jsstring :=
  let newTags := without oldTerm tags in
  if arrIncludes newTerm newTags then newTags else newTags ++ [newTerm].

(** The handlers as functions of the chunk list of the state: the chunk
    is looked up in the list the handler sees and the state updater
    maps over the same list. *)
Definition handleRealignChunk (chunkId oldTerm newTerm : jsstring)
  (chunks : list Chunk) : list Chunk :=
  match findChunk chunkId chunks with
  | None => chunks
  | Some chunk =>
      replaceChunk chunkId
        (withTags chunk (realignTags oldTerm newTerm (chunk_tags chunk)))
        chunks
  end.

Definition handleRemoveTag (chunkId term : jsstring) (chunks : list Chunk)
  : list Chunk :=
  match findChunk chunkId chunks with
  | None => chunks
  | Some chunk =>
      replaceChunk chunkId (withTags chunk (without term (chunk_tags chunk)))
        chunks
  end.

(* ================================================================== *)
(** ** Concept graph ([buildGraph]) *)
(* ================================================================== *)

Inductive NodeType : Type := concept | entity | event.

Record SemanticNode : Type := {
  node_id : jsstring;
  node_label : jsstring;
  node_type : NodeType;
  node_value : nat
}.

Record SemanticLink : Type := {
  link_source : jsstring;
  link_target : jsstring;
  link_label : jsstring;
  link_strength : nat
}.

Record ConceptMapData : Type := {
  nodes : list SemanticNode;
  links : list SemanticLink
}.

(** One element of [response.links] as the model returned it; [weight]
    may be missing. *)
Record RawLink : Type := {
  raw_source : jsstring;
  raw_target : jsstring;
  raw_label : jsstring;
  raw_weight : option nat
}.

(** [x || 1] on a count that may be missing *)
Definition orOne (o : option nat) : nat :=
  match o with
  | Some (S n) => S n
  | _ => 1
  end.

(** The two nested [forEach] loops that fill [tagCounts] *)
Definition tagCounts (chunks : list Chunk) : CountMap :=
  fold_left
    (fun counts c => fold_left (fun counts tag => bump tag counts)
                       (chunk_tags c) counts)
    chunks [].

(** [entries.sort((a, b) => b[1] - a[1])]: a stable sort, largest count
    first. *)
Fixpoint insertByCount (x : jsstring * nat) (l : CountMap) : CountMap :=
  match l with
  | [] => [x]
  | y :: l' =>
      if snd x <? snd y then y :: insertByCount x l'
      else x :: l
  end.

Fixpoint sortByCount (l : CountMap) : CountMap :=
  match l with
  | [] => []
  | x :: l' => insertByCount x (sortByCount l')
  end.

Definition topConcepts (chunks : list Chunk) : list jsstring :=
  map fst (firstn 20 (sortByCount (tagCounts chunks))).

(** [response] is what [runPrompt] resolved to: the list [response.links],
    or [None] when the call (or reading the list) threw and the [catch]
    branch ran.  The prompt is built from the concept list and the
    summary; the answer is an input here. *)
Definition buildGraph (response : option (list RawLink))
  (chunks : list Chunk) : ConceptMapData :=
  let counts := tagCounts chunks in
  let top := topConcepts chunks in
  let nodes :=
    map (fun tag => {| node_id := tag; node_label := tag;
                       node_type := concept;
                       node_value := orOne (mapGet tag counts) |}) top in
  match response with
  | Some rawLinks =>
      let links :=
        map (fun link => {| link_source := raw_source link;
                            link_target := raw_target link;
                            link_label := raw_label link;
                            link_strength := orOne (raw_weight link) |})
          rawLinks in
      {| nodes := nodes;
         links := filter (fun l => arrIncludes (link_source l) top
                                   && arrIncludes (link_target l) top)
                    links |}
  | None => {| nodes := nodes; links := [] |}
  end.

(* ================================================================== *)
(** ** Further definitions used to state properties *)
(* ================================================================== *)

(** Target and context columns share no column, and every sentiment
    column is a context column. *)
Definition columnsConsistent (cfg : CsvSegmentationConfig) : Prop :=
  (forall c, In c (targetColumns cfg) -> ~ In c (contextColumns cfg))
  /\ (forall c, In c (orElse (sentimentContextColumns cfg) []) ->
                In c (contextColumns cfg)).

(** All tags of all chunks, in order *)
Definition allTags (chunks : list Chunk) : list jsstring :=
  flat_map chunk_tags chunks.

Fixpoint descendingCounts (l : CountMap) : Prop :=
  match l with
  | x :: ((y :: _) as l') => snd y <= snd x /\ descendingCounts l'
  | _ => True
  end.

(** The per-chunk form of [handleRealignChunk] and [handleRemoveTag] *)
Definition retag (f : list jsstring -> list jsstring) (chunkId : jsstring)
  (chunks : list Chunk) : list Chunk :=
  map (fun c => if str_eqb (chunk_id c) chunkId
                then withTags c (f (chunk_tags c)) else c)
    chunks.

(** A two-chunk state with tags, for the examples *)
Definition taggedChunk (id txt : jsstring) (tags : list jsstring) : Chunk :=
  {| chunk_id := id; chunk_text := txt; chunk_type := PARAGRAPH;
     chunk_sourceId := None; chunk_sourceName := None; chunk_tags := tags |}.

Definition taggedChunks : list Chunk :=
  [taggedChunk (str "a1") (str "first") [str "hope"; str "fear"];
   taggedChunk (str "b2") (str "second") [str "hope"]].

(** One chunk with 21 different tags, the first of them twice *)
Definition manyTags : list jsstring :=
  map str ["a"; "b"; "c"; "d"; "e"; "f"; "g"; "h"; "i"; "j"; "k"; "l"; "m";
           "n"; "o"; "p"; "q"; "r"; "s"; "t"; "u"; "a"]%string.

Definition manyTagsChunk : Chunk :=
  taggedChunk (str "a1") (str "first") manyTags.

(** Every recorded heading sits at a level from 1 to 6 and is a trimmed,
    non-empty text. *)
Definition headingsOk (levels : Levels) : Prop :=
  forall i t, In t (levels i) -> 1 <= i <= 6 /\ trimmedText t.

(** The documents on which the two splitters read the same text in the
    same way: no table, and for paragraphs no row delimiter in the text,
    for turns a colon in it. *)
Definition splitsAlike (strat : Granularity) (d : SourceDocument) : Prop :=
  doc_type d <> csv
  /\ match strat with
     | PARAGRAPH => includes CSV_ROW_DELIMITER (doc_content d) = false
     | TURN => includes [COLON] (doc_content d) = true
     | _ => False
     end.

(** Order with respect to the content of a document *)

(** [InOrder ps s]: the texts [ps] lie in [s] one after the other, from
    left to right and without overlap. *)
Inductive InOrder : list jsstring -> jsstring -> Prop :=
| InOrder_nil : forall s, InOrder [] s
| InOrder_cons : forall p ps pre rest,
    InOrder ps rest -> InOrder (p :: ps) (pre ++ p ++ rest).

(** [Subseq l1 l2]: [l1] is [l2] with some elements left out. *)
Inductive Subseq {A : Type} : list A -> list A -> Prop :=
| Subseq_nil : Subseq [] []
| Subseq_skip : forall x l1 l2, Subseq l1 l2 -> Subseq l1 (x :: l2)
| Subseq_take : forall x l1 l2, Subseq l1 l2 -> Subseq (x :: l1) (x :: l2).

Definition entryText (e : Entry) : jsstring := snd e.
Definition entryName (e : Entry) : option jsstring := snd (fst e).

(** What the order of the chunks of one document owes to its content.
    For a text, the chunk texts lie in the content in the order of the
    chunks.  For a table, the non-blank lines lie in the content in
    order, the first is the header line, and the chunks are those of the
    second line, then those of the third, and so on; the chunks of one
    line follow the order of the target columns, one chunk at most per
    column (or one chunk at most per line when the columns are
    combined). *)
Definition followsContent (strat : Granularity)
  (cfg : option CsvSegmentationConfig) (hier : bool) (d : SourceDocument)
  (es : list Entry) : Prop :=
  if DocType_eqb (doc_type d) csv && negb (Granularity_eqb strat FILE) then
    let lines := csvLines (doc_content d) in
    let hdrs := splitCSVLine (hd [] lines) in
    InOrder lines (doc_content d)
    /\ es = flat_map (fun line => rowOutline cfg hier d hdrs
                                    (splitCSVLine line)) (tl lines)
    /\ forall row,
         if hier
         then Subseq (map entryName (rowOutline cfg hier d hdrs row))
                (map (fun c => Some (doc_name d ++ str " > " ++ c))
                   (targetColsOf cfg hdrs))
         else length (rowOutline cfg hier d hdrs row) <= 1
  else InOrder (map entryText es) (doc_content d).

(** A chunk without its identifier *)
Definition sansId (c : Chunk)
  : jsstring * Granularity * option jsstring * option jsstring
    * list jsstring :=
  (chunk_text c, chunk_type c, chunk_sourceId c, chunk_sourceName c,
   chunk_tags c).

(* ================================================================== *)
(** * Properties *)
(* ================================================================== *)

(** ** The string and pattern primitives on known results *)

(** Sanity checks of the engine against known JavaScript results. *)
Example split_ex1 :
  split_string (str ",") (str "a,b,,c") = [str "a"; str "b"; str ""; str "c"].
Proof. reflexivity. Qed.

Example split_ex2 : split_string [LF] [] = [[]].
Proof. reflexivity. Qed.

Example split_ex3 :
  split_regex false (Plus (Chr isSpace)) (str " a  b ")
  = [str ""; str "a"; str "b"; str ""].
Proof. vm_compute. reflexivity. Qed.

Example replace_ex1 :
  replace_global false (Star (Chr (isChr "x"%char))) (str "-") (str "ab")
  = str "-a-b-".
Proof. vm_compute. reflexivity. Qed.

Example replace_ex2 :
  replace_global false (Star (Chr (isChr "a"%char))) (str "-") (str "aa")
  = str "--".
Proof. vm_compute. reflexivity. Qed.

Example trim_ex : trim (str "  a b  ") = str "a b".
Proof. reflexivity. Qed.

Example parseCSV_ex :
  parseCSVStructure (nl "a,b|1,2|3,4")
  = {| headers := [str "a"; str "b"];
       rows := [[str "1"; str "2"]; [str "3"; str "4"]];
       totalRows := 2 |}.
Proof. vm_compute. reflexivity. Qed.

Example splitCSVLine_quoted :
  splitCSVLine (str "a," ++ [DQUOTE] ++ str "b,c" ++ [DQUOTE] ++ str ", d ")
  = [str "a"; str "b,c"; str "d"].
Proof. vm_compute. reflexivity. Qed.

Example isNaN_Number_ex :
  map (fun s => isNaN_Number (str s))
    ["12"; " 12 "; "1e5"; "0x1F"; "5."; "-Infinity";
     "abc"; "1_000"; "."; "1e"; "0x"; "12px"]%string
  = [false; false; false; false; false; false;
     true; true; true; true; true; true].
Proof. vm_compute. reflexivity. Qed.

Example csv_rows_combined :
  map labelled
    (fst (performSegmentation ROW_COMBINED surveyConfig false 1 [surveyDoc]
            demoIds))
  = [(Some (str "s.csv"),
      nl "[Meta: [Sentiment Context] id: 1]|comment: good stuff");
     (Some (str "s.csv"),
      nl "[Meta: [Sentiment Context] id: 2]|note: n2");
     (Some (str "s.csv"),
      nl "[Meta: [Sentiment Context] id: 3]|comment: bad|note: n3")].
Proof. vm_compute. reflexivity. Qed.

Example csv_columns_distinct :
  map labelled
    (fst (performSegmentation ROW_COMBINED surveyConfig true 1 [surveyDoc]
            demoIds))
  = [(Some (str "s.csv > comment"),
      nl "[Meta: [Sentiment Context] id: 1]|[Column: comment]|good stuff");
     (Some (str "s.csv > note"),
      nl "[Meta: [Sentiment Context] id: 2]|[Column: note]|n2");
     (Some (str "s.csv > comment"),
      nl "[Meta: [Sentiment Context] id: 3]|[Column: comment]|bad");
     (Some (str "s.csv > note"),
      nl "[Meta: [Sentiment Context] id: 3]|[Column: note]|n3")].
Proof. vm_compute. reflexivity. Qed.

Example guess_comments_and_ids :
  guessCSVConfig commentsTable = {| analyzeCols := [1]; contextCols := [0] |}.
Proof. vm_compute. reflexivity. Qed.

(** ** Blank strings and [trim] *)

Lemma dropWhile_nil_iff (p : ascii -> bool) (s : jsstring) :
  dropWhile p s = [] <-> forallb p s = true.
Proof.
  induction s as [|c s IH]; simpl.
  - tauto.
  - destruct (p c); simpl.
    + exact IH.
    + split; discriminate.
Qed.

Lemma dropWhile_all_nil (p : ascii -> bool) (s : jsstring) :
  forallb p (dropWhile p s) = true -> dropWhile p s = [].
Proof.
  induction s as [|c s IH]; simpl; auto.
  destruct (p c) eqn:E; auto.
  simpl. rewrite E. discriminate.
Qed.

Lemma forallb_rev (p : ascii -> bool) (s : jsstring) :
  forallb p (rev s) = forallb p s.
Proof.
  induction s as [|c s IH]; simpl; auto.
  rewrite forallb_app, IH. simpl. rewrite andb_true_r. apply andb_comm.
Qed.

Lemma trim_nil_iff (s : jsstring) : trim s = [] <-> allSpace s = true.
Proof.
  unfold trim, trimEnd, trimStart, allSpace.
  split; intro H.
  - apply (f_equal (@rev ascii)) in H. rewrite rev_involutive in H.
    simpl in H. apply dropWhile_nil_iff in H. rewrite forallb_rev in H.
    apply dropWhile_all_nil in H. now apply dropWhile_nil_iff.
  - apply dropWhile_nil_iff in H. rewrite H. reflexivity.
Qed.

Lemma nonBlank_allSpace (s : jsstring) : nonBlank s = negb (allSpace s).
Proof.
  unfold nonBlank. destruct (allSpace s) eqn:E.
  - apply trim_nil_iff in E. now rewrite E.
  - destruct (trim s) eqn:T; auto.
    apply trim_nil_iff in T. congruence.
Qed.

Lemma allSpace_trim (s : jsstring) : allSpace (trim s) = allSpace s.
Proof.
  destruct (allSpace s) eqn:E.
  - apply trim_nil_iff in E. now rewrite E.
  - destruct (allSpace (trim s)) eqn:T; auto.
    assert (trim s = []) as N.
    { unfold trim, trimEnd in *. unfold allSpace in T.
      rewrite forallb_rev in T. apply dropWhile_all_nil in T.
      now rewrite T. }
    apply trim_nil_iff in N. congruence.
Qed.

Lemma nonBlank_trim (s : jsstring) : nonBlank (trim s) = nonBlank s.
Proof. now rewrite !nonBlank_allSpace, allSpace_trim. Qed.

Lemma nonBlank_app_r (a b : jsstring) :
  nonBlank b = true -> nonBlank (a ++ b) = true.
Proof.
  rewrite !nonBlank_allSpace. unfold allSpace. rewrite forallb_app.
  destruct (forallb isSpace b); simpl; try discriminate.
  now rewrite andb_false_r.
Qed.

Lemma nonBlank_app_l (a b : jsstring) :
  nonBlank a = true -> nonBlank (a ++ b) = true.
Proof.
  rewrite !nonBlank_allSpace. unfold allSpace. rewrite forallb_app.
  destruct (forallb isSpace a); simpl; try discriminate. auto.
Qed.

Lemma truthy_trim_nonBlank (s : jsstring) :
  truthy (trim s) = true -> nonBlank (trim s) = true.
Proof. rewrite nonBlank_trim. auto. Qed.

(** ** Splitting at line feeds *)

Lemma literal_LF_cons prev c s :
  literal [LF] prev (c :: s) = if chr_eqb LF c then Some 1 else None.
Proof.
  unfold literal. cbn [startsWith]. rewrite andb_true_r.
  now destruct (chr_eqb LF c).
Qed.

Lemma split_string_LF_loop (s : jsstring) :
  split_string [LF] s = splitLoop (literal [LF]) false None s [] 0.
Proof. destruct s; reflexivity. Qed.

(** ** The identifier monad *)

Lemma forEach_inv {A S : Type} (I : S -> Prop) (body : S -> A -> Gen S)
  (l : list A) :
  (forall s x g, In x l -> I s -> I (fst (body s x g))) ->
  forall s g, I s -> I (fst (forEach body l s g)).
Proof.
  induction l as [|x l IH]; intros Hb s g Hs; simpl.
  - exact Hs.
  - unfold bind. destruct (body s x g) as [s' g'] eqn:E.
    apply IH.
    + intros; apply Hb; simpl; auto.
    + specialize (Hb s x g (or_introl eq_refl) Hs). now rewrite E in Hb.
Qed.

Lemma mapGen_Forall {A B : Type} (P : B -> Prop) (f : A -> Gen B)
  (l : list A) :
  (forall x g, In x l -> P (fst (f x g))) ->
  forall g, Forall P (fst (mapGen f l g)).
Proof.
  induction l as [|x l IH]; intros Hf g; simpl.
  - constructor.
  - unfold bind. destruct (f x g) as [y g1] eqn:E.
    destruct (mapGen f l g1) as [ys g2] eqn:E2. simpl.
    constructor.
    + specialize (Hf x g (or_introl eq_refl)). now rewrite E in Hf.
    + specialize (IH (fun x g H => Hf x g (or_intror H)) g1).
      now rewrite E2 in IH.
Qed.

Lemma bind_eq {A B : Type} (m : Gen A) (f : A -> Gen B) (g : IdSupply) :
  bind m f g = f (fst (m g)) (snd (m g)).
Proof. unfold bind. now destruct (m g). Qed.

Lemma ret_eq {A : Type} (a : A) (g : IdSupply) : ret a g = (a, g).
Proof. reflexivity. Qed.

Lemma newChunk_text txt ty sid sname g :
  chunk_text (fst (newChunk txt ty sid sname g)) = txt.
Proof. reflexivity. Qed.

(** ** C1: chunk texts are not blank *)

Lemma Forall_snoc {A : Type} (P : A -> Prop) (l : list A) (x : A) :
  Forall P l -> P x -> Forall P (l ++ [x]).
Proof. intros; apply Forall_app; auto. Qed.

Lemma cellValue_nonBlank hdrs row c :
  truthy (cellValue hdrs row c) = true ->
  nonBlank (cellValue hdrs row c) = true.
Proof.
  unfold cellValue.
  destruct (arrIndexOf c hdrs); try discriminate.
  destruct (nth_error row n); try discriminate.
  destruct (truthy j); try discriminate.
  apply truthy_trim_nonBlank.
Qed.

Lemma push_ok (s : list Chunk) txt ty sid sname g :
  Forall okText s -> nonBlank txt = true ->
  Forall okText (fst ((c <- newChunk txt ty sid sname ;; ret (s ++ [c])) g)).
Proof. intros Hs Ht. apply Forall_snoc; auto. Qed.

Lemma ret_ok (s : list Chunk) g : Forall okText s -> Forall okText (fst (ret s g)).
Proof. auto. Qed.

Lemma csvRow_ok strat cfg hier doc hdrs docChunks row g :
  Forall okText docChunks ->
  Forall okText (fst (csvRow strat cfg hier doc hdrs docChunks row g)).
Proof.
  intro H. unfold csvRow.
  destruct (negb hier).
  - destruct (nonBlank (mainStrOf _ _ _)) eqn:E.
    + apply push_ok; auto. now apply nonBlank_app_r.
    + now apply ret_ok.
  - apply forEach_inv; auto.
    intros s colName g' _ Hs.
    destruct (arrIndexOf colName hdrs); [|now apply ret_ok].
    destruct (truthy (cellValue hdrs row colName)) eqn:E;
      [|now apply ret_ok].
    apply push_ok; auto.
    apply nonBlank_app_r, nonBlank_app_r, nonBlank_app_r, nonBlank_app_r.
    now apply cellValue_nonBlank.
Qed.

Lemma splitRawText_ok strat txt :
  strat <> SENTENCE ->
  nonBlank txt = true \/ filtering strat ->
  Forall (fun t => nonBlank t = true) (splitRawText txt strat).
Proof.
  intros NS H.
  assert (forall l, Forall (fun t => nonBlank t = true) (filter nonBlank l))
    as F.
  { intro l. apply Forall_forall. intros x Hx.
    now apply filter_In in Hx. }
  destruct strat; simpl; try apply F; try congruence;
    (destruct H as [H|H];
     [ repeat constructor; exact H
     | unfold filtering in H; simpl in H;
       repeat (destruct H as [H|H]; try discriminate); contradiction ]).
Qed.

Lemma hierSection_ok strat lvl doc st section g :
  strat <> SENTENCE ->
  Forall okText (snd st) ->
  Forall okText (snd (fst (hierSection strat lvl doc st section g))).
Proof.
  intros NS H. unfold hierSection. destruct st as [cur docChunks].
  simpl in H.
  destruct (nonBlank section) eqn:NB; simpl; auto.
  destruct (test false _ section); simpl; auto.
  assert (Forall okText
            (snd (fst (forEach
              (fun (st : jsstring * list Chunk) segment =>
                 c <- newChunk segment strat (doc_id doc)
                        (doc_name doc ++ str " > " ++ cur) ;;
                 ret (fst st, snd st ++ [c]))
              (splitRawText section strat) (cur, docChunks) g)))) as G.
  { apply (forEach_inv (fun st => Forall okText (snd st))); auto.
    intros s x g' Hx Hs. simpl. apply Forall_snoc; auto.
    red; simpl.
    pose proof (splitRawText_ok strat section NS (or_introl NB)) as F.
    rewrite Forall_forall in F. now apply F. }
  destruct strat; try exact G.
  simpl. apply Forall_snoc; auto. red; simpl. now rewrite nonBlank_trim.
Qed.

Lemma segmentDoc_ok strat cfg hier lvl doc g :
  (strat = SENTENCE -> doc_type doc = csv) ->
  (nonBlank (doc_content doc) = false ->
   strat <> FILE /\
   (doc_type doc = csv \/ hier = true \/ filtering strat)) ->
  Forall okText (fst (segmentDoc strat cfg hier lvl doc g)).
Proof.
  intros HS H.
  assert (Forall okText
            (fst (forEach (csvRow strat cfg hier doc
                             (headers (parseCSVStructure (doc_content doc))))
                    (rows (parseCSVStructure (doc_content doc))) [] g)))
    as Hcsv.
  { apply forEach_inv; auto. intros. now apply csvRow_ok. }
  assert (strat <> SENTENCE ->
          Forall okText
            (snd (fst (forEach (hierSection strat lvl doc)
                         (split_regex_capture true (sectionRegex strat lvl)
                            (doc_content doc))
                         (str "Intro / Untitled", []) g)))) as Hhier.
  { intro NS.
    apply (forEach_inv (fun st => Forall okText (snd st))); simpl; auto.
    intros. now apply hierSection_ok. }
  assert (strat <> SENTENCE -> doc_type doc <> csv -> hier = false ->
          Forall okText
            (fst (mapGen (fun t => newChunk (trim t) strat (doc_id doc)
                                     (doc_name doc))
                    (splitRawText (doc_content doc) strat) g))) as Hflat.
  { intros NS NC NH. apply mapGen_Forall. intros x g' Hx. red; simpl.
    rewrite nonBlank_trim.
    assert (nonBlank (doc_content doc) = true \/ filtering strat) as D.
    { destruct (nonBlank (doc_content doc)) eqn:NB; auto.
      destruct (H eq_refl) as [_ [C|[C|C]]]; auto; congruence. }
    pose proof (splitRawText_ok strat (doc_content doc) NS D) as F.
    rewrite Forall_forall in F. now apply F. }
  assert (strat = FILE ->
          Forall okText
            (fst ((c <- newChunk (doc_content doc) strat (doc_id doc)
                         (doc_name doc) ;; ret [c]) g))) as Hfile.
  { intro SF. simpl. repeat constructor. red; simpl.
    destruct (nonBlank (doc_content doc)) eqn:NB; auto.
    destruct (H eq_refl) as [C _]. congruence. }
  assert (DocType_eqb (doc_type doc) csv = false -> strat <> SENTENCE) as NS.
  { intros T E. apply HS in E. rewrite E in T. discriminate. }
  unfold segmentDoc.
  destruct strat; try (apply Hfile; reflexivity);
    (destruct (DocType_eqb (doc_type doc) csv) eqn:T; [exact Hcsv|];
     destruct hier;
     [ unfold bind in *;
       destruct (forEach (hierSection _ lvl doc) _ _ g);
       apply Hhier; apply NS; reflexivity
     | apply Hflat; auto; intro C; rewrite C in T; discriminate ]).
Qed.

Lemma nonBlank_true_iff (s : jsstring) : nonBlank s = true <-> trim s <> [].
Proof.
  unfold nonBlank. destruct (trim s); simpl; split; congruence.
Qed.

(** C1 (as amended).  Every chunk returned by [performSegmentation] has a
    text that is non-empty after trimming, as long as no text document is
    segmented under SENTENCE granularity and no document with blank
    content is segmented as a whole file or as flat text under a strategy
    that does not filter its pieces. *)
Theorem C1_chunk_text_not_blank :
  forall strat cfg hier lvl docs g,
    (forall d, In d docs ->
       (strat = SENTENCE -> doc_type d = csv)
       /\ (nonBlank (doc_content d) = false ->
           strat <> FILE /\
           (doc_type d = csv \/ hier = true \/
            In strat [PARAGRAPH; LINE; SECTION; TURN]))) ->
    Forall (fun c => trim (chunk_text c) <> [])
      (fst (performSegmentation strat cfg hier lvl docs g)).
Proof.
  intros strat cfg hier lvl docs g H.
  assert (Forall okText (fst (performSegmentation strat cfg hier lvl docs g)))
    as F.
  { unfold performSegmentation. apply forEach_inv; auto.
    intros s d g' Hd Hs. rewrite bind_eq, ret_eq. cbn [fst].
    destruct (H d Hd) as [H1 H2].
    apply Forall_app; split; auto.
    now apply segmentDoc_ok. }
  eapply Forall_impl; [|exact F].
  intros c Hc. now apply nonBlank_true_iff.
Qed.

Lemma C1_chunk_text_not_blank_witness :
  Forall (fun c => trim (chunk_text c) <> [])
    (fst (performSegmentation LINE None false 1
            [textDoc (nl "one| |two"); textDoc []] demoIds)).
Proof.
  apply C1_chunk_text_not_blank.
  intros d _. split; [discriminate|].
  intros _. split; [discriminate|].
  right; right; simpl; auto.
Defined.

(** C1 as stated fails: an empty document segmented as a whole file
    yields one chunk whose text is empty. *)
Lemma C1_counterexample :
  exists c,
    In c (fst (performSegmentation FILE None false 1 [textDoc []] demoIds))
    /\ trim (chunk_text c) = [].
Proof. eexists; split; [left; reflexivity|reflexivity]. Qed.

(** The SENTENCE rule keeps the white space after the last full stop as
    a piece of its own; the flat path trims it to the empty string. *)
Example sentence_blank_piece :
  map chunk_text
    (fst (performSegmentation SENTENCE None false 1
            [textDoc (str "Hi. ")] demoIds))
  = [str "Hi."; []].
Proof. vm_compute. reflexivity. Qed.

(** ** C3: the worked hierarchical example *)

(** C3 (as amended).  Splitting the example document at level 2 with inner
    granularity PARAGRAPH yields three chunks: the title line under the
    implicit Intro section, then the bodies of A and B; after trimming,
    their texts are the title line, foo and bar. *)
Theorem C3_hierarchical_example :
  forall id name ty cfg g,
    ty <> csv ->
    map (fun c => (chunk_sourceName c, trim (chunk_text c)))
      (fst (performSegmentation PARAGRAPH cfg true 2
              [{| doc_id := id; doc_name := name; doc_content := c3content;
                  doc_type := ty; doc_csvHeaders := None |}] g))
    = [(Some (name ++ str " > Intro / Untitled"), str "# Title");
       (Some (name ++ str " > A"), str "foo");
       (Some (name ++ str " > B"), str "bar")].
Proof.
  intros id name ty cfg g H.
  destruct ty; try congruence; vm_compute; reflexivity.
Qed.

Lemma C3_hierarchical_example_witness :
  markdown <> csv /\
  map (fun c => (chunk_sourceName c, trim (chunk_text c)))
    (fst (performSegmentation PARAGRAPH None true 2 [c3doc] demoIds))
  = [(Some (str "doc > Intro / Untitled"), str "# Title");
     (Some (str "doc > A"), str "foo");
     (Some (str "doc > B"), str "bar")].
Proof.
  split; [discriminate|].
  apply (C3_hierarchical_example (str "d1") (str "doc") markdown None demoIds).
  discriminate.
Defined.

(** C3 as stated fails: the result is not the two chunks A/foo and
    B/bar. *)
Lemma C3_counterexample :
  map labelled
    (fst (performSegmentation PARAGRAPH None true 2 [c3doc] demoIds))
  <> [(Some (str "doc > A"), str "foo"); (Some (str "doc > B"), str "bar")].
Proof. vm_compute. discriminate. Qed.

Example c3_exact_texts :
  map labelled
    (fst (performSegmentation PARAGRAPH None true 2 [c3doc] demoIds))
  = [(Some (str "doc > Intro / Untitled"), nl "# Title|");
     (Some (str "doc > A"), nl "|foo|");
     (Some (str "doc > B"), nl "|bar")].
Proof. vm_compute. reflexivity. Qed.

(** ** C2: order of the chunk sequence *)

Lemma forEach_entries {A : Type} (body : list Chunk -> A -> Gen (list Chunk))
  (out : A -> list Entry) (l : list A) :
  (forall s x g,
     map entryOf (fst (body s x g)) = map entryOf s ++ out x) ->
  forall s g,
    map entryOf (fst (forEach body l s g)) = map entryOf s ++ flat_map out l.
Proof.
  intro Hb. induction l as [|x l IH]; intros s g; simpl.
  - now rewrite app_nil_r.
  - unfold bind. pose proof (Hb s x g) as E.
    destruct (body s x g) as [s' g']. simpl in E.
    rewrite IH, E. now rewrite app_assoc.
Qed.

Lemma push_entries (s : list Chunk) txt ty sid sname g :
  map entryOf (fst ((c <- newChunk txt ty sid sname ;; ret (s ++ [c])) g))
  = map entryOf s ++ [entry sid sname txt].
Proof. simpl. now rewrite map_app. Qed.

Lemma ret_entries (s : list Chunk) g :
  map entryOf (fst (ret s g)) = map entryOf s ++ [].
Proof. simpl. now rewrite app_nil_r. Qed.

Lemma csvRow_entries strat cfg hier doc hdrs s row g :
  map entryOf (fst (csvRow strat cfg hier doc hdrs s row g))
  = map entryOf s ++ rowOutline cfg hier doc hdrs row.
Proof.
  unfold csvRow, rowOutline.
  destruct (negb hier).
  - destruct (nonBlank (mainStrOf _ _ _)).
    + apply push_entries.
    + apply ret_entries.
  - apply forEach_entries. intros s' colName g'.
    destruct (arrIndexOf colName hdrs); [|apply ret_entries].
    destruct (truthy (cellValue hdrs row colName)); [|apply ret_entries].
    apply push_entries.
Qed.

Lemma pieces_entries (doc : SourceDocument) strat label pieces :
  forall cur s g,
    map entryOf
      (snd (fst (forEach
                   (fun (st : jsstring * list Chunk) segment =>
                      c <- newChunk segment strat (doc_id doc) label ;;
                      ret (fst st, snd st ++ [c]))
                   pieces (cur, s) g)))
    = map entryOf s ++ map (entry (doc_id doc) label) pieces
    /\ fst (fst (forEach
                   (fun (st : jsstring * list Chunk) segment =>
                      c <- newChunk segment strat (doc_id doc) label ;;
                      ret (fst st, snd st ++ [c]))
                   pieces (cur, s) g)) = cur.
Proof.
  induction pieces as [|p pieces IH]; intros cur s g.
  - simpl. now rewrite app_nil_r.
  - cbn [forEach]. rewrite !bind_eq, ret_eq. cbn [fst snd].
    match goal with
    | |- context [forEach _ pieces (cur, ?s') ?g'] =>
        destruct (IH cur s' g') as [E1 E2]
    end.
    split; [|exact E2].
    rewrite E1, map_app. simpl. now rewrite <- app_assoc.
Qed.

Lemma hierSection_entries strat lvl doc sections :
  forall cur s g,
    map entryOf
      (snd (fst (forEach (hierSection strat lvl doc) sections (cur, s) g)))
    = map entryOf s ++ sectionsOutline strat lvl doc cur sections.
Proof.
  induction sections as [|sec sections IH]; intros cur s g.
  - simpl. now rewrite app_nil_r.
  - cbn [forEach sectionsOutline]. unfold bind at 1.
    destruct (hierSection strat lvl doc (cur, s) sec g) as [[cur' s'] g']
      eqn:E.
    rewrite IH. unfold hierSection in E.
    destruct (negb (nonBlank sec)) eqn:NB.
    + inversion E; subst. reflexivity.
    + destruct (test false (headerRegex strat lvl) sec).
      * inversion E; subst. reflexivity.
      * assert (map entryOf s' =
                map entryOf s
                ++ map (entry (doc_id doc) (doc_name doc ++ str " > " ++ cur))
                     (sectionPieces strat sec) /\ cur' = cur) as [E1 E2].
        { unfold sectionPieces.
          destruct strat;
            try (match type of E with
                 | forEach _ (splitRawText sec ?st) _ _ = _ =>
                     destruct (pieces_entries doc st
                                 (doc_name doc ++ str " > " ++ cur)
                                 (splitRawText sec st) cur s g) as [P1 P2]
                 end;
                 rewrite E in P1, P2; simpl in P1, P2; split; auto; fail).
          apply negb_false_iff in NB. rewrite NB in E.
          inversion E; subst. split; auto.
          rewrite map_app. reflexivity. }
        subst cur'. rewrite E1. now rewrite <- app_assoc.
Qed.

Lemma mapGen_entries (doc : SourceDocument) strat (l : list jsstring) :
  forall g,
    map entryOf
      (fst (mapGen (fun t => newChunk (trim t) strat (doc_id doc)
                               (doc_name doc)) l g))
    = map (fun t => entry (doc_id doc) (doc_name doc) (trim t)) l.
Proof.
  induction l as [|t l IH]; intro g; [reflexivity|].
  cbn [mapGen]. rewrite !bind_eq, ret_eq. cbn [fst snd map].
  now rewrite IH.
Qed.

Lemma segmentDoc_entries strat cfg hier lvl doc g :
  map entryOf (fst (segmentDoc strat cfg hier lvl doc g))
  = docOutline strat cfg hier lvl doc.
Proof.
  assert (map entryOf
            (fst (forEach (csvRow strat cfg hier doc
                             (headers (parseCSVStructure (doc_content doc))))
                    (rows (parseCSVStructure (doc_content doc))) [] g))
          = flat_map (rowOutline cfg hier doc
                        (headers (parseCSVStructure (doc_content doc))))
              (rows (parseCSVStructure (doc_content doc)))) as Hcsv.
  { rewrite (forEach_entries
               (csvRow strat cfg hier doc
                  (headers (parseCSVStructure (doc_content doc))))
               (rowOutline cfg hier doc
                  (headers (parseCSVStructure (doc_content doc))))); auto.
    intros; apply csvRow_entries. }
  pose proof (hierSection_entries strat lvl doc
                (split_regex_capture true (sectionRegex strat lvl)
                   (doc_content doc))
                (str "Intro / Untitled") [] g) as Hhier.
  pose proof (mapGen_entries doc strat
                (splitRawText (doc_content doc) strat) g) as Hflat.
  unfold segmentDoc, docOutline.
  destruct strat; try reflexivity;
    (destruct (DocType_eqb (doc_type doc) csv); [exact Hcsv|];
     destruct hier; [rewrite bind_eq, ret_eq; exact Hhier | exact Hflat]).
Qed.

Lemma performSegmentation_single strat cfg hier lvl d g :
  fst (performSegmentation strat cfg hier lvl [d] g)
  = fst (segmentDoc strat cfg hier lvl d g).
Proof.
  unfold performSegmentation. cbn [forEach].
  rewrite !bind_eq, !ret_eq. reflexivity.
Qed.

(** Order within the content *)

Lemma InOrder_prefix pre ps s : InOrder ps s -> InOrder ps (pre ++ s).
Proof.
  intro H. destruct H as [s|p ps pre' rest H]; [constructor|].
  rewrite app_assoc. now constructor.
Qed.

Lemma InOrder_suffix ps s post : InOrder ps s -> InOrder ps (s ++ post).
Proof.
  intro H. induction H as [s|p ps pre rest H IH]; [constructor|].
  rewrite <- !app_assoc. now constructor.
Qed.

Lemma InOrder_head p ps (rest : jsstring) :
  InOrder ps rest -> InOrder (p :: ps) (p ++ rest).
Proof. intro H. exact (InOrder_cons p ps [] rest H). Qed.

Lemma InOrder_tail p ps s : InOrder (p :: ps) s -> InOrder ps s.
Proof.
  intro H. inversion H; subst.
  rewrite app_assoc. now apply InOrder_prefix.
Qed.

Lemma InOrder_app l1 l2 (a b : jsstring) :
  InOrder l1 a -> InOrder l2 b -> InOrder (l1 ++ l2) (a ++ b).
Proof.
  intros H1 H2. induction H1 as [s|p ps pre rest H IH].
  - now apply InOrder_prefix.
  - cbn [app]. rewrite <- !app_assoc. now constructor.
Qed.

Lemma InOrder_filter (f : jsstring -> bool) ps s :
  InOrder ps s -> InOrder (filter f ps) s.
Proof.
  intro H. induction H as [s|p ps pre rest H IH]; [constructor|].
  cbn [filter]. destruct (f p).
  - now constructor.
  - rewrite app_assoc. now apply InOrder_prefix.
Qed.

Lemma InOrder_nested (g : jsstring -> list jsstring) ps s :
  (forall p, InOrder (g p) p) ->
  InOrder ps s -> InOrder (flat_map g ps) s.
Proof.
  intros Hg H. induction H as [s|p ps pre rest H IH]; [constructor|].
  cbn [flat_map]. apply InOrder_prefix, InOrder_app; auto.
Qed.

Lemma InOrder_single p : InOrder [p] p.
Proof.
  pose proof (InOrder_cons p [] [] [] (InOrder_nil [])) as H.
  cbn [app] in H. now rewrite app_nil_r in H.
Qed.

Lemma dropWhile_within p (s : jsstring) : exists a, s = a ++ dropWhile p s.
Proof.
  induction s as [|c s [a IH]]; [now exists []|].
  cbn [dropWhile]. destruct (p c); [|now exists []].
  exists (c :: a). cbn [app]. now f_equal.
Qed.

Lemma trim_within (p : jsstring) : exists a b, p = a ++ trim p ++ b.
Proof.
  unfold trim, trimStart, trimEnd.
  destruct (dropWhile_within isSpace p) as [a Ea].
  destruct (dropWhile_within isSpace (rev (dropWhile isSpace p))) as [b Eb].
  exists a, (rev b).
  rewrite <- rev_app_distr, <- Eb, rev_involutive. exact Ea.
Qed.

Lemma InOrder_trim ps s : InOrder ps s -> InOrder (map trim ps) s.
Proof.
  intro H. induction H as [s|p ps pre rest H IH]; [constructor|].
  cbn [map]. destruct (trim_within p) as [a [b E]].
  rewrite E at 2. rewrite <- !app_assoc, app_assoc.
  constructor. now apply InOrder_prefix.
Qed.

(** The pieces of a split lie in the text in order. *)
Lemma splitLoop_InOrder M cap (rest : jsstring) :
  forall prev acc skip,
    exists first others r,
      splitLoop M cap prev rest acc skip = (rev acc ++ first) :: others
      /\ skipn skip rest = first ++ r
      /\ InOrder others r.
Proof.
  induction rest as [|c rest IH]; intros prev acc skip; cbn [splitLoop].
  - exists [], [], []. rewrite app_nil_r. repeat split.
    + now destruct skip.
    + constructor.
  - destruct skip as [|n]; [|apply IH].
    cbn [skipn].
    assert (forall acc0,
              exists first others r,
                splitLoop M cap (Some c) rest (c :: acc0) 0
                = (rev acc0 ++ first) :: others
                /\ c :: rest = first ++ r /\ InOrder others r) as Step.
    { intro acc0. destruct (IH (Some c) (c :: acc0) 0) as [f [o [r [E [Sk I]]]]].
      exists (c :: f), o, r. cbn [rev skipn] in *.
      rewrite <- app_assoc in E. repeat split; auto.
      cbn [app]. now f_equal. }
    destruct (M prev (c :: rest)) as [[|n]|].
    + destruct acc as [|a acc].
      * exact (Step []).
      * destruct (Step []) as [f [o [r [E [Sk I]]]]]. cbn [rev app] in E.
        exists [], ((if cap then [[]] else []) ++ splitLoop M cap (Some c) rest [c] 0),
          (c :: rest).
        rewrite app_nil_r. repeat split.
        rewrite E, Sk.
        destruct cap; cbn [app].
        -- apply (InOrder_head []). now apply InOrder_head.
        -- now apply InOrder_head.
    + destruct (IH (Some c) [] n) as [f [o [r [E [Sk I]]]]].
      cbn [rev app] in E.
      exists [], ((if cap then [firstn (S n) (c :: rest)] else [])
                  ++ splitLoop M cap (Some c) rest [] n), (c :: rest).
      rewrite app_nil_r. repeat split.
      rewrite E.
      assert (InOrder (f :: o) (skipn n rest)) as I2
        by (rewrite Sk; now apply InOrder_head).
      destruct cap; cbn [app].
      * rewrite <- (firstn_skipn (S n) (c :: rest)) at 2.
        apply InOrder_head. exact I2.
      * rewrite <- (firstn_skipn (S n) (c :: rest)).
        apply InOrder_prefix. exact I2.
    + exact (Step acc).
Qed.

Lemma splitWith_InOrder M cap (s : jsstring) : InOrder (splitWith M cap s) s.
Proof.
  unfold splitWith. destruct s as [|c s].
  - destruct (M None []); [constructor|apply InOrder_single].
  - destruct (splitLoop_InOrder M cap (c :: s) None [] 0)
      as [f [o [r [E [Sk I]]]]].
    rewrite E. cbn [rev app skipn] in *. rewrite Sk. now apply InOrder_head.
Qed.

(** The matches of a global scan lie in the text in order. *)
Lemma scanLoop_InOrder M (rest : jsstring) :
  forall prev skip,
    InOrder (matchesOf (scanLoop M prev rest skip)) (skipn skip rest).
Proof.
  induction rest as [|c rest IH]; intros prev skip; cbn [scanLoop].
  - destruct skip; [|constructor].
    destruct (M prev []); cbn [matchesOf skipn]; [apply InOrder_single|constructor].
  - destruct skip as [|n]; [|apply IH].
    cbn [skipn]. destruct (M prev (c :: rest)) as [[|n]|]; cbn [matchesOf].
    + apply (InOrder_head []). apply (InOrder_prefix [c]). apply (IH _ 0).
    + rewrite <- (firstn_skipn (S n) (c :: rest)) at 2.
      apply InOrder_head. apply IH.
    + apply (InOrder_prefix [c]). apply (IH _ 0).
Qed.

Lemma splitRawText_InOrder (txt : jsstring) strat :
  InOrder (splitRawText txt strat) txt.
Proof.
  destruct strat; cbn [splitRawText]; try apply InOrder_single;
    try (apply InOrder_filter, splitWith_InOrder).
  unfold match_global, scan.
  pose proof (scanLoop_InOrder (matchAt false re_sentence) txt None 0) as H.
  cbn [skipn] in H.
  destruct (matchesOf (scanLoop (matchAt false re_sentence) None txt 0));
    cbn [orElse]; [apply InOrder_single|exact H].
Qed.

Lemma sectionPieces_InOrder strat (section : jsstring) :
  InOrder (sectionPieces strat section) section.
Proof.
  unfold sectionPieces.
  destruct strat; try apply splitRawText_InOrder.
  apply (InOrder_trim [section]), InOrder_single.
Qed.

Lemma sectionsOutline_InOrder strat lvl doc sections s :
  InOrder sections s ->
  forall cur,
    InOrder (map entryText (sectionsOutline strat lvl doc cur sections)) s.
Proof.
  intro H. induction H as [s|p ps pre rest H IH]; intro cur;
    cbn [sectionsOutline]; [constructor|].
  destruct (negb (nonBlank p)).
  { rewrite app_assoc. apply InOrder_prefix, IH. }
  destruct (test false (headerRegex strat lvl) p).
  { rewrite app_assoc. apply InOrder_prefix, IH. }
  rewrite map_app, map_map. cbn [entryText entry snd]. rewrite map_id.
  apply InOrder_prefix, InOrder_app; [apply sectionPieces_InOrder|apply IH].
Qed.

Lemma flat_map_map {A B C : Type} (f : B -> list C) (g : A -> B) (l : list A) :
  flat_map f (map g l) = flat_map (fun x => f (g x)) l.
Proof. induction l as [|x l IH]; cbn [map flat_map]; congruence. Qed.

Lemma rowOutline_columns cfg d hdrs row :
  Subseq (map entryName (rowOutline cfg true d hdrs row))
    (map (fun c => Some (doc_name d ++ str " > " ++ c))
       (targetColsOf cfg hdrs)).
Proof.
  unfold rowOutline, targetColsOf. cbn [negb].
  induction (match cfg with Some c => targetColumns c | None => hdrs end)
    as [|c cols IH]; cbn [flat_map map]; [constructor|].
  destruct (arrIndexOf c hdrs); [|now constructor].
  destruct (truthy (cellValue hdrs row c)); [|now constructor].
  cbn [app map]. now constructor.
Qed.

Lemma docOutline_followsContent strat cfg hier lvl d :
  followsContent strat cfg hier d (docOutline strat cfg hier lvl d).
Proof.
  unfold followsContent.
  destruct (DocType_eqb (doc_type d) csv && negb (Granularity_eqb strat FILE))
    eqn:C.
  - apply andb_true_iff in C. destruct C as [C1 C2].
    cbv zeta. split; [apply InOrder_filter, splitWith_InOrder|]. split.
    + assert (docOutline strat cfg hier lvl d
              = flat_map (rowOutline cfg hier d
                            (headers (parseCSVStructure (doc_content d))))
                  (rows (parseCSVStructure (doc_content d)))) as E.
      { unfold docOutline. rewrite C1.
        destruct strat; try reflexivity. discriminate. }
      rewrite E. unfold parseCSVStructure. cbv zeta.
      destruct (length (csvLines (doc_content d)) <? 2) eqn:L.
      * apply Nat.ltb_lt in L. cbn [emptyCSV rows flat_map].
        destruct (csvLines (doc_content d)) as [|l0 [|l1 ls]];
          try reflexivity. simpl in L. lia.
      * cbn [headers rows]. apply flat_map_map.
    + intro row. destruct hier.
      * apply rowOutline_columns.
      * unfold rowOutline. cbn [negb].
        destruct (nonBlank _); simpl; lia.
  - unfold docOutline.
    assert (InOrder [doc_content d] (doc_content d)) as F
      by apply InOrder_single.
    destruct strat; try exact F;
      try (cbn [Granularity_eqb negb] in C; rewrite andb_true_r in C;
           rewrite C;
           destruct hier;
           [apply sectionsOutline_InOrder, splitWith_InOrder
           |rewrite map_map; cbn [entryText entry snd];
            apply InOrder_trim, splitRawText_InOrder]).
Qed.

(** C2.  The chunk sequence of [performSegmentation] is the concatenation,
    in document order, of the chunks of each document, and every chunk
    carries the identifier of the document it comes from.  Within a
    document the order is that of the content: the chunk texts of a text
    document lie in its content one after the other, section after
    section and piece after piece; the chunks of a table follow its
    lines as they lie in the content, and within a line the target
    columns in their configured order. *)
Theorem C2_chunk_order :
  forall strat cfg hier lvl docs g,
    map entryOf (fst (performSegmentation strat cfg hier lvl docs g))
    = flat_map (docOutline strat cfg hier lvl) docs
    /\ Forall (fun d =>
                 Forall (fun e => fst (fst e) = Some (doc_id d))
                   (docOutline strat cfg hier lvl d)) docs
    /\ Forall (fun d =>
                 followsContent strat cfg hier d
                   (docOutline strat cfg hier lvl d)) docs.
Proof.
  intros strat cfg hier lvl docs g. split; [|split].
  3: { apply Forall_forall. intros d _. apply docOutline_followsContent. }
  - unfold performSegmentation.
    rewrite (forEach_entries _ (docOutline strat cfg hier lvl)); auto.
    intros s d g'. unfold bind.
    pose proof (segmentDoc_entries strat cfg hier lvl d g') as E.
    destruct (segmentDoc strat cfg hier lvl d g') as [cs g'']. simpl in *.
    now rewrite map_app, E.
  - apply Forall_forall. intros d _.
    rewrite <- (segmentDoc_entries strat cfg hier lvl d g).
    apply Forall_map.
    (* every chunk of a document is built by [newChunk] with its id *)
    unfold segmentDoc.
    set (P := fun c : Chunk => fst (fst (entryOf c)) = Some (doc_id d)).
    assert (forall (s : list Chunk) txt ty nm g0,
              Forall P s ->
              Forall P (fst ((c <- newChunk txt ty (doc_id d) nm ;;
                              ret (s ++ [c])) g0))) as Push.
    { intros. apply Forall_snoc; auto. reflexivity. }
    assert (Forall P
              (fst (forEach (csvRow strat cfg hier d
                       (headers (parseCSVStructure (doc_content d))))
                      (rows (parseCSVStructure (doc_content d))) [] g)))
      as Hcsv.
    { apply forEach_inv; auto. intros s row g0 _ Hs. unfold csvRow.
      destruct (negb hier).
      - destruct (nonBlank _); [apply Push; auto|exact Hs].
      - apply forEach_inv; auto. intros s1 col g1 _ Hs1.
        destruct (arrIndexOf col _); [|exact Hs1].
        destruct (truthy _); [apply Push; auto|exact Hs1]. }
    assert (Forall P
              (snd (fst (forEach (hierSection strat lvl d)
                           (split_regex_capture true (sectionRegex strat lvl)
                              (doc_content d))
                           (str "Intro / Untitled", []) g)))) as Hhier.
    { apply (forEach_inv (fun st => Forall P (snd st))); simpl; auto.
      intros [cur s] sec g0 _ Hs. simpl in Hs. unfold hierSection.
      destruct (negb (nonBlank sec)) eqn:NB; auto.
      destruct (test false _ sec); auto.
      assert (Forall P
                (snd (fst (forEach
                   (fun (st : jsstring * list Chunk) segment =>
                      c <- newChunk segment strat (doc_id d)
                             (doc_name d ++ str " > " ++ cur) ;;
                      ret (fst st, snd st ++ [c]))
                   (splitRawText sec strat) (cur, s) g0)))) as G.
      { apply (forEach_inv (fun st => Forall P (snd st))); auto.
        intros st x g1 _ Hst. simpl. apply Forall_snoc; auto. reflexivity. }
      destruct strat; try exact G.
      apply negb_false_iff in NB. rewrite NB.
      simpl. apply Forall_snoc; auto. reflexivity. }
    assert (Forall P
              (fst (mapGen (fun t => newChunk (trim t) strat (doc_id d)
                                       (doc_name d))
                      (splitRawText (doc_content d) strat) g))) as Hflat.
    { apply mapGen_Forall. intros; reflexivity. }
    destruct strat; try (repeat constructor; fail);
      (destruct (DocType_eqb (doc_type d) csv); [exact Hcsv|];
       destruct hier; [|exact Hflat];
       unfold bind in *;
       destruct (forEach (hierSection _ lvl d) _ _ g); exact Hhier).
Qed.

(** The lines of a table in the order of the content: the rows of the
    second line come before those of the third. *)
Example table_rows_in_line_order :
  map entryText
    (docOutline ROW_COMBINED None false 1
       {| doc_id := str "d1"; doc_name := str "t.csv";
          doc_content := nl "h|zeta|alpha"; doc_type := csv;
          doc_csvHeaders := None |})
  = [str "zeta"; str "alpha"].
Proof. vm_compute. reflexivity. Qed.

(** ** C4: the TURN fallback *)

Lemma includes_cons_false (p : jsstring) (c : ascii) (s : jsstring) :
  includes p (c :: s) = false ->
  startsWith p (c :: s) = false /\ includes p s = false.
Proof.
  cbn [includes]. intro H. apply orb_false_iff in H. exact H.
Qed.

Lemma no_colon_cons (c : ascii) (s : jsstring) :
  includes [COLON] (c :: s) = false ->
  isChr COLON c = false /\ includes [COLON] s = false.
Proof.
  intro H. apply includes_cons_false in H. destruct H as [H1 H2].
  cbn [startsWith] in H1. rewrite andb_true_r in H1. auto.
Qed.

(** Without a colon in the subject, the tail [[\w\s]*:] of the speaker
    pattern cannot match, whatever follows it. *)
Lemma speaker_tail_no_colon (s : jsstring) :
  forall prev k,
    includes [COLON] s = false ->
    run false (Seq (Star (Chr isWordOrSpace)) (Chr (isChr COLON))) prev s k
    = None.
Proof.
  intros prev k. cbn [run].
  generalize (length s) as fuel. intro fuel. revert prev s.
  induction fuel as [|fuel IH]; intros prev s H.
  - destruct s as [|c s]; auto.
    apply no_colon_cons in H. destruct H as [H _]. now rewrite H.
  - assert (match s with
            | [] => None
            | c :: s' => if isChr COLON c then k (Some c) s' else None
            end = None) as K.
    { destruct s as [|c s]; auto.
      apply no_colon_cons in H. destruct H as [H _]. now rewrite H. }
    destruct s as [|c s]; auto.
    destruct (isWordOrSpace c); [|exact K].
    replace (length s <? length (c :: s)) with true
      by (symmetry; apply Nat.ltb_lt; simpl; lia).
    apply no_colon_cons in H. destruct H as [_ H].
    rewrite (IH (Some c) s H). exact K.
Qed.

Lemma turn_no_colon_at (prev : option ascii) (s : jsstring) :
  includes [COLON] s = false -> matchAt false re_turn prev s = None.
Proof.
  intro H. unfold matchAt, re_turn.
  cbn [run Cat].
  destruct s as [|c s]; auto.
  destruct (isChr LF c); auto.
  apply no_colon_cons in H. destruct H as [_ H].
  destruct s as [|c' s]; auto.
  destruct (isSpeakerStart c'); auto.
  apply no_colon_cons in H. destruct H as [_ H].
  pose proof (speaker_tail_no_colon s (Some c') (fun _ s' => Some s') H) as E.
  cbn [run] in E. rewrite E. reflexivity.
Qed.

Lemma turn_test_no_colon (s : jsstring) :
  forall prev,
    includes [COLON] s = false ->
    testLoop (matchAt false re_turn) prev s = false.
Proof.
  induction s as [|c s IH]; intros prev H; cbn [testLoop];
    rewrite (turn_no_colon_at _ _ H); auto.
  apply no_colon_cons in H. destruct H as [_ H]. now apply IH.
Qed.

(** The sibling splitter has the fallback.  In [splitSingleText], TURN
    granularity falls back to paragraph splitting when the text contains
    no colon at all; such a text has no speaker line either, and the
    result is exactly that of PARAGRAPH granularity. *)
Theorem splitSingleText_turn_fallback :
  forall txt g,
    includes [COLON] txt = false ->
    test false re_turn txt = false /\
    splitSingleText txt TURN g = splitSingleText txt PARAGRAPH g.
Proof.
  intros txt g H.
  assert (test false re_turn txt = false) as T
    by (apply turn_test_no_colon; exact H).
  split; [exact T|].
  unfold splitSingleText. rewrite T, H. reflexivity.
Qed.

Lemma splitSingleText_turn_fallback_witness :
  includes [COLON] (nl "first part||second part") = false /\
  test false re_turn (nl "first part||second part") = false /\
  splitSingleText (nl "first part||second part") TURN demoIds
  = splitSingleText (nl "first part||second part") PARAGRAPH demoIds.
Proof.
  split; [reflexivity|].
  apply splitSingleText_turn_fallback. reflexivity.
Defined.

(** A text with a colon but without a speaker line: both splitters
    return it whole under TURN granularity although it holds two
    paragraphs. *)
Lemma turn_with_colon_kept_whole :
  let txt := nl "a b: c||d e" in
  test false re_turn txt = false
  /\ map chunk_text
       (fst (performSegmentation TURN None false 1 [textDoc txt] demoIds))
     = [txt]
  /\ map chunk_text (fst (splitSingleText txt TURN demoIds)) = [txt]
  /\ map chunk_text (fst (splitSingleText txt PARAGRAPH demoIds))
     = [str "a b: c"; str "d e"].
Proof. vm_compute. repeat split; reflexivity. Qed.

(** A pattern that matches nowhere splits nothing. *)
Lemma split_without_match M cap (s : jsstring) :
  forall prev acc,
    testLoop M prev s = false ->
    splitLoop M cap prev s acc 0 = [rev acc ++ s].
Proof.
  induction s as [|c s IH]; intros prev acc H; cbn [splitLoop testLoop] in *.
  - now rewrite app_nil_r.
  - destruct (M prev (c :: s)); [discriminate|].
    rewrite IH by assumption. cbn [rev]. now rewrite <- app_assoc.
Qed.

(** Without a speaker line, [splitRawText] returns the text whole under
    TURN granularity (or nothing, when the text is blank). *)
Lemma splitRawText_turn_whole (txt : jsstring) :
  test false re_turn txt = false ->
  splitRawText txt TURN = if nonBlank txt then [txt] else [].
Proof.
  intro H. cbn [splitRawText]. unfold split_regex, splitWith.
  destruct txt as [|c txt].
  - unfold test in H. cbn [testLoop] in H.
    destruct (matchAt false re_turn None []); [discriminate|reflexivity].
  - unfold test in H. rewrite split_without_match by assumption.
    reflexivity.
Qed.

(** C4.  The code does not do what the claim says.  Under TURN
    granularity a flat document that is no table and has no speaker line
    comes back from [performSegmentation] as one chunk holding the whole
    text (trimmed), however many paragraphs it has: the TURN branch of
    [splitRawText] has no fallback, whereas the sibling
    [splitSingleText] falls back to paragraphs
    ([splitSingleText_turn_fallback]). *)
Theorem C4_turn_flat_whole_text :
  forall d cfg lvl g,
    doc_type d <> csv ->
    test false re_turn (doc_content d) = false ->
    nonBlank (doc_content d) = true ->
    map chunk_text (fst (performSegmentation TURN cfg false lvl [d] g))
    = [trim (doc_content d)].
Proof.
  intros d cfg lvl g T H N.
  rewrite performSegmentation_single. unfold segmentDoc.
  replace (DocType_eqb (doc_type d) csv) with false
    by (destruct (doc_type d); try reflexivity; congruence).
  rewrite splitRawText_turn_whole by exact H. rewrite N.
  reflexivity.
Qed.

Lemma C4_turn_flat_whole_text_witness :
  map chunk_text
    (fst (performSegmentation TURN
            (Some {| targetColumns := []; contextColumns := [];
                     sentimentContextColumns := Some [];
                     strategy := COMBINE |})
            false 1 [textDoc (nl "first part||second part")] demoIds))
  = [trim (doc_content (textDoc (nl "first part||second part")))].
Proof.
  apply C4_turn_flat_whole_text.
  - discriminate.
  - reflexivity.
  - reflexivity.
Defined.

(** The same text under the three splitters: whole under TURN in
    [performSegmentation], in two paragraphs under PARAGRAPH, and in two
    paragraphs under TURN in [splitSingleText]. *)
Example turn_paths_differ :
  let txt := nl "first part||second part" in
  map chunk_text
    (fst (performSegmentation TURN None false 1 [textDoc txt] demoIds))
  = [txt]
  /\ map chunk_text
       (fst (performSegmentation PARAGRAPH None false 1 [textDoc txt]
               demoIds))
     = [str "first part"; str "second part"]
  /\ map chunk_text (fst (splitSingleText txt TURN demoIds))
     = [str "first part"; str "second part"].
Proof. vm_compute. repeat split; reflexivity. Qed.

(** [performSegmentation] has no fallback even without a colon. *)
Example turn_flat_no_fallback :
  map chunk_text
    (fst (performSegmentation TURN None false 1
            [textDoc (nl "first part||second part")] demoIds))
  = [nl "first part||second part"].
Proof. vm_compute. reflexivity. Qed.

(** ** C5: the degenerate table *)

Lemma chr_eqb_eq (a b : ascii) : chr_eqb a b = true <-> a = b.
Proof. apply Ascii.eqb_eq. Qed.

(** Where [/\r?\n/] matches: at a line feed, or at a carriage return
    that a line feed follows. *)
Lemma newline_at (prev : option ascii) (s : jsstring) :
  matchAt false re_newline prev s
  = match s with
    | c :: s' =>
        if chr_eqb LF c then Some 1
        else if chr_eqb CR c
             then match s' with
                  | c' :: _ => if chr_eqb LF c' then Some 2 else None
                  | [] => None
                  end
             else None
    | [] => None
    end.
Proof.
  unfold matchAt, re_newline, Opt. cbn [run].
  destruct s as [|c s]; [reflexivity|].
  unfold isChr.
  destruct (chr_eqb LF c) eqn:EL.
  - apply chr_eqb_eq in EL. subst c.
    replace (chr_eqb CR LF) with false by reflexivity.
    f_equal. cbn [length]. lia.
  - destruct (chr_eqb CR c) eqn:EC; [|reflexivity].
    destruct s as [|c' s]; [reflexivity|].
    destruct (chr_eqb LF c'); [|reflexivity].
    f_equal. cbn [length]. lia.
Qed.

Lemma nonBlank_snoc_space (l : jsstring) (c : ascii) :
  isSpace c = true -> nonBlank (l ++ [c]) = nonBlank l.
Proof.
  intro H. rewrite !nonBlank_allSpace. unfold allSpace.
  rewrite forallb_app. simpl. now rewrite H, !andb_true_r.
Qed.

(** Splitting at [/\r?\n/] and splitting at line feeds give pieces that
    are blank at the same places. *)
Lemma newline_split_blanks (s : jsstring) :
  forall prev prev' acc,
    map nonBlank (splitLoop (matchAt false re_newline) false prev s acc 0)
    = map nonBlank (splitLoop (literal [LF]) false prev' s acc 0).
Proof.
  induction s as [|c s IH]; intros prev prev' acc; [reflexivity|].
  cbn [splitLoop]. rewrite newline_at, literal_LF_cons.
  destruct (chr_eqb LF c) eqn:EL.
  - cbn [app map]. f_equal. apply IH.
  - destruct (chr_eqb CR c) eqn:EC; [|apply IH].
    destruct s as [|c' s]; [apply IH|].
    destruct (chr_eqb LF c') eqn:EL'; [|apply IH].
    apply chr_eqb_eq in EC. subst c.
    cbn [app map splitLoop]. rewrite literal_LF_cons, EL'.
    cbn [app map rev].
    rewrite nonBlank_snoc_space by reflexivity. f_equal.
    specialize (IH (Some CR) (Some CR) []).
    cbn [splitLoop] in IH. rewrite newline_at, literal_LF_cons, EL' in IH.
    cbn [app map] in IH. now inversion IH.
Qed.

Lemma filter_length_map {A : Type} (f : A -> bool) (l l' : list A) :
  map f l = map f l' -> length (filter f l) = length (filter f l').
Proof.
  revert l'. induction l as [|x l IH]; intros [|y l'] H; try discriminate;
    [reflexivity|].
  cbn [map] in H. injection H as H1 H2. cbn [filter]. rewrite <- H1.
  destruct (f x); cbn [length]; rewrite (IH l' H2); reflexivity.
Qed.

Lemma csvLines_count (content : jsstring) :
  length (csvLines content) = length (nonBlankLines content).
Proof.
  unfold csvLines, nonBlankLines. apply filter_length_map.
  rewrite split_string_LF_loop. unfold split_regex, splitWith.
  destruct content as [|c content]; [reflexivity|].
  apply newline_split_blanks.
Qed.

(** C5.  A content with fewer than two non-blank lines parses to the
    empty table: no headers, no rows, a row count of zero. *)
Theorem C5_fewer_than_two_lines :
  forall content,
    length (nonBlankLines content) < 2 ->
    parseCSVStructure content
    = {| headers := []; rows := []; totalRows := 0 |}.
Proof.
  intros content H. unfold parseCSVStructure.
  rewrite <- csvLines_count in H.
  apply Nat.ltb_lt in H. rewrite H. reflexivity.
Qed.

Lemma C5_fewer_than_two_lines_witness :
  length (nonBlankLines (nl "name,age,comment| |")) < 2 /\
  parseCSVStructure (nl "name,age,comment| |")
  = {| headers := []; rows := []; totalRows := 0 |}.
Proof.
  split; [vm_compute; lia|].
  apply C5_fewer_than_two_lines. vm_compute. lia.
Defined.

(** ** C6: the analyze set is never empty *)

Lemma guessLoop_analyze rws hs :
  forall i cfg,
    analyzeCols (guessLoop rws hs i cfg)
    = analyzeCols cfg ++ analyzeFrom rws hs i.
Proof.
  induction hs as [|h hs IH]; intros i cfg; simpl.
  - now rewrite app_nil_r.
  - rewrite IH. destruct (columnRole rws h i); simpl; auto.
    now rewrite <- app_assoc.
Qed.

Lemma analyzeFrom_none rws hs :
  forall i,
    (forall k h, nth_error hs k = Some h ->
                 columnRole rws h (i + k) <> Analyze) ->
    analyzeFrom rws hs i = [].
Proof.
  induction hs as [|h hs IH]; intros i H; simpl; auto.
  pose proof (H 0 h eq_refl) as H0. rewrite Nat.add_0_r in H0.
  assert (analyzeFrom rws hs (S i) = []) as E.
  { apply IH. intros k h' Hk.
    replace (S i + k) with (i + S k) by lia. now apply H. }
  destruct (columnRole rws h i); congruence.
Qed.

(** C6.  For a table with at least one header, [guessCSVConfig] returns a
    non-empty analyze set; when no column qualifies as a target, that set
    is exactly the last column. *)
Theorem C6_analyze_set_not_empty :
  forall structure,
    headers structure <> [] ->
    analyzeCols (guessCSVConfig structure) <> []
    /\ ((forall i h, nth_error (headers structure) i = Some h ->
                     columnRole (rows structure) h i <> Analyze) ->
        analyzeCols (guessCSVConfig structure)
        = [length (headers structure) - 1]).
Proof.
  intros structure H. unfold guessCSVConfig. cbv zeta.
  assert ((0 <? length (headers structure)) = true) as L.
  { apply Nat.ltb_lt. destruct (headers structure); simpl; [congruence|lia]. }
  rewrite L, andb_true_r.
  pose proof (guessLoop_analyze (rows structure) (headers structure) 0
                {| analyzeCols := []; contextCols := [] |}) as E.
  cbn [analyzeCols app] in E.
  destruct (guessLoop (rows structure) (headers structure) 0
              {| analyzeCols := []; contextCols := [] |}) as [ac cc].
  cbn [analyzeCols] in *. subst ac.
  split.
  - destruct (analyzeFrom (rows structure) (headers structure) 0);
      simpl; discriminate.
  - intro N.
    rewrite (analyzeFrom_none (rows structure) (headers structure) 0 N).
    reflexivity.
Qed.

Lemma C6_analyze_set_not_empty_witness :
  headers surveyTable <> [] /\
  analyzeCols (guessCSVConfig surveyTable) <> [].
Proof.
  split; [vm_compute; discriminate|].
  apply (C6_analyze_set_not_empty surveyTable). vm_compute. discriminate.
Defined.

Example guess_forced_last_column :
  guessCSVConfig surveyTable = {| analyzeCols := [1]; contextCols := [0; 1] |}.
Proof. vm_compute. reflexivity. Qed.

(** ** C7: when the header list is stored *)

Lemma splitCSVLineLoop_not_nil (line : jsstring) :
  forall prev inQuote current matches,
    splitCSVLineLoop prev line inQuote current matches <> [].
Proof.
  induction line as [|c line IH]; intros prev inQuote current matches;
    cbn [splitCSVLineLoop].
  - destruct matches; discriminate.
  - cbv zeta. destruct (chr_eqb c COMMA && _); apply IH.
Qed.

Lemma parse_headers_not_nil (content : jsstring) :
  headers (parseCSVStructure content) <> [] <->
  2 <= length (csvLines content).
Proof.
  unfold parseCSVStructure. cbv zeta.
  destruct (length (csvLines content) <? 2) eqn:E.
  - apply Nat.ltb_lt in E. simpl. split; [congruence|lia].
  - apply Nat.ltb_ge in E. simpl. split; auto. intros _.
    apply splitCSVLineLoop_not_nil.
Qed.

Lemma DocType_eqb_csv (t : DocType) : DocType_eqb t csv = true <-> t = csv.
Proof. destruct t; simpl; split; congruence. Qed.

(** C7 (as amended).  A document produced by ingestion carries a header
    list only if its kind is csv.  [ingestManualText] stores one for every
    csv document; [ingestFile] stores one for a csv document exactly when
    its content has at least two non-blank lines. *)
Theorem C7_headers_stored :
  forall file txt g,
    (doc_csvHeaders (fst (ingestFile file g)) <> None <->
     doc_type (fst (ingestFile file g)) = csv
     /\ 2 <= length (nonBlankLines (file_text file)))
    /\ (doc_csvHeaders (fst (ingestManualText txt g)) <> None <->
        doc_type (fst (ingestManualText txt g)) = csv).
Proof.
  intros file txt g. rewrite <- csvLines_count. split.
  - cbn [ingestFile bind generateId ret fst snd doc_csvHeaders doc_type].
    cbv zeta. cbn [fst doc_csvHeaders doc_type].
    destruct (DocType_eqb (classifyFile file) csv) eqn:T.
    + apply DocType_eqb_csv in T.
      pose proof (parse_headers_not_nil (file_text file)) as P.
      destruct (headers (parseCSVStructure (file_text file))) as [|h hs].
      * simpl. split; [congruence|]. intros [_ L].
        apply P in L. congruence.
      * simpl. split; [|discriminate]. intros _. split; auto.
        apply P. discriminate.
    + simpl. split; [congruence|]. intros [C _].
      apply DocType_eqb_csv in C. congruence.
  - cbn [ingestManualText bind generateId ret fst snd doc_csvHeaders doc_type].
    cbv zeta. cbn [fst doc_csvHeaders doc_type].
    destruct (DocType_eqb (classifyManualText txt) csv) eqn:T.
    + apply DocType_eqb_csv in T. split; [auto|discriminate].
    + split; [congruence|]. intro C. apply DocType_eqb_csv in C. congruence.
Qed.

(** C7 as stated fails: a file recognised as CSV by its extension whose
    content is a header line alone is of kind csv and has no stored
    headers. *)
Lemma C7_counterexample :
  doc_type (fst (ingestFile headerOnlyCsv demoIds)) = csv
  /\ doc_csvHeaders (fst (ingestFile headerOnlyCsv demoIds)) = None.
Proof. vm_compute. split; reflexivity. Qed.

Example ingest_csv_by_content :
  let d := fst (ingestFile
                  {| file_name := str "data.txt"; file_type := [];
                     file_text := nl "a,b|1,2|3,4" |} demoIds) in
  doc_type d = csv /\ doc_csvHeaders d = Some [str "a"; str "b"].
Proof. vm_compute. split; reflexivity. Qed.

Example ingest_markdown_by_content :
  doc_type (fst (ingestManualText (nl "# Psmith, Journalist||plain text")
                   demoIds)) = markdown.
Proof. vm_compute. reflexivity. Qed.

(** ** C8: joining the LINE chunks *)

Lemma splitLoop_not_nil M cap (rest : jsstring) :
  forall prev acc skip, splitLoop M cap prev rest acc skip <> [].
Proof.
  induction rest as [|c rest IH]; intros prev acc skip; cbn [splitLoop].
  - discriminate.
  - destruct skip; [|apply IH].
    destruct (M prev (c :: rest)) as [[|n]|]; try apply IH; try discriminate.
    destruct acc; [apply IH|discriminate].
Qed.

Lemma join_cons (sep p : jsstring) (ps : list jsstring) :
  ps <> [] -> join sep (p :: ps) = p ++ sep ++ join sep ps.
Proof. destruct ps; [congruence|reflexivity]. Qed.

(** Joining the lines of a text with line breaks gives the text back. *)
Lemma join_splitLoop_LF (s : jsstring) :
  forall prev acc,
    join [LF] (splitLoop (literal [LF]) false prev s acc 0) = rev acc ++ s.
Proof.
  induction s as [|c s IH]; intros prev acc; cbn [splitLoop].
  - simpl. now rewrite app_nil_r.
  - rewrite literal_LF_cons. destruct (chr_eqb LF c) eqn:E.
    + apply Ascii.eqb_eq in E. subst c.
      cbn [app]. rewrite join_cons by apply splitLoop_not_nil.
      rewrite IH. reflexivity.
    + rewrite IH. cbn [rev]. now rewrite <- app_assoc.
Qed.

Lemma join_split_LF (s : jsstring) : join [LF] (split_string [LF] s) = s.
Proof. rewrite split_string_LF_loop. apply join_splitLoop_LF. Qed.

(** The lines of a text hold no line break. *)
Lemma splitLoop_LF_noLF (s : jsstring) :
  forall prev acc,
    noLF acc ->
    Forall noLF (splitLoop (literal [LF]) false prev s acc 0).
Proof.
  induction s as [|c s IH]; intros prev acc H; cbn [splitLoop].
  - constructor; [|constructor]. now apply Forall_rev.
  - rewrite literal_LF_cons. destruct (chr_eqb LF c) eqn:E.
    + cbn [app]. constructor; [now apply Forall_rev|].
      apply IH. constructor.
    + apply IH. constructor; auto.
Qed.

(** Splitting a join of break-free lines gives the lines back. *)
Lemma splitLoop_LF_line (l : jsstring) :
  forall prev acc rest,
    noLF l ->
    splitLoop (literal [LF]) false prev (l ++ LF :: rest) acc 0
    = (rev acc ++ l) :: splitLoop (literal [LF]) false (Some LF) rest [] 0.
Proof.
  induction l as [|c l IH]; intros prev acc rest H; cbn [app splitLoop].
  - rewrite literal_LF_cons.
    replace (chr_eqb LF LF) with true by (symmetry; apply Ascii.eqb_refl).
    cbn [app]. now rewrite app_nil_r.
  - inversion H as [|? ? Hc Hl]; subst.
    rewrite literal_LF_cons, Hc, IH by assumption.
    cbn [rev]. now rewrite <- app_assoc.
Qed.

Lemma splitLoop_LF_last (l : jsstring) :
  forall prev acc,
    noLF l -> splitLoop (literal [LF]) false prev l acc 0 = [rev acc ++ l].
Proof.
  induction l as [|c l IH]; intros prev acc H; cbn [splitLoop].
  - now rewrite app_nil_r.
  - inversion H as [|? ? Hc Hl]; subst.
    rewrite literal_LF_cons, Hc, IH by assumption.
    cbn [rev]. now rewrite <- app_assoc.
Qed.

Lemma split_join_LF (ls : list jsstring) :
  ls <> [] -> Forall noLF ls ->
  forall prev, splitLoop (literal [LF]) false prev (join [LF] ls) [] 0 = ls.
Proof.
  induction ls as [|l ls IH]; intros N H prev; [congruence|].
  inversion H as [|? ? Hl Hls]; subst.
  destruct ls as [|l2 ls].
  - cbn [join]. now rewrite splitLoop_LF_last.
  - rewrite join_cons by discriminate. cbn [app].
    rewrite splitLoop_LF_line by assumption.
    rewrite IH by (auto; discriminate). reflexivity.
Qed.

Lemma Forall_dropWhile (P : ascii -> Prop) p (s : jsstring) :
  Forall P s -> Forall P (dropWhile p s).
Proof.
  induction 1 as [|c s Hc Hs IH]; simpl; auto.
  destruct (p c); auto.
Qed.

Lemma Forall_trim (P : ascii -> Prop) (s : jsstring) :
  Forall P s -> Forall P (trim s).
Proof.
  intro H. unfold trim, trimEnd, trimStart.
  apply Forall_rev, Forall_dropWhile, Forall_rev, Forall_dropWhile, H.
Qed.

Lemma dropWhile_suffix p (s : jsstring) :
  exists pre, s = pre ++ dropWhile p s.
Proof.
  induction s as [|c s [pre IH]]; simpl.
  - now exists [].
  - destruct (p c).
    + exists (c :: pre). simpl. now f_equal.
    + now exists [].
Qed.

Lemma dropWhile_head p (s : jsstring) :
  match dropWhile p s with [] => True | c :: _ => p c = false end.
Proof.
  induction s as [|c s IH]; simpl; auto.
  destruct (p c) eqn:E; auto.
Qed.

Lemma dropWhile_fixed p (s : jsstring) :
  match s with [] => True | c :: _ => p c = false end -> dropWhile p s = s.
Proof. destruct s as [|c s]; simpl; auto. now intros ->. Qed.

Lemma trim_idempotent (s : jsstring) : trim (trim s) = trim s.
Proof.
  unfold trim, trimEnd, trimStart.
  set (X := dropWhile isSpace s).
  set (Y := dropWhile isSpace (rev X)).
  assert (dropWhile isSpace (rev Y) = rev Y) as E1.
  { apply dropWhile_fixed.
    destruct (dropWhile_suffix isSpace (rev X)) as [pre E]. fold Y in E.
    apply (f_equal (@rev ascii)) in E. rewrite rev_involutive, rev_app_distr in E.
    pose proof (dropWhile_head isSpace s) as HX. fold X in HX.
    destruct (rev Y) as [|c r]; auto.
    rewrite E in HX. exact HX. }
  rewrite E1, rev_involutive.
  f_equal. apply dropWhile_fixed. apply dropWhile_head.
Qed.

Lemma lineTexts_noLF (content : jsstring) : Forall noLF (lineTexts content).
Proof.
  unfold lineTexts. apply Forall_map.
  apply Forall_forall. intros l Hl. apply filter_In in Hl. destruct Hl as [Hl _].
  apply Forall_trim.
  pose proof (splitLoop_LF_noLF content None [] (Forall_nil _)) as F.
  rewrite <- split_string_LF_loop in F.
  rewrite Forall_forall in F. now apply F.
Qed.

Lemma lineTexts_fixed (ts : list jsstring) :
  Forall (fun t => nonBlank t = true /\ trim t = t) ts ->
  map trim (filter nonBlank ts) = ts.
Proof.
  induction 1 as [|t ts [H1 H2] _ IH]; simpl; auto.
  rewrite H1. simpl. now rewrite H2, IH.
Qed.

Lemma lineTexts_join (content : jsstring) :
  lineTexts (join [LF] (lineTexts content)) = lineTexts content.
Proof.
  destruct (lineTexts content) as [|t ts] eqn:E; [reflexivity|].
  unfold lineTexts at 1. rewrite split_string_LF_loop.
  rewrite split_join_LF;
    [|discriminate|rewrite <- E; apply lineTexts_noLF].
  apply lineTexts_fixed. rewrite <- E. unfold lineTexts.
  apply Forall_map, Forall_forall. intros l Hl.
  apply filter_In in Hl. destruct Hl as [_ Hl].
  split; [now rewrite nonBlank_trim|apply trim_idempotent].
Qed.

Lemma flat_LINE_texts cfg lvl d g :
  doc_type d <> csv ->
  map chunk_text (fst (performSegmentation LINE cfg false lvl [d] g))
  = lineTexts (doc_content d).
Proof.
  intro H.
  rewrite performSegmentation_single.
  pose proof (segmentDoc_entries LINE cfg false lvl d g) as E.
  apply (f_equal (map (fun e : Entry => snd e))) in E.
  rewrite map_map in E. cbn [entryOf snd] in E.
  change (fun x : Chunk => chunk_text x) with chunk_text in E.
  rewrite E. unfold docOutline.
  destruct (DocType_eqb (doc_type d) csv) eqn:T.
  - apply DocType_eqb_csv in T. congruence.
  - rewrite map_map. cbn [entry snd splitRawText]. unfold lineTexts.
    reflexivity.
Qed.

(** C8 (as amended).  For a document that is not tabular, the texts of the
    flat LINE chunks are the non-blank lines of the content, trimmed.
    Joined by single line breaks they give a text with the same trimmed
    non-blank lines as the content, and the content itself when each of
    its lines is non-blank and free of surrounding white space. *)
Theorem C8_line_chunks_round_trip :
  forall d cfg lvl g,
    doc_type d <> csv ->
    let chunks :=
      map chunk_text (fst (performSegmentation LINE cfg false lvl [d] g)) in
    chunks = lineTexts (doc_content d)
    /\ lineTexts (join [LF] chunks) = lineTexts (doc_content d)
    /\ (Forall (fun l => nonBlank l = true /\ trim l = l)
          (split_string [LF] (doc_content d)) ->
        join [LF] chunks = doc_content d).
Proof.
  intros d cfg lvl g H. cbv zeta.
  rewrite (flat_LINE_texts cfg lvl d g H).
  split; [reflexivity|]. split.
  - apply lineTexts_join.
  - intro F. unfold lineTexts. rewrite (lineTexts_fixed _ F).
    apply join_split_LF.
Qed.

Lemma C8_line_chunks_round_trip_witness :
  text <> csv /\
  join [LF]
    (map chunk_text
       (fst (performSegmentation LINE None false 1
               [textDoc (nl "alpha|beta gamma|delta")] demoIds)))
  = nl "alpha|beta gamma|delta".
Proof.
  split; [discriminate|].
  apply (C8_line_chunks_round_trip
           (textDoc (nl "alpha|beta gamma|delta")) None 1 demoIds).
  - discriminate.
  - vm_compute. repeat constructor.
Defined.

(** C8 as stated fails: a blank line between two lines is lost, although
    it is neither leading nor trailing. *)
Lemma C8_counterexample :
  let content := nl "a||b" in
  let joined :=
    join [LF]
      (map chunk_text
         (fst (performSegmentation LINE None false 1 [textDoc content]
                 demoIds))) in
  joined = nl "a|b"
  /\ stripOuterBlankLines content = content
  /\ stripOuterBlankLines joined <> stripOuterBlankLines content.
Proof. vm_compute. repeat split; discriminate. Qed.

(** White space around a line is lost as well. *)
Example line_chunks_lose_indentation :
  join [LF]
    (map chunk_text
       (fst (performSegmentation LINE None false 1
               [textDoc (nl "  a|b  ")] demoIds)))
  = nl "a|b".
Proof. vm_compute. reflexivity. Qed.

(** ** C9: n-grams hold no stop word *)

Lemma star_space_run (s : jsstring) :
  forall prev,
    run false (Star (Chr isSpace)) prev s (fun _ s' => Some s')
    = Some (dropWhile isSpace s).
Proof.
  intro prev. cbn [run].
  remember (length s) as fuel eqn:F.
  assert (length s <= fuel) as L by lia. clear F.
  revert prev s L.
  induction fuel as [|fuel IH]; intros prev s L.
  - destruct s; [reflexivity|simpl in L; lia].
  - destruct s as [|c s]; [reflexivity|].
    cbn [dropWhile]. destruct (isSpace c); [|reflexivity].
    replace (length s <? length (c :: s)) with true
      by (symmetry; apply Nat.ltb_lt; simpl; lia).
    rewrite IH by (simpl in L; lia). reflexivity.
Qed.

Lemma dropWhile_length p (s : jsstring) : length (dropWhile p s) <= length s.
Proof.
  induction s as [|c s IH]; simpl; auto.
  destruct (p c); simpl; lia.
Qed.

Lemma space_plus_at prev c rest :
  matchAt false (Plus (Chr isSpace)) prev (c :: rest)
  = if isSpace c
    then Some (S (length rest - length (dropWhile isSpace rest)))
    else None.
Proof.
  unfold matchAt, Plus. cbn [run].
  destruct (isSpace c); [|reflexivity].
  pose proof (star_space_run rest (Some c)) as E. cbn [run] in E.
  rewrite E. f_equal.
  pose proof (dropWhile_length isSpace rest). cbn [length]. lia.
Qed.

Lemma split_space_pieces (rest : jsstring) :
  forall prev acc skip,
    Forall nonSpace acc ->
    Forall (Forall nonSpace)
      (splitLoop (matchAt false (Plus (Chr isSpace))) false prev rest acc skip).
Proof.
  induction rest as [|c rest IH]; intros prev acc skip H; cbn [splitLoop].
  - constructor; [|constructor]. now apply Forall_rev.
  - destruct skip; [|now apply IH].
    rewrite space_plus_at. destruct (isSpace c) eqn:E.
    + cbn [app]. constructor; [now apply Forall_rev|]. apply IH. constructor.
    + apply IH. constructor; auto.
Qed.

Lemma tokenize_tokens (txt : jsstring) : Forall wordTok (tokenize txt).
Proof.
  unfold tokenize, split_regex, splitWith.
  set (s := replace_global _ _ _ _).
  apply Forall_forall. intros t Ht. apply filter_In in Ht.
  destruct Ht as [Ht Hn]. split.
  - destruct t; [discriminate|discriminate].
  - destruct s as [|c s].
    + destruct (matchAt false (Plus (Chr isSpace)) None []); simpl in Ht;
        [contradiction|]. destruct Ht as [<-|[]]. constructor.
    + pose proof (split_space_pieces (c :: s) None [] 0 (Forall_nil _)) as F.
      rewrite Forall_forall in F. now apply F.
Qed.

Lemma mapSet_keys (P : jsstring -> Prop) k v (m : CountMap) :
  keysAll P m -> P k -> keysAll P (mapSet k v m).
Proof.
  unfold keysAll. induction 1 as [|[k' v'] m Hk Hm IH]; intro Pk; simpl.
  - repeat constructor. exact Pk.
  - destruct (str_eqb k' k); constructor; auto.
Qed.

Lemma bigramLoop_keys (tokens : list jsstring) :
  forall counts,
    Forall wordTok tokens ->
    keysAll stopFreeBigram counts ->
    keysAll stopFreeBigram (bigramLoop tokens counts).
Proof.
  induction tokens as [|a tokens IH]; intros counts Ht Hc; [exact Hc|].
  destruct tokens as [|b tokens]; [exact Hc|].
  cbn [bigramLoop].
  inversion Ht as [|? ? Ha Ht']; subst.
  inversion Ht' as [|? ? Hb _]; subst.
  apply IH; auto.
  destruct (isStopWord a) eqn:Sa; [exact Hc|].
  destruct (isStopWord b) eqn:Sb; [exact Hc|].
  cbn [negb andb]. unfold bump. apply mapSet_keys; auto.
  exists a, b. auto.
Qed.

Lemma trigramLoop_keys (tokens : list jsstring) :
  forall counts,
    Forall wordTok tokens ->
    keysAll stopFreeTrigram counts ->
    keysAll stopFreeTrigram (trigramLoop tokens counts).
Proof.
  induction tokens as [|a tokens IH]; intros counts Ht Hc; [exact Hc|].
  destruct tokens as [|b [|c tokens]]; try exact Hc.
  cbn [trigramLoop].
  inversion Ht as [|? ? Ha Ht']; subst.
  inversion Ht' as [|? ? Hb Ht'']; subst.
  inversion Ht'' as [|? ? Hc' _]; subst.
  apply IH; auto.
  destruct (isStopWord a) eqn:Sa; [exact Hc|].
  destruct (isStopWord b) eqn:Sb; [exact Hc|].
  destruct (isStopWord c) eqn:Sc; [exact Hc|].
  cbn [negb andb]. unfold bump. apply mapSet_keys; auto.
  exists a, b, c. repeat split; auto; apply Ha || apply Hb || apply Hc'.
Qed.

Lemma ngramCounts_keys (chunks : list Chunk) :
  keysAll stopFreeBigram (fst (ngramCounts chunks))
  /\ keysAll stopFreeTrigram (snd (ngramCounts chunks)).
Proof.
  unfold ngramCounts.
  assert (keysAll stopFreeBigram (fst (([] , []) : CountMap * CountMap))
          /\ keysAll stopFreeTrigram (snd (([], []) : CountMap * CountMap)))
    as H by (split; constructor).
  revert H. generalize (([], []) : CountMap * CountMap).
  induction chunks as [|c chunks IH]; intros st [H1 H2]; [now split|].
  cbn [fold_left]. apply IH. cbn [fst snd]. split.
  - apply bigramLoop_keys; auto using tokenize_tokens.
  - apply trigramLoop_keys; auto using tokenize_tokens.
Qed.

Lemma insertByValue_Forall (P : Ngram -> Prop) x l :
  P x -> Forall P l -> Forall P (insertByValue x l).
Proof.
  intros Hx. induction 1 as [|y l Hy Hl IH]; simpl.
  - repeat constructor. exact Hx.
  - destruct (ng_value x <? ng_value y); repeat constructor; auto.
Qed.

Lemma sortByValue_Forall (P : Ngram -> Prop) l :
  Forall P l -> Forall P (sortByValue l).
Proof.
  induction 1; simpl; [constructor|]. now apply insertByValue_Forall.
Qed.

Lemma firstn_Forall {A : Type} (P : A -> Prop) n (l : list A) :
  Forall P l -> Forall P (firstn n l).
Proof.
  intro H. revert n. induction H; intros [|n]; simpl; constructor; auto.
Qed.

Lemma format_keys (P : jsstring -> Prop) (m : CountMap) ty :
  keysAll P m -> Forall (fun ng => P (ng_text ng)) (format m ty).
Proof.
  intro H. unfold format.
  apply firstn_Forall, sortByValue_Forall, Forall_map. exact H.
Qed.

(** C9.  Every bigram and trigram returned by [generateNgrams] is made of
    two, respectively three, tokens joined by single spaces, none of which
    is a stop word.  On the text of the example, the bigrams are cat sat
    and cat ran, each counted once, and none contains the stop word
    the. *)
Theorem C9_ngrams_without_stop_words :
  (forall chunks,
     Forall (fun ng => stopFreeBigram (ng_text ng))
       (bigrams (generateNgrams chunks))
     /\ Forall (fun ng => stopFreeTrigram (ng_text ng))
          (trigrams (generateNgrams chunks)))
  /\ isStopWord (str "the") = true
  /\ map (fun ng => (ng_text ng, ng_value ng))
       (bigrams (generateNgrams [chunkOf catText]))
     = [(str "cat sat", 1); (str "cat ran", 1)]
  /\ Forall (fun ng => includes (str "the") (ng_text ng) = false)
       (bigrams (generateNgrams [chunkOf catText])).
Proof.
  split.
  - intro chunks. destruct (ngramCounts_keys chunks) as [H1 H2].
    unfold generateNgrams. cbn [bigrams trigrams].
    split; apply format_keys; assumption.
  - vm_compute. repeat split; repeat constructor.
Qed.

Example tokenize_ex :
  tokenize (str "The cat's  hat, OK?")
  = [str "the"; str "cats"; str "hat"; str "ok"].
Proof. vm_compute. reflexivity. Qed.

(** ** C10: the occurrence scan of [generateKWIC] terminates *)

Lemma startsWith_length (p s : jsstring) :
  startsWith p s = true -> length p <= length s.
Proof.
  revert s. induction p as [|x p IH]; intros s H; simpl; [lia|].
  destruct s as [|y s]; [discriminate|].
  cbn [startsWith] in H. apply andb_true_iff in H. destruct H as [_ H].
  apply IH in H. simpl. lia.
Qed.

Lemma findFrom_bounds (p s : jsstring) :
  forall pos k,
    findFrom p s pos = Some k ->
    pos <= k /\ k + length p <= pos + length s.
Proof.
  induction s as [|c s IH]; intros pos k H; cbn [findFrom] in H.
  - destruct (startsWith p []) eqn:E; [|discriminate].
    inversion H; subst. apply startsWith_length in E. lia.
  - destruct (startsWith p (c :: s)) eqn:E.
    + inversion H; subst. apply startsWith_length in E. lia.
    + apply IH in H. simpl. lia.
Qed.

(** A found occurrence of a non-empty search value starts at or after
    the position the search began at, and lies within the text. *)
Lemma indexOf_bounds (p s : jsstring) (from k : nat) :
  p <> [] ->
  indexOf p s from = Some k ->
  from <= k /\ k + length p <= length s.
Proof.
  intros N H. unfold indexOf in H.
  destruct (Nat.le_gt_cases from (length s)) as [L|L].
  - apply findFrom_bounds in H. rewrite length_skipn in H. lia.
  - rewrite skipn_all2 in H by lia.
    destruct p; [congruence|discriminate].
Qed.

Lemma toLowerCase_not_nil (s : jsstring) : s <> [] -> toLowerCase s <> [].
Proof. destruct s; [congruence|discriminate]. Qed.

Lemma toLowerCase_length (s : jsstring) : length (toLowerCase s) = length s.
Proof. apply length_map. Qed.

Lemma kwicLoop_terminates chunk keyword w :
  keyword <> [] ->
  forall fuel start results,
    length (chunk_text chunk) - start < fuel ->
    exists found,
      kwicLoop fuel chunk keyword w start results = Some (results ++ found)
      /\ length found <= length (chunk_text chunk) - start.
Proof.
  intro N. induction fuel as [|fuel IH]; intros start results L; [lia|].
  cbn [kwicLoop].
  destruct (indexOf (toLowerCase keyword) (toLowerCase (chunk_text chunk))
              start) as [k|] eqn:E.
  - apply indexOf_bounds in E; [|now apply toLowerCase_not_nil].
    rewrite !toLowerCase_length in E.
    assert (0 < length keyword) as P
      by (destruct keyword; simpl; [congruence|lia]).
    destruct (IH (k + 1) (results ++ [kwicRow chunk keyword w k]))
      as [found [F1 F2]]; [lia|].
    exists (kwicRow chunk keyword w k :: found). split.
    + rewrite F1, <- app_assoc. reflexivity.
    + simpl. lia.
  - exists []. rewrite app_nil_r. split; [reflexivity|simpl; lia].
Qed.

Lemma kwicLoop_more_fuel chunk keyword w :
  forall fuel fuel' start results r,
    kwicLoop fuel chunk keyword w start results = Some r ->
    fuel <= fuel' ->
    kwicLoop fuel' chunk keyword w start results = Some r.
Proof.
  induction fuel as [|fuel IH]; intros fuel' start results r H L;
    [discriminate|].
  destruct fuel' as [|fuel']; [lia|].
  cbn [kwicLoop] in *.
  destruct (indexOf _ _ start); auto.
  apply (IH fuel'); auto. lia.
Qed.

Lemma kwicChunks_terminates keyword w :
  keyword <> [] ->
  forall chunks results,
    exists parts,
      Forall2 (fun c part => length part <= length (chunk_text c))
        chunks parts
      /\ forall fuel,
           Forall (fun c => length (chunk_text c) < fuel) chunks ->
           kwicChunks fuel chunks keyword w results
           = Some (results ++ concat parts).
Proof.
  intro N. induction chunks as [|c chunks IH]; intro results.
  - exists []. split; [constructor|]. intros. simpl. now rewrite app_nil_r.
  - destruct (kwicLoop_terminates c keyword w N
                (S (length (chunk_text c))) 0 results) as [found [F1 F2]];
      [lia|].
    destruct (IH (results ++ found)) as [parts [P1 P2]].
    exists (found :: parts). split.
    + constructor; auto. lia.
    + intros fuel Hf. inversion Hf as [|? ? Hc Hcs]; subst.
      cbn [kwicChunks].
      rewrite (kwicLoop_more_fuel c keyword w _ fuel 0 results _ F1)
        by lia.
      rewrite (P2 fuel Hcs). simpl. now rewrite app_assoc.
Qed.

(** C10.  For a non-empty keyword and any window size, [generateKWIC]
    returns once every chunk is given more iterations than its text has
    characters.  The result is the concatenation of one list of records per
    chunk, none longer than the text of its chunk, because a found
    occurrence starts at or after the scan index, within the text, and the
    scan resumes one character after it. *)
Theorem C10_kwic_terminates :
  forall chunks keyword windowChars,
    keyword <> [] ->
    (exists parts,
       Forall2 (fun c part => length part <= length (chunk_text c))
         chunks parts
       /\ forall fuel,
            Forall (fun c => length (chunk_text c) < fuel) chunks ->
            generateKWIC fuel chunks keyword windowChars
            = Some (concat parts))
    /\ (forall txt startIndex found,
          indexOf (toLowerCase keyword) (toLowerCase txt) startIndex
          = Some found ->
          startIndex < found + 1 /\ found < length txt).
Proof.
  intros chunks keyword w N. split.
  - destruct (kwicChunks_terminates keyword w N chunks []) as [parts [P1 P2]].
    exists parts. split; auto.
  - intros txt start found H.
    apply indexOf_bounds in H; [|now apply toLowerCase_not_nil].
    rewrite !toLowerCase_length in H.
    destruct keyword; simpl in H; [congruence|lia].
Qed.

Lemma C10_kwic_terminates_witness :
  str "cat" <> [] /\
  exists parts,
    Forall2 (fun c part => length part <= length (chunk_text c))
      [catChunk] parts
    /\ forall fuel,
         Forall (fun c => length (chunk_text c) < fuel) [catChunk] ->
         generateKWIC fuel [catChunk] (str "cat") 5 = Some (concat parts).
Proof.
  split; [discriminate|].
  apply (C10_kwic_terminates [catChunk] (str "cat") 5). discriminate.
Defined.

Example kwic_cat :
  generateKWIC 21 [catChunk] (str "cat") 5
  = Some [ {| kw_left := str "a "; kw_keyword := str "cat";
              kw_right := str " sat ..."; kw_sourceName := None;
              kw_chunkId := str "c1" |};
           {| kw_left := str "...ar a "; kw_keyword := str "cat";
              kw_right := []; kw_sourceName := None;
              kw_chunkId := str "c1" |} ].
Proof. vm_compute. reflexivity. Qed.

(** With an empty keyword the scan never ends: [indexOf] always answers,
    never beyond the end of the text. *)
Remark kwicLoop_empty_keyword :
  forall fuel chunk w start results,
    kwicLoop fuel chunk [] w start results = None.
Proof.
  induction fuel as [|fuel IH]; intros; [reflexivity|].
  cbn [kwicLoop]. unfold indexOf. cbn [toLowerCase map].
  destruct (skipn start (toLowerCase (chunk_text chunk))); apply IH.
Qed.

(* ================================================================== *)
(** * Further properties *)
(* ================================================================== *)

(** ** Identifiers of the chunks *)

Lemma advance_0 (g : IdSupply) : advance g 0 = g.
Proof. destruct g. unfold advance. simpl. now rewrite Nat.add_0_r. Qed.

Lemma advance_add (g : IdSupply) (a b : nat) :
  advance (advance g a) b = advance g (a + b).
Proof. unfold advance. simpl. now rewrite Nat.add_assoc. Qed.

Lemma idsFrom_add (g : IdSupply) (a b : nat) :
  idsFrom g (a + b) = idsFrom g a ++ idsFrom (advance g a) b.
Proof. unfold idsFrom. rewrite seq_app, map_app. reflexivity. Qed.

Lemma Emits_ret (s : list Chunk) : Emits (ret s) s.
Proof.
  intro g. exists []. simpl. now rewrite app_nil_r, advance_0.
Qed.

Lemma Emits_push (s : list Chunk) txt ty sid sname :
  Emits (c <- newChunk txt ty sid sname ;; ret (s ++ [c])) s.
Proof.
  intro g. exists [fst (newChunk txt ty sid sname g)]. split; [|reflexivity].
  unfold advance. simpl. now rewrite Nat.add_1_r.
Qed.

Lemma Emits_forEach {A : Type} (body : list Chunk -> A -> Gen (list Chunk))
  (l : list A) :
  (forall s x, Emits (body s x) s) ->
  forall s, Emits (forEach body l s) s.
Proof.
  intro Hb. induction l as [|x l IH]; intro s; cbn [forEach].
  - apply Emits_ret.
  - intro g. rewrite bind_eq.
    destruct (Hb s x g) as [n1 [E1 I1]]. rewrite E1. cbn [fst snd].
    destruct (IH (s ++ n1) (advance g (length n1))) as [n2 [E2 I2]].
    exists (n1 ++ n2). rewrite E2, length_app, advance_add, <- app_assoc.
    split; [reflexivity|].
    now rewrite map_app, idsFrom_add, I1, I2.
Qed.

Lemma csvRow_Emits strat cfg hier doc hdrs s row :
  Emits (csvRow strat cfg hier doc hdrs s row) s.
Proof.
  unfold csvRow. destruct (negb hier).
  - destruct (nonBlank _); [apply Emits_push|apply Emits_ret].
  - apply Emits_forEach. intros s' col.
    destruct (arrIndexOf col hdrs); [|apply Emits_ret].
    destruct (truthy _); [apply Emits_push|apply Emits_ret].
Qed.

Lemma EmitsH_forEach {A : Type}
  (body : jsstring * list Chunk -> A -> Gen (jsstring * list Chunk))
  (l : list A) :
  (forall st x, EmitsH (body st x) (snd st)) ->
  forall st, EmitsH (forEach body l st) (snd st).
Proof.
  intro Hb. induction l as [|x l IH]; intros [cur s]; cbn [forEach snd].
  - intro g. exists cur, []. simpl. now rewrite app_nil_r, advance_0.
  - intro g. rewrite bind_eq.
    destruct (Hb (cur, s) x g) as [c1 [n1 [E1 I1]]]. rewrite E1.
    cbn [fst snd] in *.
    destruct (IH (c1, s ++ n1) (advance g (length n1))) as [c2 [n2 [E2 I2]]].
    cbn [snd] in E2.
    exists c2, (n1 ++ n2).
    rewrite E2, length_app, advance_add, <- app_assoc.
    split; [reflexivity|].
    now rewrite map_app, idsFrom_add, I1, I2.
Qed.

Lemma hierSection_EmitsH strat lvl doc st section :
  EmitsH (hierSection strat lvl doc st section) (snd st).
Proof.
  destruct st as [cur s]. unfold hierSection. cbn [snd].
  assert (EmitsH (ret (cur, s)) s) as R.
  { intro g. exists cur, []. simpl. now rewrite app_nil_r, advance_0. }
  destruct (negb (nonBlank section)) eqn:NB; [exact R|].
  destruct (test false _ section).
  { intro g. eexists _, []. simpl. now rewrite app_nil_r, advance_0. }
  assert (EmitsH
            (forEach
               (fun (st : jsstring * list Chunk) segment =>
                  c <- newChunk segment strat (doc_id doc)
                         (doc_name doc ++ str " > " ++ cur) ;;
                  ret (fst st, snd st ++ [c]))
               (splitRawText section strat) (cur, s)) s) as G.
  { apply (EmitsH_forEach _ _) with (st := (cur, s)).
    intros [c0 s0] x g. exists c0.
    exists [fst (newChunk x strat (doc_id doc)
                   (doc_name doc ++ str " > " ++ cur) g)].
    split; [|reflexivity].
    unfold advance. simpl. now rewrite Nat.add_1_r. }
  destruct strat; try exact G.
  apply negb_false_iff in NB. rewrite NB.
  intro g. exists cur.
  exists [fst (newChunk (trim section) SUBSECTION (doc_id doc)
                 (doc_name doc ++ str " > " ++ cur) g)].
  split; [|reflexivity].
  unfold advance. simpl. now rewrite Nat.add_1_r.
Qed.

Lemma newChunk_snd txt ty sid sname g :
  snd (newChunk txt ty sid sname g) = advance g 1.
Proof. unfold advance. simpl. now rewrite Nat.add_1_r. Qed.

Lemma mapGen_Emits (f : jsstring -> jsstring) ty sid sname
  (l : list jsstring) :
  Emits (mapGen (fun t => newChunk (f t) ty sid sname) l) [].
Proof.
  induction l as [|t l IH]; intro g; cbn [mapGen].
  - exists []. simpl. now rewrite advance_0.
  - rewrite !bind_eq, ret_eq, newChunk_snd.
    destruct (IH (advance g 1)) as [n [E I]].
    rewrite E. cbn [fst snd app].
    exists (fst (newChunk (f t) ty sid sname g) :: n). split.
    + cbn [app length]. now rewrite advance_add.
    + cbn [map length]. change (S (length n)) with (1 + length n).
      rewrite idsFrom_add, <- I. reflexivity.
Qed.

Lemma segmentDoc_Emits strat cfg hier lvl doc :
  Emits (segmentDoc strat cfg hier lvl doc) [].
Proof.
  assert (Emits (forEach (csvRow strat cfg hier doc
                            (headers (parseCSVStructure (doc_content doc))))
                   (rows (parseCSVStructure (doc_content doc))) []) [])
    as Hcsv.
  { apply Emits_forEach. intros. apply csvRow_Emits. }
  assert (Emits
            (st <- forEach (hierSection strat lvl doc)
                     (split_regex_capture true (sectionRegex strat lvl)
                        (doc_content doc))
                     (str "Intro / Untitled", []) ;;
             ret (snd st)) []) as Hhier.
  { intro g. rewrite bind_eq, ret_eq.
    destruct (EmitsH_forEach (hierSection strat lvl doc)
                (split_regex_capture true (sectionRegex strat lvl)
                   (doc_content doc))
                (fun st x => hierSection_EmitsH strat lvl doc st x)
                (str "Intro / Untitled", []) g) as [c [n [E I]]].
    rewrite E. exists n. auto. }
  pose proof (mapGen_Emits trim strat (doc_id doc) (doc_name doc)
                (splitRawText (doc_content doc) strat)) as Hflat.
  unfold segmentDoc.
  destruct strat;
    try (intro g;
         exists [fst (newChunk (doc_content doc) FILE (doc_id doc)
                        (doc_name doc) g)];
         split; [|reflexivity];
         unfold advance; simpl; now rewrite Nat.add_1_r);
    (destruct (DocType_eqb (doc_type doc) csv); [exact Hcsv|];
     destruct hier; [exact Hhier|exact Hflat]).
Qed.

(** X1.  [performSegmentation] draws exactly one identifier per chunk, in
    the order of the chunks: the identifiers of the result are the next
    values of the supply, and the supply has advanced by the number of
    chunks. *)
Theorem performSegmentation_ids :
  forall strat cfg hier lvl docs g,
    let r := performSegmentation strat cfg hier lvl docs g in
    map chunk_id (fst r) = idsFrom g (length (fst r))
    /\ snd r = advance g (length (fst r)).
Proof.
  intros strat cfg hier lvl docs g. cbv zeta.
  assert (Emits (performSegmentation strat cfg hier lvl docs) []) as E.
  { unfold performSegmentation. apply Emits_forEach.
    intros s d g0. rewrite bind_eq, ret_eq.
    destruct (segmentDoc_Emits strat cfg hier lvl d g0) as [n [E I]].
    rewrite E. exists n. auto. }
  destruct (E g) as [n [E1 I1]]. rewrite E1. cbn [fst snd app]. auto.
Qed.

(** ** What every chunk of [performSegmentation] looks like *)

Lemma performSegmentation_built (P : Chunk -> Prop) strat cfg hier lvl docs g :
  (forall txt sid sname g0, P (fst (newChunk txt strat sid sname g0))) ->
  Forall P (fst (performSegmentation strat cfg hier lvl docs g)).
Proof.
  intro HP.
  assert (forall (s : list Chunk) txt sid nm g0,
            Forall P s ->
            Forall P (fst ((c <- newChunk txt strat sid nm ;;
                            ret (s ++ [c])) g0))) as Push.
  { intros. apply Forall_snoc; auto. apply HP. }
  unfold performSegmentation. apply forEach_inv; auto.
  intros s0 d g0 _ Hs0. rewrite bind_eq, ret_eq. cbn [fst].
  apply Forall_app; split; auto. clear s0 Hs0.
  assert (Forall P
            (fst (forEach (csvRow strat cfg hier d
                     (headers (parseCSVStructure (doc_content d))))
                    (rows (parseCSVStructure (doc_content d))) [] g0)))
    as Hcsv.
  { apply forEach_inv; auto. intros s row g1 _ Hs. unfold csvRow.
    destruct (negb hier).
    - destruct (nonBlank _); [apply Push; auto|exact Hs].
    - apply forEach_inv; auto. intros s1 col g2 _ Hs1.
      destruct (arrIndexOf col _); [|exact Hs1].
      destruct (truthy _); [apply Push; auto|exact Hs1]. }
  assert (Forall P
            (snd (fst (forEach (hierSection strat lvl d)
                         (split_regex_capture true (sectionRegex strat lvl)
                            (doc_content d))
                         (str "Intro / Untitled", []) g0)))) as Hhier.
  { apply (forEach_inv (fun st => Forall P (snd st))); simpl; auto.
    intros [cur s] sec g1 _ Hs. simpl in Hs. unfold hierSection.
    destruct (negb (nonBlank sec)) eqn:NB; auto.
    destruct (test false _ sec); auto.
    assert (Forall P
              (snd (fst (forEach
                 (fun (st : jsstring * list Chunk) segment =>
                    c <- newChunk segment strat (doc_id d)
                           (doc_name d ++ str " > " ++ cur) ;;
                    ret (fst st, snd st ++ [c]))
                 (splitRawText sec strat) (cur, s) g1)))) as G.
    { apply (forEach_inv (fun st => Forall P (snd st))); auto.
      intros st x g2 _ Hst. simpl. apply Forall_snoc; auto. apply HP. }
    destruct strat; try exact G.
    apply negb_false_iff in NB. rewrite NB.
    simpl. apply Forall_snoc; auto. apply HP. }
  assert (Forall P
            (fst (mapGen (fun t => newChunk (trim t) strat (doc_id d)
                                     (doc_name d))
                    (splitRawText (doc_content d) strat) g0))) as Hflat.
  { apply mapGen_Forall. intros; apply HP. }
  unfold segmentDoc.
  destruct strat;
    try (rewrite bind_eq, ret_eq; repeat constructor; apply HP);
    (destruct (DocType_eqb (doc_type d) csv); [exact Hcsv|];
     destruct hier; [|exact Hflat];
     rewrite bind_eq, ret_eq; exact Hhier).
Qed.

(** X2.  Every chunk of [performSegmentation] is tagged with the requested
    strategy (also for the rows of a table, whatever the effective row
    strategy), has an empty tag list and names its source. *)
Theorem performSegmentation_chunk_shape :
  forall strat cfg hier lvl docs g,
    Forall (fun c =>
              chunk_type c = strat /\ chunk_tags c = []
              /\ chunk_sourceId c <> None /\ chunk_sourceName c <> None)
      (fst (performSegmentation strat cfg hier lvl docs g)).
Proof.
  intros. apply performSegmentation_built.
  intros. simpl. repeat split; discriminate.
Qed.

Lemma performSegmentation_entries strat cfg hier lvl docs g :
  map entryOf (fst (performSegmentation strat cfg hier lvl docs g))
  = flat_map (docOutline strat cfg hier lvl) docs.
Proof.
  unfold performSegmentation.
  rewrite (forEach_entries _ (docOutline strat cfg hier lvl)); auto.
  intros s d g'. rewrite bind_eq, ret_eq. cbn [fst].
  now rewrite map_app, segmentDoc_entries.
Qed.

(** X3.  Under FILE granularity the result has one chunk per document, in
    order, whose text is the content of the document as it is, whatever
    the kind of the document and the other settings. *)
Theorem performSegmentation_FILE :
  forall cfg hier lvl docs g,
    map entryOf (fst (performSegmentation FILE cfg hier lvl docs g))
    = map (fun d => entry (doc_id d) (doc_name d) (doc_content d)) docs.
Proof.
  intros. rewrite performSegmentation_entries.
  induction docs as [|d docs IH]; [reflexivity|].
  cbn [flat_map map]. rewrite IH. reflexivity.
Qed.

(** X4.  Segmenting two document lists one after the other gives, up to
    the identifiers, the chunks of the first list followed by the chunks
    of the second. *)
Theorem performSegmentation_app :
  forall strat cfg hier lvl docs1 docs2 g g1 g2,
    map entryOf
      (fst (performSegmentation strat cfg hier lvl (docs1 ++ docs2) g))
    = map entryOf (fst (performSegmentation strat cfg hier lvl docs1 g1))
      ++ map entryOf (fst (performSegmentation strat cfg hier lvl docs2 g2)).
Proof.
  intros. rewrite !performSegmentation_entries. apply flat_map_app.
Qed.

Lemma flat_map_length_le {A B : Type} (f : A -> list B) (k : nat)
  (l : list A) :
  (forall x, length (f x) <= k) -> length (flat_map f l) <= length l * k.
Proof.
  intro H. induction l as [|x l IH]; simpl; [lia|].
  rewrite length_app. specialize (H x). lia.
Qed.

(** X5.  A tabular document gives at most one chunk per data row when the
    columns are combined, and at most one chunk per data row and target
    column when they are kept apart. *)
Theorem csv_chunk_count :
  forall strat cfg hier lvl d g,
    doc_type d = csv ->
    strat <> FILE ->
    let table := parseCSVStructure (doc_content d) in
    length (fst (performSegmentation strat cfg hier lvl [d] g))
    <= length (rows table)
       * (if hier then length (targetColsOf cfg (headers table)) else 1).
Proof.
  intros strat cfg hier lvl d g T NF. cbv zeta.
  rewrite <- (length_map entryOf), performSegmentation_entries.
  cbn [flat_map]. rewrite app_nil_r. unfold docOutline.
  rewrite T. cbn [DocType_eqb].
  assert (forall row,
            length (rowOutline cfg hier d
                      (headers (parseCSVStructure (doc_content d))) row)
            <= (if hier
                then length (targetColsOf cfg
                               (headers (parseCSVStructure (doc_content d))))
                else 1)) as B.
  { intro row. unfold rowOutline, targetColsOf. destruct hier; cbn [negb].
    - etransitivity; [apply (flat_map_length_le _ 1)|lia]. intro col.
      destruct (arrIndexOf col _); simpl; [|lia].
      destruct (truthy _); simpl; lia.
    - destruct (nonBlank _); simpl; lia. }
  destruct strat; try congruence; now apply flat_map_length_le.
Qed.

Lemma csv_chunk_count_witness :
  length (fst (performSegmentation ROW_COMBINED surveyConfig true 1
                 [surveyDoc] demoIds))
  <= length (rows (parseCSVStructure (doc_content surveyDoc)))
     * length (targetColsOf surveyConfig
                 (headers (parseCSVStructure (doc_content surveyDoc)))).
Proof.
  apply (csv_chunk_count ROW_COMBINED surveyConfig true 1 surveyDoc demoIds).
  - reflexivity.
  - discriminate.
Defined.

(** ** The chunks of [splitSingleText] and [splitDocuments] *)

Lemma mapGen_bare_Forall (P : Chunk -> Prop) ty (f : jsstring -> jsstring)
  (l : list jsstring) g :
  (forall t i, In t l ->
     P {| chunk_id := i; chunk_text := f t; chunk_type := ty;
          chunk_sourceId := None; chunk_sourceName := None;
          chunk_tags := [] |}) ->
  Forall P (fst (mapGen (fun t => bareChunk ty (f t)) l g)).
Proof.
  intro H. apply mapGen_Forall. intros t g0 Ht. apply H. exact Ht.
Qed.

Lemma trim_trimmedText (t : jsstring) :
  nonBlank t = true -> trimmedText (trim t).
Proof.
  intro H. split; [|apply trim_idempotent].
  now apply nonBlank_true_iff.
Qed.

Lemma trimmedChunks_shape ty pieces g :
  Forall (fun c => trimmedText (chunk_text c) /\ chunk_type c = ty)
    (fst (trimmedChunks ty pieces g)).
Proof.
  unfold trimmedChunks. apply mapGen_bare_Forall.
  intros t i Ht. apply filter_In in Ht. destruct Ht as [_ Ht]. cbn.
  split; [now apply trim_trimmedText|reflexivity].
Qed.

Lemma responseChunks_shape pieces g :
  Forall (fun c => trimmedText (chunk_text c) /\ chunk_type c = RESPONSE)
    (fst (responseChunks pieces g)).
Proof.
  unfold responseChunks.
  apply (mapGen_bare_Forall _ RESPONSE (fun t => t)).
  intros t i Ht. apply filter_In in Ht. destruct Ht as [Ht Hn].
  apply in_map_iff in Ht. destruct Ht as [p [<- _]]. cbn.
  split; [|reflexivity]. split; [|apply trim_idempotent].
  destruct (trim p); [discriminate|discriminate].
Qed.

(** X6.  For every granularity other than WHOLE, the chunks returned by
    [splitSingleText] have a text that is non-empty and free of
    surrounding white space; their tag is the requested granularity,
    except that the chunks of the TURN fallback are tagged PARAGRAPH. *)
Theorem splitSingleText_chunk_shape :
  forall txt granularity g,
    granularity <> WHOLE ->
    Forall (fun c =>
              trimmedText (chunk_text c)
              /\ (chunk_type c = granularity
                  \/ (granularity = TURN /\ chunk_type c = PARAGRAPH)))
      (fst (splitSingleText txt granularity g)).
Proof.
  intros txt granularity g NW.
  assert (forall ty pieces,
            ty = granularity \/ (granularity = TURN /\ ty = PARAGRAPH) ->
            Forall (fun c =>
                      trimmedText (chunk_text c)
                      /\ (chunk_type c = granularity
                          \/ (granularity = TURN /\ chunk_type c = PARAGRAPH)))
              (fst (trimmedChunks ty pieces g))) as T.
  { intros ty pieces Hty.
    eapply Forall_impl; [|apply trimmedChunks_shape].
    intros c [H1 H2]. split; auto. rewrite H2. exact Hty. }
  assert (granularity = RESPONSE ->
          forall pieces,
            Forall (fun c =>
                      trimmedText (chunk_text c)
                      /\ (chunk_type c = granularity
                          \/ (granularity = TURN /\ chunk_type c = PARAGRAPH)))
              (fst (responseChunks pieces g))) as R.
  { intros -> pieces.
    eapply Forall_impl; [|apply responseChunks_shape].
    intros c [H1 H2]. split; auto. }
  unfold splitSingleText, splitParagraphs.
  destruct granularity; try congruence; try (constructor; fail);
    try (apply T; left; reflexivity).
  - destruct (_ && _); [apply T; right; split; reflexivity
                       |apply T; left; reflexivity].
  - destruct (includes _ _); apply R; reflexivity.
Qed.

Lemma splitSingleText_chunk_shape_witness :
  Forall (fun c =>
            trimmedText (chunk_text c)
            /\ (chunk_type c = SENTENCE
                \/ (SENTENCE = TURN /\ chunk_type c = PARAGRAPH)))
    (fst (splitSingleText (str "Hi.  Bye! ") SENTENCE demoIds)).
Proof.
  apply (splitSingleText_chunk_shape (str "Hi.  Bye! ") SENTENCE demoIds).
  discriminate.
Defined.

(** X7.  [splitDocuments] returns no chunk at all, whatever the
    documents, for the granularities that [splitSingleText] has no branch
    for: LINE, SECTION, SUBSECTION, FILE and the two row strategies. *)
Theorem splitDocuments_unsupported :
  forall docs granularity g,
    In granularity unsupportedBySplitSingleText ->
    fst (splitDocuments docs granularity g) = [].
Proof.
  intros docs granularity g H.
  assert (forall txt g0, splitSingleText txt granularity g0 = ([], g0)) as E.
  { intros txt g0. unfold unsupportedBySplitSingleText in H. simpl in H.
    repeat (destruct H as [<-|H]; [reflexivity|]). contradiction. }
  unfold splitDocuments.
  apply (forEach_inv (fun s : list Chunk => s = [])); auto.
  intros s d g0 _ ->. rewrite bind_eq, ret_eq, E. reflexivity.
Qed.

Lemma splitDocuments_unsupported_witness :
  fst (splitDocuments [textDoc (nl "one|two")] LINE demoIds) = [].
Proof.
  apply splitDocuments_unsupported. simpl. auto.
Defined.

(** ** The n-gram lists: size, order, keys and counts *)

Lemma str_eqb_eq (a b : jsstring) : str_eqb a b = true <-> a = b.
Proof.
  revert b. induction a as [|x a IH]; intros [|y b]; simpl;
    try (split; congruence).
  rewrite andb_true_iff, IH. unfold chr_eqb. rewrite Ascii.eqb_eq.
  split; [intros [-> ->]; reflexivity|intro H; inversion H; auto].
Qed.

Lemma str_eqb_neq (a b : jsstring) : str_eqb a b = false <-> a <> b.
Proof.
  rewrite <- str_eqb_eq. destruct (str_eqb a b); split; congruence.
Qed.

Lemma insertByValue_descending x l :
  descending l -> descending (insertByValue x l).
Proof.
  induction l as [|y l IH]; intro H; [exact I|].
  cbn [insertByValue]. destruct (ng_value x <? ng_value y) eqn:E.
  - apply Nat.ltb_lt in E.
    destruct l as [|z l].
    + simpl. split; [lia|exact I].
    + cbn [descending] in H. destruct H as [H1 H2].
      specialize (IH H2). cbn [insertByValue] in *.
      destruct (ng_value x <? ng_value z) eqn:E2; cbn [descending] in *.
      * split; [exact H1|exact IH].
      * split; [lia|exact IH].
  - apply Nat.ltb_ge in E. cbn [descending]. split; [exact E|exact H].
Qed.

Lemma sortByValue_descending l : descending (sortByValue l).
Proof.
  induction l as [|x l IH]; [exact I|].
  cbn [sortByValue]. now apply insertByValue_descending.
Qed.

Lemma firstn_descending n l : descending l -> descending (firstn n l).
Proof.
  revert l. induction n as [|n IH]; intros [|x l] H; try exact I.
  cbn [firstn]. destruct l as [|y l]; [destruct n; exact I|].
  cbn [descending] in H. destruct H as [H1 H2].
  specialize (IH (y :: l) H2).
  destruct n as [|n]; [exact I|].
  cbn [firstn descending] in *. auto.
Qed.

(** X8.  [generateNgrams] returns at most 50 bigrams and at most 50
    trigrams, each list ordered by count, largest first. *)
Theorem generateNgrams_top50_descending :
  forall chunks,
    length (bigrams (generateNgrams chunks)) <= 50
    /\ length (trigrams (generateNgrams chunks)) <= 50
    /\ descending (bigrams (generateNgrams chunks))
    /\ descending (trigrams (generateNgrams chunks)).
Proof.
  intro chunks. unfold generateNgrams, format. cbn [bigrams trigrams].
  repeat split; try apply firstn_le_length;
    apply firstn_descending, sortByValue_descending.
Qed.

Lemma mapGet_mapSet_same k v (m : CountMap) : mapGet k (mapSet k v m) = Some v.
Proof.
  induction m as [|[k' v'] m IH]; simpl.
  - replace (str_eqb k k) with true; auto.
    symmetry. now apply str_eqb_eq.
  - destruct (str_eqb k' k) eqn:E; simpl; rewrite E; auto.
Qed.

Lemma mapGet_mapSet_other k k0 v (m : CountMap) :
  k0 <> k -> mapGet k (mapSet k0 v m) = mapGet k m.
Proof.
  intro N. induction m as [|[k' v'] m IH]; simpl.
  - replace (str_eqb k0 k) with false; auto.
    symmetry. now apply str_eqb_neq.
  - destruct (str_eqb k' k0) eqn:E; simpl.
    + apply str_eqb_eq in E. subst k'.
      apply str_eqb_neq in N. now rewrite N.
    + now rewrite IH.
Qed.

Lemma countOf_bump k key (m : CountMap) :
  countOf k (bump key m)
  = countOf k m + (if jsstring_eq_dec key k then 1 else 0).
Proof.
  unfold countOf, bump. destruct (jsstring_eq_dec key k) as [->|N].
  - now rewrite mapGet_mapSet_same.
  - rewrite mapGet_mapSet_other by assumption. lia.
Qed.

Lemma bigramLoop_cons a b tokens counts :
  bigramLoop (a :: b :: tokens) counts
  = bigramLoop (b :: tokens)
      (if negb (isStopWord a) && negb (isStopWord b)
       then bump (a ++ SP ++ b) counts else counts).
Proof. reflexivity. Qed.

Lemma bigramsOf_cons a b tokens :
  bigramsOf (a :: b :: tokens)
  = (if negb (isStopWord a) && negb (isStopWord b)
     then [a ++ SP ++ b] else [])
    ++ bigramsOf (b :: tokens).
Proof. reflexivity. Qed.

Lemma trigramLoop_cons a b c tokens counts :
  trigramLoop (a :: b :: c :: tokens) counts
  = trigramLoop (b :: c :: tokens)
      (if negb (isStopWord a) && negb (isStopWord b) && negb (isStopWord c)
       then bump (a ++ SP ++ b ++ SP ++ c) counts else counts).
Proof. reflexivity. Qed.

Lemma trigramsOf_cons a b c tokens :
  trigramsOf (a :: b :: c :: tokens)
  = (if negb (isStopWord a) && negb (isStopWord b) && negb (isStopWord c)
     then [a ++ SP ++ b ++ SP ++ c] else [])
    ++ trigramsOf (b :: c :: tokens).
Proof. reflexivity. Qed.

Lemma bigramLoop_count k (tokens : list jsstring) :
  forall counts,
    countOf k (bigramLoop tokens counts)
    = countOf k counts + occurrencesOf k (bigramsOf tokens).
Proof.
  unfold occurrencesOf.
  induction tokens as [|a tokens IH]; intro counts; [simpl; lia|].
  destruct tokens as [|b tokens]; [simpl; lia|].
  rewrite bigramLoop_cons, bigramsOf_cons, IH, count_occ_app.
  destruct (negb (isStopWord a) && negb (isStopWord b)).
  - rewrite countOf_bump. cbn [count_occ].
    destruct (jsstring_eq_dec (a ++ SP ++ b) k); symmetry; apply Nat.add_assoc.
  - reflexivity.
Qed.

Lemma trigramLoop_count k (tokens : list jsstring) :
  forall counts,
    countOf k (trigramLoop tokens counts)
    = countOf k counts + occurrencesOf k (trigramsOf tokens).
Proof.
  unfold occurrencesOf.
  induction tokens as [|a tokens IH]; intro counts; [simpl; lia|].
  destruct tokens as [|b [|c tokens]]; try (simpl; lia).
  rewrite trigramLoop_cons, trigramsOf_cons, IH, count_occ_app.
  destruct (negb (isStopWord a) && negb (isStopWord b) && negb (isStopWord c)).
  - rewrite countOf_bump. cbn [count_occ].
    destruct (jsstring_eq_dec (a ++ SP ++ b ++ SP ++ c) k);
      symmetry; apply Nat.add_assoc.
  - reflexivity.
Qed.

Lemma ngramCounts_count k (chunks : list Chunk) :
  countOf k (fst (ngramCounts chunks)) = occurrencesOf k (allBigrams chunks)
  /\ countOf k (snd (ngramCounts chunks))
     = occurrencesOf k (allTrigrams chunks).
Proof.
  unfold ngramCounts, allBigrams, allTrigrams, occurrencesOf.
  assert (forall st : CountMap * CountMap,
            countOf k
              (fst (fold_left
                      (fun (st : CountMap * CountMap) chunk =>
                         let tokens := tokenize (chunk_text chunk) in
                         (bigramLoop tokens (fst st),
                          trigramLoop tokens (snd st))) chunks st))
            = countOf k (fst st)
              + count_occ jsstring_eq_dec
                  (flat_map (fun c => bigramsOf (tokenize (chunk_text c)))
                     chunks) k
            /\ countOf k
                 (snd (fold_left
                         (fun (st : CountMap * CountMap) chunk =>
                            let tokens := tokenize (chunk_text chunk) in
                            (bigramLoop tokens (fst st),
                             trigramLoop tokens (snd st))) chunks st))
               = countOf k (snd st)
                 + count_occ jsstring_eq_dec
                     (flat_map (fun c => trigramsOf (tokenize (chunk_text c)))
                        chunks) k) as G.
  { induction chunks as [|c chunks IH]; intro st.
    - cbn [fold_left flat_map count_occ]. now rewrite !Nat.add_0_r.
    - cbn [fold_left flat_map]. cbv beta zeta in *.
      destruct (IH
        (bigramLoop (tokenize (chunk_text c)) (fst st),
         trigramLoop (tokenize (chunk_text c)) (snd st))) as [E1 E2].
      rewrite E1, E2. cbn [fst snd].
      rewrite bigramLoop_count, trigramLoop_count, !count_occ_app.
      unfold occurrencesOf. rewrite !Nat.add_assoc. auto. }
  destruct (G ([], [])) as [E1 E2].
  split; [etransitivity; [exact E1|]|etransitivity; [exact E2|]];
    reflexivity.
Qed.

Lemma mapSet_keys_same k v (m : CountMap) :
  In k (map fst m) -> map fst (mapSet k v m) = map fst m.
Proof.
  induction m as [|[k' v'] m IH]; intro H; [contradiction|].
  simpl. destruct (str_eqb k' k) eqn:E; [reflexivity|].
  simpl. f_equal. apply IH. destruct H as [H|H]; auto.
  simpl in H. apply str_eqb_neq in E. congruence.
Qed.

Lemma mapSet_keys_new k v (m : CountMap) :
  ~ In k (map fst m) -> map fst (mapSet k v m) = map fst m ++ [k].
Proof.
  induction m as [|[k' v'] m IH]; intro H; [reflexivity|].
  simpl. destruct (str_eqb k' k) eqn:E.
  - apply str_eqb_eq in E. subst k'. simpl in H. tauto.
  - simpl. f_equal. apply IH. simpl in H. tauto.
Qed.

Lemma mapSet_values (P : nat -> Prop) k v (m : CountMap) :
  P v -> Forall (fun e => P (snd e)) m ->
  Forall (fun e => P (snd e)) (mapSet k v m).
Proof.
  intros Hv. induction 1 as [|[k' v'] m Hk Hm IH]; simpl.
  - repeat constructor. exact Hv.
  - destruct (str_eqb k' k); constructor; auto.
Qed.

Lemma bump_wellFormed key (m : CountMap) :
  wellFormedCounts m -> wellFormedCounts (bump key m).
Proof.
  intros [H1 H2]. unfold bump. split.
  - destruct (in_dec jsstring_eq_dec key (map fst m)) as [I|N].
    + now rewrite mapSet_keys_same.
    + rewrite mapSet_keys_new by assumption.
      apply NoDup_app; [exact H1|repeat constructor; auto|].
      intros x Hx [<-|[]]. auto.
  - apply (mapSet_values (fun v => 1 <= v)); [lia|exact H2].
Qed.

Lemma bigramLoop_wellFormed (tokens : list jsstring) :
  forall counts,
    wellFormedCounts counts -> wellFormedCounts (bigramLoop tokens counts).
Proof.
  induction tokens as [|a tokens IH]; intros counts H; [exact H|].
  destruct tokens as [|b tokens]; [exact H|].
  rewrite bigramLoop_cons. apply IH.
  destruct (_ && _); [now apply bump_wellFormed|exact H].
Qed.

Lemma trigramLoop_wellFormed (tokens : list jsstring) :
  forall counts,
    wellFormedCounts counts -> wellFormedCounts (trigramLoop tokens counts).
Proof.
  induction tokens as [|a tokens IH]; intros counts H; [exact H|].
  destruct tokens as [|b [|c tokens]]; try exact H.
  rewrite trigramLoop_cons. apply IH.
  destruct (_ && _); [now apply bump_wellFormed|exact H].
Qed.

Lemma ngramCounts_wellFormed (chunks : list Chunk) :
  wellFormedCounts (fst (ngramCounts chunks))
  /\ wellFormedCounts (snd (ngramCounts chunks)).
Proof.
  unfold ngramCounts.
  assert (wellFormedCounts (fst (([], []) : CountMap * CountMap))
          /\ wellFormedCounts (snd (([], []) : CountMap * CountMap))) as H
    by (split; split; constructor).
  revert H. generalize (([], []) : CountMap * CountMap).
  induction chunks as [|c chunks IH]; intros st [H1 H2]; [now split|].
  cbn [fold_left]. apply IH. cbn [fst snd]. split.
  - now apply bigramLoop_wellFormed.
  - now apply trigramLoop_wellFormed.
Qed.

Lemma insertByValue_perm x l : Permutation (x :: l) (insertByValue x l).
Proof.
  induction l as [|y l IH]; [reflexivity|].
  cbn [insertByValue]. destruct (ng_value x <? ng_value y); [|reflexivity].
  rewrite perm_swap. now constructor.
Qed.

Lemma sortByValue_perm l : Permutation l (sortByValue l).
Proof.
  induction l as [|x l IH]; [reflexivity|].
  cbn [sortByValue]. rewrite <- insertByValue_perm. now constructor.
Qed.

Lemma In_firstn {A : Type} (x : A) n (l : list A) :
  In x (firstn n l) -> In x l.
Proof.
  revert l. induction n as [|n IH]; intros [|y l] H; simpl in *;
    try contradiction.
  destruct H as [H|H]; auto.
Qed.

Lemma NoDup_firstn {A : Type} n (l : list A) : NoDup l -> NoDup (firstn n l).
Proof.
  intro H. revert n. induction H as [|x l Hx Hl IH]; intros [|n]; simpl;
    try constructor; auto.
  intro I. apply Hx. eapply In_firstn. exact I.
Qed.

Lemma format_In (m : CountMap) ty ng :
  In ng (format m ty) -> In (ng_text ng, ng_value ng) m /\ ng_type ng = ty.
Proof.
  unfold format. intro H. apply In_firstn in H.
  apply (Permutation_in _ (Permutation_sym (sortByValue_perm _))) in H.
  apply in_map_iff in H. destruct H as [[k v] [<- H]]. simpl. auto.
Qed.

Lemma format_NoDup (m : CountMap) ty :
  NoDup (map fst m) -> NoDup (map ng_text (format m ty)).
Proof.
  intro H. unfold format. rewrite <- firstn_map. apply NoDup_firstn.
  eapply Permutation_NoDup.
  - apply Permutation_map, sortByValue_perm.
  - rewrite map_map. simpl. exact H.
Qed.

Lemma mapGet_In k v (m : CountMap) :
  NoDup (map fst m) -> In (k, v) m -> mapGet k m = Some v.
Proof.
  induction m as [|[k' v'] m IH]; intros N H; [contradiction|].
  simpl in *. inversion N as [|? ? N1 N2]; subst.
  destruct H as [H|H].
  - inversion H; subst. replace (str_eqb k k) with true; auto.
    symmetry. now apply str_eqb_eq.
  - destruct (str_eqb k' k) eqn:E.
    + apply str_eqb_eq in E. subst k'. exfalso. apply N1.
      apply in_map_iff. now exists (k, v).
    + now apply IH.
Qed.

(** X9.  In the result of [generateNgrams] no text appears twice in a
    list, and the value of every entry is the number of times that
    bigram (trigram) of stop-word-free adjacent tokens occurs in the
    chunks; it is at least one. *)
Theorem generateNgrams_counts :
  forall chunks,
    NoDup (map ng_text (bigrams (generateNgrams chunks)))
    /\ NoDup (map ng_text (trigrams (generateNgrams chunks)))
    /\ Forall (fun ng =>
                 ng_value ng = occurrencesOf (ng_text ng) (allBigrams chunks)
                 /\ 1 <= ng_value ng /\ ng_type ng = bigram)
         (bigrams (generateNgrams chunks))
    /\ Forall (fun ng =>
                 ng_value ng = occurrencesOf (ng_text ng) (allTrigrams chunks)
                 /\ 1 <= ng_value ng /\ ng_type ng = trigram)
         (trigrams (generateNgrams chunks)).
Proof.
  intro chunks. unfold generateNgrams. cbn [bigrams trigrams].
  destruct (ngramCounts_wellFormed chunks) as [[N1 P1] [N2 P2]].
  split; [now apply format_NoDup|]. split; [now apply format_NoDup|].
  split; apply Forall_forall; intros ng H; apply format_In in H;
    destruct H as [H T].
  - destruct (ngramCounts_count (ng_text ng) chunks) as [E _].
    unfold countOf in E. rewrite (mapGet_In _ _ _ N1 H) in E. simpl in E.
    rewrite Forall_forall in P1. specialize (P1 _ H). simpl in P1. auto.
  - destruct (ngramCounts_count (ng_text ng) chunks) as [_ E].
    unfold countOf in E. rewrite (mapGet_In _ _ _ N2 H) in E. simpl in E.
    rewrite Forall_forall in P2. specialize (P2 _ H). simpl in P2. auto.
Qed.

(** ** [generateKWIC]: one record per occurrence *)

Lemma occurrencesFrom_cons p c s pos :
  occurrencesFrom p (c :: s) pos
  = (if startsWith p (c :: s) then [pos] else [])
    ++ occurrencesFrom p s (S pos).
Proof. reflexivity. Qed.

Lemma findFrom_none_occurrences (p s : jsstring) :
  forall pos, findFrom p s pos = None -> occurrencesFrom p s pos = [].
Proof.
  induction s as [|c s IH]; intros pos H; cbn [findFrom] in H.
  - cbn [occurrencesFrom]. destruct (startsWith p []); [discriminate|auto].
  - rewrite occurrencesFrom_cons.
    destruct (startsWith p (c :: s)); [discriminate|]. now apply IH.
Qed.

Lemma findFrom_some_occurrences (p s : jsstring) :
  p <> [] ->
  forall pos k,
    findFrom p s pos = Some k ->
    occurrencesFrom p s pos
    = k :: occurrencesFrom p (skipn (S (k - pos)) s) (S k).
Proof.
  intro N. induction s as [|c s IH]; intros pos k H; cbn [findFrom] in H.
  - destruct p; [congruence|discriminate].
  - rewrite occurrencesFrom_cons.
    destruct (startsWith p (c :: s)) eqn:E.
    + inversion H; subst. rewrite Nat.sub_diag. reflexivity.
    + pose proof (findFrom_bounds _ _ _ _ H) as [B _].
      rewrite (IH _ _ H). cbn [app].
      replace (S (k - pos)) with (S (S (k - S pos))) by lia.
      reflexivity.
Qed.

Lemma kwicLoop_occurrences chunk keyword w :
  keyword <> [] ->
  forall fuel start results,
    start <= length (chunk_text chunk) ->
    length (chunk_text chunk) - start < fuel ->
    kwicLoop fuel chunk keyword w start results
    = Some (results
            ++ map (kwicRow chunk keyword w)
                 (occurrencesFrom (toLowerCase keyword)
                    (skipn start (toLowerCase (chunk_text chunk))) start)).
Proof.
  intro N. induction fuel as [|fuel IH]; intros start results L F; [lia|].
  cbn [kwicLoop].
  destruct (indexOf (toLowerCase keyword) (toLowerCase (chunk_text chunk))
              start) as [k|] eqn:E.
  - pose proof (indexOf_bounds _ _ _ _ (toLowerCase_not_nil _ N) E) as B.
    rewrite !toLowerCase_length in B.
    assert (0 < length keyword) as P
      by (destruct keyword; simpl; [congruence|lia]).
    unfold indexOf in E. rewrite toLowerCase_length in E.
    rewrite Nat.min_l in E by lia.
    rewrite (findFrom_some_occurrences _ _ (toLowerCase_not_nil _ N) _ _ E).
    rewrite skipn_skipn.
    replace (S (k - start) + start) with (k + 1) by lia.
    rewrite IH by lia. cbn [map]. rewrite <- app_assoc.
    replace (S k) with (k + 1) by lia. reflexivity.
  - unfold indexOf in E. rewrite toLowerCase_length in E.
    rewrite Nat.min_l in E by lia.
    rewrite (findFrom_none_occurrences _ _ _ E). cbn [map].
    now rewrite app_nil_r.
Qed.

Lemma kwicChunks_occurrences keyword w :
  keyword <> [] ->
  forall fuel chunks results,
    Forall (fun c => length (chunk_text c) < fuel) chunks ->
    kwicChunks fuel chunks keyword w results
    = Some (results
            ++ flat_map
                 (fun c =>
                    map (kwicRow c keyword w)
                      (occurrences (toLowerCase keyword)
                         (toLowerCase (chunk_text c)))) chunks).
Proof.
  intros N fuel chunks. induction chunks as [|c chunks IH];
    intros results F; cbn [kwicChunks flat_map].
  - now rewrite app_nil_r.
  - inversion F as [|? ? Hc Hcs]; subst.
    rewrite (kwicLoop_occurrences c keyword w N) by lia.
    rewrite IH by assumption. cbn [skipn]. unfold occurrences.
    now rewrite app_assoc.
Qed.

(** X10.  For a non-empty keyword and enough iterations, [generateKWIC]
    returns exactly one record per position at which the lower-cased
    keyword occurs in the lower-cased text of a chunk, overlapping
    occurrences included, chunk after chunk and in increasing position
    within a chunk. *)
Theorem generateKWIC_occurrences :
  forall chunks keyword windowChars fuel,
    keyword <> [] ->
    Forall (fun c => length (chunk_text c) < fuel) chunks ->
    generateKWIC fuel chunks keyword windowChars
    = Some (flat_map
              (fun c =>
                 map (kwicRow c keyword windowChars)
                   (occurrences (toLowerCase keyword)
                      (toLowerCase (chunk_text c)))) chunks).
Proof.
  intros chunks keyword w fuel N F. unfold generateKWIC.
  now rewrite kwicChunks_occurrences.
Qed.

Lemma generateKWIC_occurrences_witness :
  generateKWIC 4 [chunkOf (str "aAa")] (str "aa") 1
  = Some (map (kwicRow (chunkOf (str "aAa")) (str "aa") 1) [0; 1]).
Proof.
  apply (generateKWIC_occurrences [chunkOf (str "aAa")] (str "aa") 1 4).
  - discriminate.
  - repeat constructor.
Defined.

Lemma substring_from (s : jsstring) (a b : nat) :
  a <= b ->
  substring s (Z.of_nat a) (Z.of_nat b) = firstn (b - a) (skipn a s).
Proof.
  intro H. unfold substring, clampIdx. cbv zeta. rewrite !Nat2Z.id.
  destruct (le_lt_dec (length s) a) as [L|L].
  - rewrite (Nat.min_r a), (Nat.min_r b) by lia.
    rewrite Nat.min_id, Nat.max_id, Nat.sub_diag.
    rewrite (skipn_all2 (n := a)) by lia. now rewrite firstn_nil.
  - rewrite (Nat.min_l a (length s)) by lia.
    destruct (le_lt_dec b (length s)) as [B|B].
    + rewrite (Nat.min_l b (length s)) by lia.
      now rewrite Nat.min_l, Nat.max_r by lia.
    + rewrite (Nat.min_r b (length s)) by lia.
      rewrite Nat.min_l, Nat.max_r by lia.
      rewrite !firstn_all2; auto; rewrite length_skipn; lia.
Qed.




(** X12.  When the keyword found at a position lies within the text and
    the window is at least as long as the text, the left context, the
    keyword and the right context of the record make up the whole text
    of the chunk, without ellipsis. *)
Theorem kwicRow_whole_text :
  forall chunk keyword windowChars k,
    k + length keyword <= length (chunk_text chunk) ->
    (Z.of_nat (length (chunk_text chunk)) <= windowChars)%Z ->
    let r := kwicRow chunk keyword windowChars k in
    kw_left r ++ kw_keyword r ++ kw_right r = chunk_text chunk.
Proof.
  intros chunk keyword w k L W. cbv zeta.
  unfold kwicRow. cbn [kw_keyword kw_left kw_right].
  set (txt := chunk_text chunk) in *.
  replace (Z.max 0 (Z.of_nat k - w)) with (Z.of_nat 0) by lia.
  replace (Z.min (Z.of_nat (length txt))
             (Z.of_nat k + Z.of_nat (length keyword) + w))
    with (Z.of_nat (length txt)) by lia.
  rewrite <- Nat2Z.inj_add.
  rewrite !substring_from by lia.
  replace (0 <? Z.of_nat 0)%Z with false by reflexivity.
  rewrite Z.ltb_irrefl. cbn [app skipn]. rewrite app_nil_r, Nat.sub_0_r.
  replace (k + length keyword - k) with (length keyword) by lia.
  rewrite (firstn_all2 (skipn (k + length keyword) txt))
    by (rewrite length_skipn; lia).
  rewrite <- (firstn_skipn k txt) at 4.
  f_equal.
  rewrite <- (firstn_skipn (length keyword) (skipn k txt)) at 2.
  f_equal. rewrite skipn_skipn. f_equal. lia.
Qed.

Lemma kwicRow_whole_text_witness :
  kw_left (kwicRow catChunk (str "cat") 20 2)
  ++ kw_keyword (kwicRow catChunk (str "cat") 20 2)
  ++ kw_right (kwicRow catChunk (str "cat") 20 2)
  = chunk_text catChunk.
Proof.
  apply (kwicRow_whole_text catChunk (str "cat") 20 2).
  - vm_compute. lia.
  - vm_compute. discriminate.
Defined.

(** ** Lines and fields of a table *)

Lemma chr_eqb_sym (a b : ascii) : chr_eqb a b = chr_eqb b a.
Proof. apply Ascii.eqb_sym. Qed.

Lemma scan_without_match M (s : jsstring) :
  forall prev,
    testLoop M prev s = false -> scanLoop M prev s 0 = map inl s.
Proof.
  induction s as [|c s IH]; intros prev H; cbn [scanLoop testLoop map] in *.
  - destruct (M prev []); [discriminate|reflexivity].
  - destruct (M prev (c :: s)); [discriminate|]. now rewrite IH.
Qed.

Lemma substitute_inl rep (s : jsstring) : substitute rep (map inl s) = s.
Proof. induction s as [|c s IH]; simpl; congruence. Qed.

Lemma replace_without_match multiline r rep (s : jsstring) :
  test multiline r s = false -> replace_global multiline r rep s = s.
Proof.
  intro H. unfold replace_global, scan.
  rewrite scan_without_match by exact H. apply substitute_inl.
Qed.

Lemma outerQuotes_no_match (s : jsstring) :
  forall prev, quoteFree s -> testLoop (matchAt false re_outerQuotes) prev s = false.
Proof.
  induction s as [|c s IH]; intros prev H; cbn [testLoop].
  - unfold matchAt, re_outerQuotes. cbn [run].
    destruct (atBol false prev); reflexivity.
  - inversion H as [|? ? Hc Hs]; subst.
    assert (matchAt false re_outerQuotes prev (c :: s) = None) as E.
    { unfold matchAt, re_outerQuotes. cbn [run]. unfold isChr.
      rewrite chr_eqb_sym, Hc. destruct (atBol false prev); reflexivity. }
    rewrite E. now apply IH.
Qed.

Lemma doubledQuotes_no_match (s : jsstring) :
  forall prev,
    quoteFree s ->
    testLoop (matchAt false (Lit [DQUOTE; DQUOTE])) prev s = false.
Proof.
  induction s as [|c s IH]; intros prev H; cbn [testLoop].
  - reflexivity.
  - inversion H as [|? ? Hc Hs]; subst.
    assert (matchAt false (Lit [DQUOTE; DQUOTE]) prev (c :: s) = None) as E.
    { unfold matchAt. cbn [Lit run]. unfold isChr.
      rewrite chr_eqb_sym, Hc. reflexivity. }
    rewrite E. now apply IH.
Qed.

Lemma cleanField_quoteFree (current : jsstring) :
  quoteFree current -> cleanField current = trim current.
Proof.
  intro H. unfold cleanField, stripQuotes.
  assert (quoteFree (trim current)) as T by now apply Forall_trim.
  rewrite (replace_without_match false re_outerQuotes)
    by (apply outerQuotes_no_match; exact T).
  apply replace_without_match, doubledQuotes_no_match, T.
Qed.

Lemma literal_COMMA_cons prev c s :
  literal [COMMA] prev (c :: s) = if chr_eqb c COMMA then Some 1 else None.
Proof.
  unfold literal. cbn [startsWith]. rewrite andb_true_r, chr_eqb_sym.
  now destruct (chr_eqb c COMMA).
Qed.

Lemma splitCSVLineLoop_plain (line : jsstring) :
  forall prev prev' current matches,
    quoteFree line -> quoteFree current ->
    splitCSVLineLoop prev line false current matches
    = matches
      ++ map trim (splitLoop (literal [COMMA]) false prev' line (rev current) 0).
Proof.
  induction line as [|c line IH]; intros prev prev' current matches HL HC;
    cbn [splitCSVLineLoop splitLoop].
  - rewrite rev_involutive. cbn [map]. now rewrite cleanField_quoteFree.
  - inversion HL as [|? ? Hc Hl]; subst. cbv zeta.
    rewrite Hc. cbn [andb negb]. rewrite andb_true_r, literal_COMMA_cons.
    destruct (chr_eqb c COMMA).
    + rewrite (IH _ (Some c)) by (auto; constructor).
      rewrite rev_involutive, cleanField_quoteFree by assumption.
      cbn [app map rev]. now rewrite <- app_assoc.
    + rewrite (IH _ (Some c)); auto.
      * now rewrite rev_app_distr.
      * apply Forall_app; split; auto.
Qed.

(** X13.  On a line without double quotes, [splitCSVLine] is plain
    splitting at commas followed by trimming of every field. *)
Theorem splitCSVLine_without_quotes :
  forall line,
    quoteFree line ->
    splitCSVLine line = map trim (split_string [COMMA] line).
Proof.
  intros line H. unfold splitCSVLine.
  rewrite (splitCSVLineLoop_plain line None None [] []) by (auto; constructor).
  destruct line; reflexivity.
Qed.

Lemma splitCSVLine_without_quotes_witness :
  splitCSVLine (str " a , b,,c ")
  = map trim (split_string [COMMA] (str " a , b,,c ")).
Proof.
  apply splitCSVLine_without_quotes. repeat constructor.
Defined.

(** X14.  Every non-blank line after the first gives exactly one row:
    the table has one row less than the content has non-blank lines (none
    when there are fewer than two), and [totalRows] is the number of
    rows. *)
Theorem parseCSVStructure_row_count :
  forall content,
    length (rows (parseCSVStructure content))
    = length (nonBlankLines content) - 1
    /\ totalRows (parseCSVStructure content)
       = length (rows (parseCSVStructure content)).
Proof.
  intro content. rewrite <- csvLines_count. unfold parseCSVStructure.
  cbv zeta. destruct (length (csvLines content) <? 2) eqn:E.
  - apply Nat.ltb_lt in E. simpl. split; [lia|reflexivity].
  - cbn [rows totalRows]. rewrite length_map. split; [|reflexivity].
    destruct (csvLines content); simpl; lia.
Qed.

Lemma toCRLF_cons c s :
  toCRLF (c :: s) = (if chr_eqb LF c then [CR; LF] else [c]) ++ toCRLF s.
Proof. reflexivity. Qed.

Lemma newline_split_CRLF (s : jsstring) :
  forall prev prev' acc,
    noCR s ->
    splitLoop (matchAt false re_newline) false prev (toCRLF s) acc 0
    = splitLoop (matchAt false re_newline) false prev' s acc 0.
Proof.
  induction s as [|c s IH]; intros prev prev' acc H; [reflexivity|].
  inversion H as [|? ? Hc Hs]; subst.
  rewrite toCRLF_cons. destruct (chr_eqb LF c) eqn:EL.
  - apply chr_eqb_eq in EL. subst c.
    cbn [app splitLoop]. rewrite !newline_at.
    replace (chr_eqb LF CR) with false by reflexivity.
    replace (chr_eqb CR CR) with true by reflexivity.
    replace (chr_eqb LF LF) with true by reflexivity.
    cbn [app]. f_equal. apply IH. exact Hs.
  - cbn [app splitLoop]. rewrite !newline_at, EL, Hc. apply IH. exact Hs.
Qed.

(** X15.  A content whose lines end with carriage return and line feed
    parses to the same table as the same content with line feeds
    alone. *)
Theorem parseCSVStructure_CRLF :
  forall content,
    noCR content ->
    parseCSVStructure (toCRLF content) = parseCSVStructure content.
Proof.
  intros content H.
  assert (csvLines (toCRLF content) = csvLines content) as E.
  { unfold csvLines, split_regex, splitWith. f_equal.
    destruct content as [|c content]; [reflexivity|].
    rewrite toCRLF_cons.
    destruct (chr_eqb LF c) eqn:EL; cbn [app];
      rewrite <- (newline_split_CRLF (c :: content) None None [] H);
      rewrite toCRLF_cons, EL; reflexivity. }
  unfold parseCSVStructure. now rewrite E.
Qed.

Lemma parseCSVStructure_CRLF_witness :
  parseCSVStructure (toCRLF (nl "a,b|1,2||3,4|"))
  = parseCSVStructure (nl "a,b|1,2||3,4|").
Proof.
  apply parseCSVStructure_CRLF. repeat constructor.
Defined.

(** ** The column sets of [guessCSVConfig] *)

Lemma guessLoop_context rws hs :
  forall i cfg,
    contextCols (guessLoop rws hs i cfg)
    = contextCols cfg ++ contextFrom rws hs i.
Proof.
  induction hs as [|h hs IH]; intros i cfg; simpl.
  - now rewrite app_nil_r.
  - rewrite IH. destruct (columnRole rws h i); simpl; auto.
    now rewrite <- app_assoc.
Qed.

Lemma analyzeFrom_In rws hs :
  forall i j,
    In j (analyzeFrom rws hs i) ->
    i <= j < i + length hs
    /\ exists h, nth_error hs (j - i) = Some h
                 /\ columnRole rws h j = Analyze.
Proof.
  induction hs as [|h hs IH]; intros i j H; [contradiction|].
  cbn [analyzeFrom] in H.
  assert (In j (analyzeFrom rws hs (S i)) ->
          i <= j < i + length (h :: hs)
          /\ exists h0, nth_error (h :: hs) (j - i) = Some h0
                        /\ columnRole rws h0 j = Analyze) as T.
  { intro H'. apply IH in H'. destruct H' as [B [h0 [N R]]].
    split; [simpl; lia|]. exists h0.
    replace (j - i) with (S (j - S i)) by lia. auto. }
  destruct (columnRole rws h i) eqn:E; auto.
  destruct H as [<-|H]; auto.
  split; [simpl; lia|]. exists h. rewrite Nat.sub_diag. auto.
Qed.

Lemma contextFrom_In rws hs :
  forall i j,
    In j (contextFrom rws hs i) ->
    i <= j < i + length hs
    /\ exists h, nth_error hs (j - i) = Some h
                 /\ columnRole rws h j = Context.
Proof.
  induction hs as [|h hs IH]; intros i j H; [contradiction|].
  cbn [contextFrom] in H.
  assert (In j (contextFrom rws hs (S i)) ->
          i <= j < i + length (h :: hs)
          /\ exists h0, nth_error (h :: hs) (j - i) = Some h0
                        /\ columnRole rws h0 j = Context) as T.
  { intro H'. apply IH in H'. destruct H' as [B [h0 [N R]]].
    split; [simpl; lia|]. exists h0.
    replace (j - i) with (S (j - S i)) by lia. auto. }
  destruct (columnRole rws h i) eqn:E; auto.
  destruct H as [<-|H]; auto.
  split; [simpl; lia|]. exists h. rewrite Nat.sub_diag. auto.
Qed.

Lemma analyzeFrom_NoDup rws hs : forall i, NoDup (analyzeFrom rws hs i).
Proof.
  induction hs as [|h hs IH]; intro i; cbn [analyzeFrom]; [constructor|].
  destruct (columnRole rws h i); auto.
  constructor; auto. intro H. apply analyzeFrom_In in H. lia.
Qed.

Lemma contextFrom_NoDup rws hs : forall i, NoDup (contextFrom rws hs i).
Proof.
  induction hs as [|h hs IH]; intro i; cbn [contextFrom]; [constructor|].
  destruct (columnRole rws h i); auto.
  constructor; auto. intro H. apply contextFrom_In in H. lia.
Qed.

(** X16.  The two column sets returned by [guessCSVConfig] hold indices
    of header columns only, each at most once.  A column is in both sets
    only when no column qualified as a target and the last column was
    forced into the analyze set. *)
Theorem guessCSVConfig_indices :
  forall structure,
    let r := guessCSVConfig structure in
    let n := length (headers structure) in
    Forall (fun i => i < n) (analyzeCols r)
    /\ Forall (fun i => i < n) (contextCols r)
    /\ NoDup (analyzeCols r) /\ NoDup (contextCols r)
    /\ forall i, In i (analyzeCols r) -> In i (contextCols r) ->
                 analyzeCols r = [n - 1]
                 /\ analyzeFrom (rows structure) (headers structure) 0 = [].
Proof.
  intro structure. cbv zeta. unfold guessCSVConfig. cbv zeta.
  pose proof (guessLoop_analyze (rows structure) (headers structure) 0
                {| analyzeCols := []; contextCols := [] |}) as EA.
  pose proof (guessLoop_context (rows structure) (headers structure) 0
                {| analyzeCols := []; contextCols := [] |}) as EC.
  cbn [analyzeCols contextCols app] in EA, EC.
  destruct (guessLoop (rows structure) (headers structure) 0
              {| analyzeCols := []; contextCols := [] |}) as [ac cc].
  cbn [analyzeCols contextCols] in *. subst ac cc.
  set (hs := headers structure). set (rws := rows structure).
  assert (Forall (fun i => i < length hs) (analyzeFrom rws hs 0)) as FA.
  { apply Forall_forall. intros i H. apply analyzeFrom_In in H. lia. }
  assert (Forall (fun i => i < length hs) (contextFrom rws hs 0)) as FC.
  { apply Forall_forall. intros i H. apply contextFrom_In in H. lia. }
  destruct (analyzeFrom rws hs 0) as [|a l] eqn:E.
  - cbn [length Nat.eqb andb].
    destruct (0 <? length hs) eqn:L; cbn [analyzeCols contextCols app].
    + apply Nat.ltb_lt in L.
      repeat split; auto using contextFrom_NoDup.
      * repeat constructor. lia.
      * repeat constructor. auto.
    + repeat split; auto using contextFrom_NoDup; try constructor;
        contradiction.
  - cbn [length Nat.eqb andb analyzeCols contextCols].
    repeat split; auto using contextFrom_NoDup.
    + rewrite <- E. apply analyzeFrom_NoDup.
    + exfalso. rewrite <- E in H.
      apply analyzeFrom_In in H. apply contextFrom_In in H0.
      destruct H as [_ [h [N1 R1]]]. destruct H0 as [_ [h' [N2 R2]]].
      congruence.
    + exfalso. rewrite <- E in H.
      apply analyzeFrom_In in H. apply contextFrom_In in H0.
      destruct H as [_ [h [N1 R1]]]. destruct H0 as [_ [h' [N2 R2]]].
      congruence.
Qed.

(** ** The two ingestion paths *)

Lemma parse_totalRows (content : jsstring) :
  totalRows (parseCSVStructure content)
  = length (rows (parseCSVStructure content)).
Proof.
  unfold parseCSVStructure. cbv zeta.
  destruct (length (csvLines content) <? 2); reflexivity.
Qed.

Lemma classify_agree (file : File) :
  extIs (extensionOf (file_name file)) "csv" = false ->
  str_eqb (file_type file) (str "text/csv") = false ->
  extIs (extensionOf (file_name file)) "md" = false ->
  extIs (extensionOf (file_name file)) "markdown" = false ->
  classifyFile file = classifyManualText (file_text file).
Proof.
  intros H1 H2 H3 H4. unfold classifyFile, classifyManualText. cbv zeta.
  rewrite H1, H2, H3, H4. cbn [orb].
  rewrite parse_totalRows.
  destruct (2 <=? length (headers (parseCSVStructure (file_text file))));
    cbn [andb]; [|destruct (hasMarkdownHeaders _); reflexivity].
  destruct (0 <? length (rows (parseCSVStructure (file_text file))));
    cbn [andb]; [|destruct (hasMarkdownHeaders _); reflexivity].
  rewrite andb_true_r.
  destruct (consistentRows _ _); cbn [DocType_eqb negb];
    [reflexivity|destruct (hasMarkdownHeaders _); reflexivity].
Qed.

(** X17.  For a file whose name and media type tell nothing (the
    extension is none of csv, md, markdown and the type is not text/csv),
    [ingestFile] gives the same content, kind and stored headers as
    [ingestManualText] gives for its text; the identifiers are drawn
    independently. *)
Theorem ingestFile_as_manual_text :
  forall file g1 g2,
    extIs (extensionOf (file_name file)) "csv" = false ->
    str_eqb (file_type file) (str "text/csv") = false ->
    extIs (extensionOf (file_name file)) "md" = false ->
    extIs (extensionOf (file_name file)) "markdown" = false ->
    let d := fst (ingestFile file g1) in
    let m := fst (ingestManualText (file_text file) g2) in
    doc_content d = doc_content m
    /\ doc_type d = doc_type m /\ doc_csvHeaders d = doc_csvHeaders m.
Proof.
  intros file g1 g2 H1 H2 H3 H4. cbv zeta.
  pose proof (classify_agree file H1 H2 H3 H4) as E.
  cbn [ingestFile ingestManualText bind generateId ret fst snd].
  cbv zeta. cbn [fst doc_id doc_content doc_type doc_csvHeaders].
  rewrite E. repeat split.
  destruct (DocType_eqb (classifyManualText (file_text file)) csv) eqn:T;
    [|reflexivity].
  apply DocType_eqb_csv in T. unfold classifyManualText in T. cbv zeta in T.
  destruct (2 <=? length (headers (parseCSVStructure (file_text file))))
    eqn:L.
  - apply Nat.leb_le in L.
    destruct (headers (parseCSVStructure (file_text file))); simpl in *;
      [lia|reflexivity].
  - cbn [andb] in T. destruct (hasMarkdownHeaders _); discriminate.
Qed.

Lemma ingestFile_as_manual_text_witness :
  doc_type
    (fst (ingestFile {| file_name := str "notes.txt"; file_type := [];
                        file_text := nl "# Title|body" |} demoIds))
  = doc_type (fst (ingestManualText (nl "# Title|body")
                     (advance demoIds 5))).
Proof.
  pose proof (ingestFile_as_manual_text
                {| file_name := str "notes.txt"; file_type := [];
                   file_text := nl "# Title|body" |} demoIds
                (advance demoIds 5)
                eq_refl eq_refl eq_refl eq_refl) as [_ [H _]].
  exact H.
Defined.

(** ** A formatted table split back into its rows *)

Lemma splitLoop_literal_prev d cap (s : jsstring) :
  forall prev prev' acc skip,
    splitLoop (literal d) cap prev s acc skip
    = splitLoop (literal d) cap prev' s acc skip.
Proof.
  induction s as [|c s IH]; intros prev prev' acc skip; [reflexivity|].
  cbn [splitLoop]. destruct skip; [|apply IH].
  replace (literal d prev' (c :: s)) with (literal d prev (c :: s))
    by reflexivity.
  destruct (literal d prev (c :: s)) as [[|n]|]; [destruct acc| |];
    try apply IH; f_equal; try apply IH; f_equal; apply IH.
Qed.

Lemma splitLoop_literal_skip d cap (p : jsstring) :
  forall prev rest acc,
    splitLoop (literal d) cap prev (p ++ rest) acc (length p)
    = splitLoop (literal d) cap None rest acc 0.
Proof.
  induction p as [|c p IH]; intros prev rest acc.
  - apply splitLoop_literal_prev.
  - cbn [app length splitLoop]. apply IH.
Qed.

Lemma startsWith_app (p r : jsstring) : startsWith p (p ++ r) = true.
Proof.
  induction p as [|x p IH]; [reflexivity|].
  cbn [app startsWith]. rewrite IH.
  unfold chr_eqb. now rewrite Ascii.eqb_refl.
Qed.

Lemma splitLoop_literal_piece (c0 : ascii) (d' l : jsstring) :
  forall prev rest acc,
    Forall (fun c => chr_eqb c0 c = false) l ->
    splitLoop (literal (c0 :: d')) false prev (l ++ c0 :: d' ++ rest) acc 0
    = (rev acc ++ l) :: splitLoop (literal (c0 :: d')) false None rest [] 0.
Proof.
  induction l as [|c l IH]; intros prev rest acc H.
  - cbn [app splitLoop]. unfold literal at 1.
    pose proof (startsWith_app (c0 :: d') rest) as E.
    cbn [app] in E. rewrite E. cbn [length app].
    rewrite app_nil_r. f_equal. apply splitLoop_literal_skip.
  - inversion H as [|? ? Hc Hl]; subst.
    cbn [app splitLoop]. unfold literal at 1.
    cbn [startsWith]. rewrite Hc. cbn [andb].
    rewrite IH by assumption. cbn [rev]. now rewrite <- app_assoc.
Qed.

Lemma splitLoop_literal_last (c0 : ascii) (d' l : jsstring) :
  forall prev acc,
    Forall (fun c => chr_eqb c0 c = false) l ->
    splitLoop (literal (c0 :: d')) false prev l acc 0 = [rev acc ++ l].
Proof.
  induction l as [|c l IH]; intros prev acc H; cbn [splitLoop].
  - now rewrite app_nil_r.
  - inversion H as [|? ? Hc Hl]; subst.
    unfold literal at 1. cbn [startsWith]. rewrite Hc. cbn [andb].
    rewrite IH by assumption. cbn [rev]. now rewrite <- app_assoc.
Qed.

Lemma delimiter_piece (l : jsstring) prev rest acc :
  ltFree l ->
  splitLoop (literal CSV_ROW_DELIMITER) false prev
    (l ++ CSV_ROW_DELIMITER ++ rest) acc 0
  = (rev acc ++ l)
    :: splitLoop (literal CSV_ROW_DELIMITER) false None rest [] 0.
Proof.
  intro H.
  exact (splitLoop_literal_piece "<"%char (str "<<ROW_BREAK>>>") l prev rest
           acc H).
Qed.

Lemma delimiter_last (l : jsstring) prev acc :
  ltFree l ->
  splitLoop (literal CSV_ROW_DELIMITER) false prev l acc 0 = [rev acc ++ l].
Proof.
  intro H.
  exact (splitLoop_literal_last "<"%char (str "<<ROW_BREAK>>>") l prev acc H).
Qed.

Lemma trim_space_prefix (pre x : jsstring) :
  allSpace pre = true -> trim (pre ++ x) = trim x.
Proof.
  intro H. unfold trim, trimStart. f_equal.
  induction pre as [|c pre IH]; [reflexivity|].
  unfold allSpace in H. cbn [forallb] in H. apply andb_true_iff in H.
  destruct H as [H1 H2]. cbn [app dropWhile]. rewrite H1. now apply IH.
Qed.

Lemma trimEnd_space_suffix (x post : jsstring) :
  allSpace post = true -> trimEnd (x ++ post) = trimEnd x.
Proof.
  intro H. unfold trimEnd. f_equal. rewrite rev_app_distr.
  assert (allSpace (rev post) = true) as R
    by (unfold allSpace in *; now rewrite forallb_rev).
  induction (rev post) as [|c l IH]; [reflexivity|].
  unfold allSpace in R. cbn [forallb] in R. apply andb_true_iff in R.
  destruct R as [R1 R2]. cbn [app dropWhile]. rewrite R1. now apply IH.
Qed.

Lemma dropWhile_app_keep p (x post : jsstring) :
  forallb p x = false -> dropWhile p (x ++ post) = dropWhile p x ++ post.
Proof.
  induction x as [|c x IH]; intro H; [discriminate|].
  cbn [forallb] in H. cbn [app dropWhile].
  destruct (p c); [now apply IH|reflexivity].
Qed.

Lemma trim_space_suffix (x post : jsstring) :
  allSpace post = true -> trim (x ++ post) = trim x.
Proof.
  intro H. unfold trim, trimStart.
  destruct (forallb isSpace x) eqn:E.
  - assert (forallb isSpace (x ++ post) = true) as A
      by (rewrite forallb_app, E; exact H).
    apply dropWhile_nil_iff in E. apply dropWhile_nil_iff in A.
    now rewrite E, A.
  - rewrite dropWhile_app_keep by exact E.
    now apply trimEnd_space_suffix.
Qed.

Lemma split_rows_back (rs : list jsstring) :
  forall pre prev,
    allSpace pre = true -> rs <> [] ->
    Forall ltFree (map (fun r => pre ++ r) rs) ->
    Forall ltFree rs ->
    map trim
      (splitLoop (literal CSV_ROW_DELIMITER) false prev
         (pre ++ join rowSeparator rs) [] 0)
    = map trim rs.
Proof.
  induction rs as [|r rs IH]; intros pre prev HP N F1 F; [congruence|].
  inversion F as [|? ? Fr Frs]; subst.
  inversion F1 as [|? ? F1r _]; subst.
  destruct rs as [|r2 rs].
  - cbn [join]. rewrite delimiter_last by exact F1r.
    cbn [rev app map]. now rewrite trim_space_prefix.
  - rewrite join_cons by discriminate.
    replace (pre ++ r ++ rowSeparator ++ join rowSeparator (r2 :: rs))
      with ((pre ++ r ++ [LF; LF]) ++ CSV_ROW_DELIMITER
            ++ ([LF; LF] ++ join rowSeparator (r2 :: rs)))
      by (unfold rowSeparator; now rewrite <- !app_assoc).
    rewrite delimiter_piece.
    + cbn [rev map]. rewrite app_nil_l. f_equal.
      * rewrite app_assoc, trim_space_suffix by reflexivity.
        now apply trim_space_prefix.
      * apply (IH [LF; LF] None); auto; try discriminate.
        apply Forall_map. eapply Forall_impl; [|exact Frs].
        intros a Ha. repeat constructor. exact Ha.
    + rewrite app_assoc. apply Forall_app. split; [exact F1r|].
      repeat constructor.
Qed.

Lemma includes_app_r (p a s : jsstring) :
  includes p s = true -> includes p (a ++ s) = true.
Proof.
  intro H. induction a as [|c a IH]; [exact H|].
  cbn [app includes]. rewrite IH. apply orb_true_r.
Qed.

Lemma includes_startsWith (p s : jsstring) :
  startsWith p s = true -> includes p s = true.
Proof. intro H. destruct s; cbn [includes]; now rewrite H. Qed.

Lemma mapGen_bare_texts ty (l : list jsstring) :
  forall g, map chunk_text (fst (mapGen (bareChunk ty) l g)) = l.
Proof.
  induction l as [|t l IH]; intro g; [reflexivity|].
  cbn [mapGen]. rewrite !bind_eq, ret_eq. cbn [fst map]. now rewrite IH.
Qed.

Lemma ltFree_app (a b : jsstring) : ltFree a -> ltFree b -> ltFree (a ++ b).
Proof. intros. apply Forall_app. auto. Qed.

Lemma ltFree_join sep (parts : list jsstring) :
  ltFree sep -> Forall ltFree parts -> ltFree (join sep parts).
Proof.
  intros Hs H. induction H as [|p ps Hp Hps IH]; [constructor|].
  destruct ps as [|q ps]; [exact Hp|].
  rewrite join_cons by discriminate. auto using ltFree_app.
Qed.

Lemma filterBoolean_Forall (P : jsstring -> Prop) (l : list (option jsstring)) :
  Forall (fun o => match o with Some s => P s | None => True end) l ->
  Forall (fun s => P s /\ s <> []) (filterBoolean l).
Proof.
  induction 1 as [|o l Ho Hl IH]; [constructor|].
  unfold filterBoolean. cbn [flat_map]. apply Forall_app. split; [|exact IH].
  destruct o as [s|]; [|constructor].
  destruct s; simpl; repeat constructor; auto. discriminate.
Qed.

Lemma nth_error_Forall {A : Type} (P : A -> Prop) (l : list A) n x :
  Forall P l -> nth_error l n = Some x -> P x.
Proof.
  intros H E. rewrite Forall_forall in H. apply H.
  eapply nth_error_In. exact E.
Qed.

Lemma formatRow_ok hdrs config row s :
  Forall ltFree hdrs -> Forall ltFree row ->
  formatRow hdrs config row = Some s ->
  ltFree s /\ nonBlank s = true.
Proof.
  intros Hh Hr. unfold formatRow. cbv zeta.
  assert (forall idx, ltFree (headerText hdrs idx)) as HT.
  { intro idx. unfold headerText.
    destruct (nth_error hdrs idx) as [h|] eqn:E; cbn [orElse].
    - exact (nth_error_Forall ltFree hdrs idx h Hh E).
    - repeat constructor. }
  assert (forall idx val, filledCell row idx = Some val -> ltFree val) as FC.
  { intros idx val. unfold filledCell.
    destruct (nth_error row idx) as [v|] eqn:E; [|discriminate].
    destruct (_ || _); [discriminate|]. intro H. inversion H; subst.
    exact (nth_error_Forall ltFree row idx val Hr E). }
  assert (Forall ltFree (contextPartsOf hdrs row (contextCols config))) as C.
  { unfold contextPartsOf.
    eapply Forall_impl; [|apply (filterBoolean_Forall ltFree)].
    - intros a [Ha _]. exact Ha.
    - apply Forall_map, Forall_forall. intros idx _.
      destruct (filledCell row idx) eqn:E; [|exact I].
      repeat apply ltFree_app; auto; try (repeat constructor; fail).
      eapply FC; eauto. }
  assert (Forall ltFree (analyzePartsOf hdrs row (analyzeCols config))) as A.
  { unfold analyzePartsOf.
    eapply Forall_impl; [|apply (filterBoolean_Forall ltFree)].
    - intros a [Ha _]. exact Ha.
    - apply Forall_map, Forall_forall. intros idx _.
      destruct (filledCell row idx) eqn:E; [|exact I].
      destruct (1 <? _); [|eapply FC; eauto].
      repeat apply ltFree_app; auto; try (repeat constructor; fail).
      eapply FC; eauto. }
  destruct (nonBlank (join [LF] _)) eqn:NB; [|discriminate].
  cbn [negb]. intro H. inversion H; subst. split.
  - apply ltFree_app.
    + destruct (0 <? _); [|constructor].
      apply ltFree_app; [|repeat constructor].
      apply ltFree_join; [repeat constructor|exact C].
    + apply ltFree_join; [repeat constructor|exact A].
  - now apply nonBlank_app_r.
Qed.

Lemma formattedRows_ok structure config :
  Forall ltFree (headers structure) ->
  Forall (Forall ltFree) (rows structure) ->
  Forall (fun r => ltFree r /\ nonBlank r = true)
    (formattedRows structure config).
Proof.
  intros Hh Hr. unfold formattedRows.
  eapply Forall_impl;
    [|apply (filterBoolean_Forall (fun r => ltFree r /\ nonBlank r = true))].
  - intros a [Ha _]. exact Ha.
  - apply Forall_map. eapply Forall_impl; [|exact Hr].
    intros row Hrow.
    destruct (formatRow (headers structure) config row) as [s|] eqn:E;
      [|exact I].
    exact (formatRow_ok (headers structure) config row s Hh Hrow E).
Qed.

(** X18.  A table formatted by [generateFormattedCSV] into at least two
    rows is split back by the RESPONSE granularity of [splitSingleText]
    into one chunk per formatted row, in order, each the trimmed row:
    this holds when no header and no cell contains a less-than sign, the
    character the row delimiter starts with. *)
Theorem formatted_rows_round_trip :
  forall structure config g,
    2 <= length (formattedRows structure config) ->
    Forall ltFree (headers structure) ->
    Forall (Forall ltFree) (rows structure) ->
    map chunk_text
      (fst (splitSingleText (generateFormattedCSV structure config)
              RESPONSE g))
    = map trim (formattedRows structure config).
Proof.
  intros structure config g L Hh Hr.
  pose proof (formattedRows_ok structure config Hh Hr) as F.
  unfold generateFormattedCSV.
  set (rs := formattedRows structure config) in *.
  assert (Forall ltFree rs) as FL
    by (eapply Forall_impl; [|exact F]; intros a [Ha _]; exact Ha).
  unfold splitSingleText.
  assert (includes CSV_ROW_DELIMITER (join rowSeparator rs) = true) as I.
  { destruct rs as [|r [|r2 rs']]; try (simpl in L; lia).
    rewrite join_cons by discriminate. unfold rowSeparator.
    rewrite <- !app_assoc.
    apply includes_app_r, (includes_app_r _ [LF; LF]), includes_startsWith,
      startsWith_app. }
  rewrite I. unfold responseChunks. rewrite mapGen_bare_texts.
  unfold split_string, splitWith.
  assert (map trim
            (match join rowSeparator rs with
             | [] => match literal CSV_ROW_DELIMITER None [] with
                     | Some _ => []
                     | None => [[]]
                     end
             | _ :: _ =>
                 splitLoop (literal CSV_ROW_DELIMITER) false None
                   (join rowSeparator rs) [] 0
             end) = map trim rs) as E.
  { destruct (join rowSeparator rs) eqn:J; [discriminate|].
    rewrite <- J.
    apply (split_rows_back rs [] None); auto.
    - destruct rs; [simpl in L; lia|discriminate].
    - now rewrite map_id. }
  rewrite E.
  apply forallb_filter_id. apply forallb_forall. intros t Ht.
  apply in_map_iff in Ht. destruct Ht as [r [<- Hr']].
  rewrite Forall_forall in F. destruct (F r Hr') as [_ NB]. exact NB.
Qed.

Lemma formatted_rows_round_trip_witness :
  map chunk_text
    (fst (splitSingleText
            (generateFormattedCSV commentsTable (guessCSVConfig commentsTable))
            RESPONSE demoIds))
  = map trim (formattedRows commentsTable (guessCSVConfig commentsTable)).
Proof.
  apply formatted_rows_round_trip.
  - vm_compute. lia.
  - vm_compute. repeat constructor.
  - vm_compute. repeat constructor.
Defined.

Example generateFormattedCSV_ex :
  generateFormattedCSV
    (parseCSVStructure (nl "id,comment,note|1,good,|2,,|3,bad,n3"))
    {| analyzeCols := [1; 2]; contextCols := [0; 5] |}
  = nl "[id]: 1|comment: good||<<<ROW_BREAK>>>||[id]: 3|comment: bad|note: n3".
Proof. vm_compute. reflexivity. Qed.

(* ------------------------------------------------------------------ *)
(** ** The column mapping dialogue *)

Lemma without_In col c arr : In c (without col arr) <-> In c arr /\ c <> col.
Proof.
  unfold without. rewrite filter_In, negb_true_iff, str_eqb_neq. tauto.
Qed.

Lemma arrIncludes_In c arr : arrIncludes c arr = true <-> In c arr.
Proof.
  unfold arrIncludes. rewrite existsb_exists. split.
  - intros [x [H E]]. apply str_eqb_eq in E. now subst.
  - intro H. exists c. split; [exact H|]. now apply str_eqb_eq.
Qed.

Lemma arrIncludes_not_In c arr : arrIncludes c arr = false <-> ~ In c arr.
Proof.
  rewrite <- arrIncludes_In. destruct (arrIncludes c arr); split; congruence.
Qed.

Lemma handleToggle_consistent col type st :
  enabledBox st col type = true ->
  columnsConsistent (handleSave st) ->
  columnsConsistent (handleSave (handleToggle col type st)).
Proof.
  unfold columnsConsistent, handleSave, handleToggle, enabledBox.
  cbn [targetColumns contextColumns sentimentContextColumns orElse].
  intros En [D S].
  destruct type.
  - destruct (arrIncludes col (st_targetColumns st)) eqn:E;
      cbn [st_targetColumns st_contextColumns st_sentimentContextColumns].
    + split; [|exact S]. intros c H. apply without_In in H. apply D, H.
    + split; intros c H.
      * rewrite without_In. apply in_app_iff in H. destruct H as [H|[<-|[]]].
        -- intros [H1 _]. exact (D c H H1).
        -- intros [_ H1]. now apply H1.
      * apply without_In in H. apply without_In. split; [apply S|]; apply H.
  - destruct (arrIncludes col (st_contextColumns st)) eqn:E;
      cbn [st_targetColumns st_contextColumns st_sentimentContextColumns].
    + split; intros c H.
      * rewrite without_In. intros [H1 _]. exact (D c H H1).
      * apply without_In in H. apply without_In. split; [apply S|]; apply H.
    + split; intros c H.
      * apply without_In in H. destruct H as [H N].
        rewrite in_app_iff. intros [H1|[H1|[]]]; [exact (D c H H1)|].
        now apply N.
      * apply in_app_iff. left. now apply S.
  - destruct (arrIncludes col (st_sentimentContextColumns st)) eqn:E;
      cbn [st_targetColumns st_contextColumns st_sentimentContextColumns].
    + split; [exact D|]. intros c H. apply without_In in H. apply S, H.
    + split; [exact D|]. intros c H. apply in_app_iff in H.
      destruct H as [H|[<-|[]]]; [now apply S|].
      now apply arrIncludes_In.
Qed.

Lemma clicks_consistent evs :
  forall st,
    columnsConsistent (handleSave st) ->
    columnsConsistent (handleSave (clicks evs st)).
Proof.
  unfold clicks. induction evs as [|[col type] evs IH]; intros st H; [exact H|].
  cbn [fold_left]. apply IH. unfold click. cbn [fst snd].
  destruct (enabledBox st col type) eqn:E; [|exact H].
  now apply handleToggle_consistent.
Qed.

(** X19.  Whatever boxes are clicked in the column mapping dialogue, the
    configuration it saves keeps the roles apart: if the configuration
    it was opened with has no column that is both target and context and
    marks only context columns for sentiment, so has the saved one. *)
Theorem modal_columns_consistent :
  forall initialConfig evs,
    columnsConsistent initialConfig ->
    columnsConsistent (handleSave (clicks evs (openModal initialConfig))).
Proof.
  intros cfg evs H. apply clicks_consistent. exact H.
Qed.

Lemma modal_columns_consistent_witness :
  columnsConsistent
    (handleSave
       (clicks [(str "RespondentID", onContext);
                (str "RespondentID", onSentiment);
                (str "Comments", onContext);
                (str "Comments", onTarget)]
          (openModal {| targetColumns := [str "Comments"];
                        contextColumns := [];
                        sentimentContextColumns := Some [];
                        strategy := DISTINCT |}))).
Proof.
  apply modal_columns_consistent.
  split; intros c H; [intros []|destruct H].
Defined.

(** The guard is the disabled box, not the handler: called directly for
    a column that is not a context column, [handleToggle] marks it for
    sentiment all the same. *)
Remark handleToggle_sentiment_unguarded :
  let st := handleToggle (str "Comments") onSentiment
              (openModal {| targetColumns := [str "Comments"];
                            contextColumns := [];
                            sentimentContextColumns := None;
                            strategy := DISTINCT |}) in
  st_sentimentContextColumns st = [str "Comments"]
  /\ st_contextColumns st = [].
Proof. split; reflexivity. Qed.

(* ------------------------------------------------------------------ *)
(** ** Moving and removing tags *)

Lemma findChunk_some chunkId chunks chunk :
  findChunk chunkId chunks = Some chunk ->
  In chunk chunks /\ chunk_id chunk = chunkId.
Proof.
  unfold findChunk. intro H. apply find_some in H. destruct H as [H E].
  apply str_eqb_eq in E. auto.
Qed.

Lemma findChunk_none chunkId chunks :
  findChunk chunkId chunks = None ->
  forall c, In c chunks -> str_eqb (chunk_id c) chunkId = false.
Proof.
  unfold findChunk. intros H c I.
  exact (find_none _ _ H c I).
Qed.

Lemma same_id_same_chunk (chunks : list Chunk) :
  NoDup (map chunk_id chunks) ->
  forall a b, In a chunks -> In b chunks -> chunk_id a = chunk_id b -> a = b.
Proof.
  induction chunks as [|c chunks IH]; intros N a b Ha Hb E; [contradiction|].
  cbn [map] in N. inversion N as [|? ? N1 N2]; subst.
  destruct Ha as [<-|Ha], Hb as [<-|Hb]; auto.
  - exfalso. apply N1. rewrite E. now apply in_map.
  - exfalso. apply N1. rewrite <- E. now apply in_map.
Qed.

Lemma replaceChunk_retag (f : list jsstring -> list jsstring) chunkId chunk chunks :
  NoDup (map chunk_id chunks) ->
  findChunk chunkId chunks = Some chunk ->
  replaceChunk chunkId (withTags chunk (f (chunk_tags chunk))) chunks
  = retag f chunkId chunks.
Proof.
  intros N F. apply findChunk_some in F. destruct F as [I E].
  unfold replaceChunk, retag. apply map_ext_in. intros c Hc.
  destruct (str_eqb (chunk_id c) chunkId) eqn:Ec; [|reflexivity].
  apply str_eqb_eq in Ec.
  now rewrite (same_id_same_chunk chunks N c chunk Hc I) by congruence.
Qed.

Lemma retag_absent (f : list jsstring -> list jsstring) chunkId chunks :
  findChunk chunkId chunks = None -> retag f chunkId chunks = chunks.
Proof.
  intro F. unfold retag. rewrite <- (map_id chunks) at 2.
  apply map_ext_in. intros c Hc.
  now rewrite (findChunk_none _ _ F c Hc).
Qed.

(** X20.  When the chunk identifiers of the state are pairwise
    different, [handleRealignChunk] and [handleRemoveTag] change nothing
    but the tag list of the chunk with the given identifier: the tag
    list is realigned (or filtered) in place and every other field and
    every other chunk stays as it was. *)
Theorem tag_handlers_per_chunk :
  forall chunkId oldTerm newTerm chunks,
    NoDup (map chunk_id chunks) ->
    handleRealignChunk chunkId oldTerm newTerm chunks
    = retag (realignTags oldTerm newTerm) chunkId chunks
    /\ handleRemoveTag chunkId oldTerm chunks
       = retag (without oldTerm) chunkId chunks.
Proof.
  intros chunkId oldTerm newTerm chunks N.
  unfold handleRealignChunk, handleRemoveTag.
  destruct (findChunk chunkId chunks) as [chunk|] eqn:F.
  - split; now apply replaceChunk_retag.
  - split; symmetry; now apply retag_absent.
Qed.

Lemma tag_handlers_per_chunk_witness :
  handleRealignChunk (str "a1") (str "fear") (str "hope") taggedChunks
  = retag (realignTags (str "fear") (str "hope")) (str "a1") taggedChunks
  /\ handleRemoveTag (str "a1") (str "fear") taggedChunks
     = retag (without (str "fear")) (str "a1") taggedChunks.
Proof.
  apply tag_handlers_per_chunk.
  repeat constructor; simpl; intuition discriminate.
Defined.

(** Two chunks under one identifier: the second is overwritten with a
    copy of the first, text included. *)
Remark handleRemoveTag_shared_id :
  map chunk_text
    (handleRemoveTag (str "c1") (str "x")
       [chunkOf (str "first"); chunkOf (str "second")])
  = [str "first"; str "first"].
Proof. reflexivity. Qed.

Lemma without_idempotent col arr : without col (without col arr) = without col arr.
Proof.
  unfold without. induction arr as [|c arr IH]; [reflexivity|].
  cbn [filter]. destruct (negb (str_eqb c col)) eqn:E; [|exact IH].
  cbn [filter]. rewrite E. now f_equal.
Qed.

Lemma without_app col a b : without col (a ++ b) = without col a ++ without col b.
Proof. unfold without. apply filter_app. Qed.

Lemma without_absent col arr : ~ In col arr -> without col arr = arr.
Proof.
  intro N. unfold without. induction arr as [|c arr IH]; [reflexivity|].
  cbn [filter]. replace (str_eqb c col) with false.
  - cbn [negb]. f_equal. apply IH. intro H. apply N. now right.
  - symmetry. apply str_eqb_neq. intros ->. apply N. now left.
Qed.

Lemma realignTags_In oldTerm newTerm tags :
  In newTerm (realignTags oldTerm newTerm tags)
  /\ (oldTerm <> newTerm -> ~ In oldTerm (realignTags oldTerm newTerm tags))
  /\ (forall t, t <> oldTerm -> In t tags ->
                In t (realignTags oldTerm newTerm tags)).
Proof.
  unfold realignTags.
  destruct (arrIncludes newTerm (without oldTerm tags)) eqn:E.
  - apply arrIncludes_In in E. split; [exact E|]. split.
    + intros _ H. apply without_In in H. now destruct H.
    + intros t N H. apply without_In. auto.
  - split; [apply in_app_iff; right; now left|]. split.
    + intros N H. apply in_app_iff in H. destruct H as [H|[H|[]]].
      * apply without_In in H. now destruct H.
      * now apply N.
    + intros t N H. apply in_app_iff. left. apply without_In. auto.
Qed.

Lemma realignTags_idempotent oldTerm newTerm tags :
  realignTags oldTerm newTerm (realignTags oldTerm newTerm tags)
  = realignTags oldTerm newTerm tags.
Proof.
  unfold realignTags.
  destruct (arrIncludes newTerm (without oldTerm tags)) eqn:E.
  - now rewrite without_idempotent, E.
  - rewrite without_app, without_idempotent.
    destruct (jsstring_eq_dec newTerm oldTerm) as [->|N].
    + replace (without oldTerm [oldTerm]) with (@nil jsstring).
      * now rewrite app_nil_r, E.
      * unfold without. cbn [filter].
        replace (str_eqb oldTerm oldTerm) with true; [reflexivity|].
        symmetry. now apply str_eqb_eq.
    + rewrite (without_absent oldTerm [newTerm])
        by (intros [H|[]]; now apply N).
      replace (arrIncludes newTerm (without oldTerm tags ++ [newTerm]))
        with true; [reflexivity|].
      symmetry. apply arrIncludes_In, in_app_iff. right. now left.
Qed.

Lemma replaceChunk_In chunkId updatedChunk chunks c :
  In c (replaceChunk chunkId updatedChunk chunks) ->
  chunk_id updatedChunk = chunkId ->
  chunk_id c = chunkId -> c = updatedChunk.
Proof.
  unfold replaceChunk. intros H U E. apply in_map_iff in H.
  destruct H as [c0 [H _]].
  destruct (str_eqb (chunk_id c0) chunkId) eqn:E0; [now subst|].
  subst c0. apply str_eqb_neq in E0. contradiction.
Qed.

Lemma replaceChunk_ids chunkId updatedChunk chunks :
  chunk_id updatedChunk = chunkId ->
  map chunk_id (replaceChunk chunkId updatedChunk chunks) = map chunk_id chunks.
Proof.
  intro U. unfold replaceChunk. rewrite map_map. apply map_ext. intro c.
  destruct (str_eqb (chunk_id c) chunkId) eqn:E; [|reflexivity].
  apply str_eqb_eq in E. congruence.
Qed.

(** X21.  After [handleRealignChunk] every chunk with the given
    identifier carries the new term and, unless the two terms are the
    same, no longer carries the old one. *)
Theorem handleRealignChunk_tags :
  forall chunkId oldTerm newTerm chunks c,
    In c (handleRealignChunk chunkId oldTerm newTerm chunks) ->
    chunk_id c = chunkId ->
    In newTerm (chunk_tags c)
    /\ (oldTerm <> newTerm -> ~ In oldTerm (chunk_tags c)).
Proof.
  intros chunkId oldTerm newTerm chunks c H E.
  unfold handleRealignChunk in H.
  destruct (findChunk chunkId chunks) as [chunk|] eqn:F.
  - destruct (findChunk_some _ _ _ F) as [_ Ei].
    apply replaceChunk_In in H; [|exact Ei|exact E]. subst c.
    cbn [withTags chunk_tags].
    destruct (realignTags_In oldTerm newTerm (chunk_tags chunk)) as [A [B _]].
    auto.
  - exfalso. pose proof (findChunk_none _ _ F c H) as N.
    apply str_eqb_neq in N. contradiction.
Qed.

Lemma handleRealignChunk_tags_witness :
  In (str "hope")
    (chunk_tags (taggedChunk (str "a1") (str "first") [str "hope"]))
  /\ (str "fear" <> str "hope" ->
      ~ In (str "fear")
          (chunk_tags (taggedChunk (str "a1") (str "first") [str "hope"]))).
Proof.
  apply (handleRealignChunk_tags (str "a1") (str "fear") (str "hope")
           taggedChunks).
  - left. reflexivity.
  - reflexivity.
Defined.

(** X22.  [handleRealignChunk] keeps the identifiers of the chunks, in
    order, and doing the same realignment a second time changes nothing
    more. *)
Theorem handleRealignChunk_idempotent :
  forall chunkId oldTerm newTerm chunks,
    map chunk_id (handleRealignChunk chunkId oldTerm newTerm chunks)
    = map chunk_id chunks
    /\ handleRealignChunk chunkId oldTerm newTerm
         (handleRealignChunk chunkId oldTerm newTerm chunks)
       = handleRealignChunk chunkId oldTerm newTerm chunks.
Proof.
  intros chunkId oldTerm newTerm chunks.
  unfold handleRealignChunk at 1 3 4.
  destruct (findChunk chunkId chunks) as [chunk|] eqn:F.
  - destruct (findChunk_some _ _ _ F) as [I E].
    set (updated := withTags chunk
                      (realignTags oldTerm newTerm (chunk_tags chunk))).
    assert (chunk_id updated = chunkId) as U by exact E.
    split; [now apply replaceChunk_ids|].
    unfold handleRealignChunk.
    assert (findChunk chunkId (replaceChunk chunkId updated chunks)
            = Some updated) as F2.
    { clear I. unfold findChunk, replaceChunk in *.
      induction chunks as [|c chunks IH]; [discriminate|].
      cbn [find map] in *.
      destruct (str_eqb (chunk_id c) chunkId) eqn:Ec.
      - replace (str_eqb (chunk_id updated) chunkId) with true; [reflexivity|].
        symmetry. now apply str_eqb_eq.
      - rewrite Ec. now apply IH. }
    rewrite F2.
    assert (withTags updated
              (realignTags oldTerm newTerm (chunk_tags updated)) = updated)
      as E2.
    { unfold updated, withTags.
      cbn [chunk_id chunk_text chunk_type chunk_sourceId chunk_sourceName
           chunk_tags].
      now rewrite realignTags_idempotent. }
    rewrite E2.
    unfold replaceChunk. rewrite map_map. apply map_ext. intro c.
    destruct (str_eqb (chunk_id c) chunkId) eqn:Ec; [|now rewrite Ec].
    replace (str_eqb (chunk_id updated) chunkId) with true; [reflexivity|].
    symmetry. now apply str_eqb_eq.
  - split; [reflexivity|]. unfold handleRealignChunk. now rewrite F.
Qed.

(* ------------------------------------------------------------------ *)
(** ** The concept graph *)

Lemma bumpAll_count k (tags : list jsstring) :
  forall m,
    countOf k (fold_left (fun counts tag => bump tag counts) tags m)
    = countOf k m + occurrencesOf k tags.
Proof.
  unfold occurrencesOf.
  induction tags as [|t tags IH]; intro m; cbn [fold_left count_occ].
  - symmetry. apply Nat.add_0_r.
  - rewrite IH, countOf_bump.
    destruct (jsstring_eq_dec t k) as [E|N].
    + rewrite <- Nat.add_assoc. reflexivity.
    + rewrite Nat.add_0_r. reflexivity.
Qed.

Lemma tagCounts_count_from k (chunks : list Chunk) :
  forall m,
    countOf k
      (fold_left
         (fun counts c => fold_left (fun counts tag => bump tag counts)
                            (chunk_tags c) counts)
         chunks m)
    = countOf k m + occurrencesOf k (allTags chunks).
Proof.
  induction chunks as [|c chunks IH]; intro m; cbn [fold_left allTags flat_map].
  - unfold occurrencesOf. cbn [count_occ]. symmetry. apply Nat.add_0_r.
  - rewrite IH, bumpAll_count. unfold occurrencesOf, allTags.
    rewrite count_occ_app. symmetry. apply Nat.add_assoc.
Qed.

Lemma tagCounts_count k (chunks : list Chunk) :
  countOf k (tagCounts chunks) = occurrencesOf k (allTags chunks).
Proof. unfold tagCounts. now rewrite tagCounts_count_from. Qed.

Lemma bumpAll_wellFormed (tags : list jsstring) :
  forall m,
    wellFormedCounts m ->
    wellFormedCounts (fold_left (fun counts tag => bump tag counts) tags m).
Proof.
  induction tags as [|t tags IH]; intros m H; [exact H|].
  cbn [fold_left]. now apply IH, bump_wellFormed.
Qed.

Lemma tagCounts_wellFormed (chunks : list Chunk) :
  wellFormedCounts (tagCounts chunks).
Proof.
  unfold tagCounts.
  assert (wellFormedCounts []) as H by (split; constructor).
  revert H. generalize (@nil (jsstring * nat)).
  induction chunks as [|c chunks IH]; intros m H; [exact H|].
  cbn [fold_left]. now apply IH, bumpAll_wellFormed.
Qed.

Lemma insertByCount_perm x l : Permutation (x :: l) (insertByCount x l).
Proof.
  induction l as [|y l IH]; [reflexivity|].
  cbn [insertByCount]. destruct (snd x <? snd y); [|reflexivity].
  rewrite perm_swap. now constructor.
Qed.

Lemma sortByCount_perm l : Permutation l (sortByCount l).
Proof.
  induction l as [|x l IH]; [reflexivity|].
  cbn [sortByCount]. rewrite <- insertByCount_perm. now constructor.
Qed.

Lemma insertByCount_descending x l :
  descendingCounts l -> descendingCounts (insertByCount x l).
Proof.
  induction l as [|y l IH]; intro H; [exact I|].
  cbn [insertByCount]. destruct (snd x <? snd y) eqn:E.
  - apply Nat.ltb_lt in E.
    destruct l as [|z l].
    + cbn [insertByCount descendingCounts]. split; [lia|exact I].
    + cbn [descendingCounts] in H. destruct H as [H1 H2].
      specialize (IH H2). cbn [insertByCount] in *.
      destruct (snd x <? snd z) eqn:E2; cbn [descendingCounts] in *.
      * split; [exact H1|exact IH].
      * split; [lia|exact IH].
  - apply Nat.ltb_ge in E. cbn [descendingCounts]. split; [exact E|exact H].
Qed.

Lemma sortByCount_descending l : descendingCounts (sortByCount l).
Proof.
  induction l as [|x l IH]; [exact I|].
  cbn [sortByCount]. now apply insertByCount_descending.
Qed.

Lemma descendingCounts_tail x l :
  descendingCounts (x :: l) ->
  descendingCounts l /\ forall y, In y l -> snd y <= snd x.
Proof.
  revert x. induction l as [|z l IH]; intros x H.
  - split; [exact I|intros y []].
  - cbn [descendingCounts] in H. destruct H as [H1 H2].
    split; [exact H2|]. intros y [<-|Hy]; [exact H1|].
    destruct (IH z H2) as [_ H3]. specialize (H3 y Hy). lia.
Qed.

Lemma descendingCounts_app l1 l2 :
  descendingCounts (l1 ++ l2) ->
  forall x y, In x l1 -> In y l2 -> snd y <= snd x.
Proof.
  induction l1 as [|a l1 IH]; intros H x y Hx Hy; [contradiction|].
  cbn [app] in H. apply descendingCounts_tail in H. destruct H as [H1 H2].
  destruct Hx as [<-|Hx].
  - apply H2, in_app_iff. now right.
  - now apply IH.
Qed.

Lemma topConcepts_In chunks tag :
  In tag (topConcepts chunks) ->
  exists v, In (tag, v) (firstn 20 (sortByCount (tagCounts chunks)))
            /\ mapGet tag (tagCounts chunks) = Some v
            /\ v = occurrencesOf tag (allTags chunks)
            /\ 1 <= v.
Proof.
  unfold topConcepts. intro H. apply in_map_iff in H.
  destruct H as [[k v] [E H]]. cbn [fst] in E. subst k.
  exists v. split; [exact H|].
  apply In_firstn in H.
  apply (Permutation_in _ (Permutation_sym (sortByCount_perm _))) in H.
  destruct (tagCounts_wellFormed chunks) as [N P].
  pose proof (mapGet_In _ _ _ N H) as G. split; [exact G|].
  pose proof (tagCounts_count tag chunks) as C.
  unfold countOf in C. rewrite G in C. cbn [orElse] in C.
  split; [exact C|].
  rewrite Forall_forall in P. exact (P _ H).
Qed.

Lemma nodes_ids response chunks :
  map node_id (nodes (buildGraph response chunks)) = topConcepts chunks.
Proof.
  unfold buildGraph. destruct response; cbn [nodes]; rewrite map_map;
    cbn [node_id]; apply map_id.
Qed.

Lemma topConcepts_NoDup chunks : NoDup (topConcepts chunks).
Proof.
  unfold topConcepts. rewrite <- firstn_map. apply NoDup_firstn.
  destruct (tagCounts_wellFormed chunks) as [N _].
  eapply Permutation_NoDup; [|exact N].
  apply Permutation_map, sortByCount_perm.
Qed.

(** X23.  The graph of [buildGraph] has at most 20 nodes, no two with
    the same identifier, and every link it keeps joins two of its
    nodes, whatever links the model proposed. *)
Theorem buildGraph_well_formed :
  forall response chunks,
    length (nodes (buildGraph response chunks)) <= 20
    /\ NoDup (map node_id (nodes (buildGraph response chunks)))
    /\ Forall (fun l =>
                 In (link_source l)
                   (map node_id (nodes (buildGraph response chunks)))
                 /\ In (link_target l)
                      (map node_id (nodes (buildGraph response chunks))))
         (links (buildGraph response chunks)).
Proof.
  intros response chunks. rewrite nodes_ids. split; [|split].
  - rewrite <- (length_map node_id), nodes_ids. unfold topConcepts.
    rewrite length_map. apply firstn_le_length.
  - apply topConcepts_NoDup.
  - unfold buildGraph. destruct response as [rawLinks|]; cbn [links];
      [|constructor].
    apply Forall_forall. intros l H. apply filter_In in H.
    destruct H as [_ H]. apply andb_true_iff in H.
    rewrite !arrIncludes_In in H. exact H.
Qed.

(** X24.  The value of a node is the number of times its tag occurs
    among the tags of all chunks, which is at least one; its label is
    its identifier. *)
Theorem buildGraph_node_values :
  forall response chunks,
    Forall (fun n =>
              node_value n = occurrencesOf (node_id n) (allTags chunks)
              /\ 1 <= node_value n
              /\ node_label n = node_id n
              /\ node_type n = concept)
      (nodes (buildGraph response chunks)).
Proof.
  intros response chunks.
  assert (forall n, In n (nodes (buildGraph None chunks)) ->
            node_value n = occurrencesOf (node_id n) (allTags chunks)
            /\ 1 <= node_value n
            /\ node_label n = node_id n
            /\ node_type n = concept) as A.
  { intros n H. cbn [buildGraph nodes] in H. apply in_map_iff in H.
    destruct H as [tag [<- H]]. cbn [node_value node_id node_label node_type].
    destruct (topConcepts_In _ _ H) as [v [_ [G [C P]]]].
    rewrite G. destruct v as [|v]; [lia|]. cbn [orOne].
    repeat split; auto. }
  apply Forall_forall. intros n H. apply A.
  destruct response; exact H.
Qed.

Lemma mapGet_Some_In k v (m : CountMap) : mapGet k m = Some v -> In (k, v) m.
Proof.
  induction m as [|[k' v'] m IH]; [discriminate|].
  cbn [mapGet]. destruct (str_eqb k' k) eqn:E.
  - apply str_eqb_eq in E. subst k'. intro H. inversion H. now left.
  - intro H. right. now apply IH.
Qed.

(** X25.  A tag that occurs in the chunks but is not a node of the graph
    was cut by the limit: the graph then has exactly 20 nodes, and none
    of them occurs less often than that tag. *)
Theorem buildGraph_most_frequent :
  forall response chunks t,
    In t (allTags chunks) ->
    ~ In t (map node_id (nodes (buildGraph response chunks))) ->
    length (nodes (buildGraph response chunks)) = 20
    /\ Forall (fun n => occurrencesOf t (allTags chunks) <= node_value n)
         (nodes (buildGraph response chunks)).
Proof.
  intros response chunks t Ht Hn. rewrite nodes_ids in Hn.
  set (sorted := sortByCount (tagCounts chunks)).
  assert (0 < countOf t (tagCounts chunks)) as P.
  { rewrite tagCounts_count. unfold occurrencesOf.
    apply count_occ_In. exact Ht. }
  unfold countOf in P.
  destruct (mapGet t (tagCounts chunks)) as [v|] eqn:G; [|cbn in P; lia].
  assert (v = occurrencesOf t (allTags chunks)) as Ev.
  { pose proof (tagCounts_count t chunks) as C. unfold countOf in C.
    now rewrite G in C. }
  assert (In (t, v) sorted) as I.
  { apply (Permutation_in _ (sortByCount_perm _)).
    now apply mapGet_Some_In. }
  rewrite <- (firstn_skipn 20 sorted) in I. apply in_app_iff in I.
  destruct I as [I|I].
  { exfalso. apply Hn. unfold topConcepts. fold sorted.
    apply in_map_iff. now exists (t, v). }
  assert (forall x, In x (firstn 20 sorted) -> v <= snd x) as Le.
  { intros x Hx.
    apply (descendingCounts_app (firstn 20 sorted) (skipn 20 sorted))
      with (y := (t, v)); auto.
    rewrite firstn_skipn. apply sortByCount_descending. }
  split.
  - rewrite <- (length_map node_id), nodes_ids. unfold topConcepts.
    fold sorted. rewrite length_map. apply firstn_length_le.
    destruct (le_lt_dec 20 (length sorted)) as [L|L]; [exact L|].
    rewrite skipn_all2 in I by lia. contradiction.
  - apply Forall_forall. intros n H.
    assert (In n (nodes (buildGraph None chunks))) as H'
      by (destruct response; exact H).
    cbn [buildGraph nodes] in H'. apply in_map_iff in H'.
    destruct H' as [tag [<- H']]. cbn [node_value].
    destruct (topConcepts_In _ _ H') as [w [Hw [Gw [_ Pw]]]].
    rewrite Gw. destruct w as [|w]; [lia|]. cbn [orOne].
    rewrite <- Ev. exact (Le _ Hw).
Qed.

Lemma buildGraph_most_frequent_witness :
  length (nodes (buildGraph None [manyTagsChunk])) = 20
  /\ Forall (fun n => occurrencesOf (str "u") (allTags [manyTagsChunk])
                      <= node_value n)
       (nodes (buildGraph None [manyTagsChunk])).
Proof.
  apply buildGraph_most_frequent.
  - vm_compute. repeat (try (left; reflexivity); right).
  - vm_compute. intuition discriminate.
Defined.

Example buildGraph_ex :
  buildGraph
    (Some [{| raw_source := str "hope"; raw_target := str "fear";
              raw_label := str "against"; raw_weight := None |};
           {| raw_source := str "hope"; raw_target := str "joy";
              raw_label := str "with"; raw_weight := Some 3 |}])
    taggedChunks
  = {| nodes := [{| node_id := str "hope"; node_label := str "hope";
                    node_type := concept; node_value := 2 |};
                 {| node_id := str "fear"; node_label := str "fear";
                    node_type := concept; node_value := 1 |}];
       links := [{| link_source := str "hope"; link_target := str "fear";
                    link_label := str "against"; link_strength := 1 |}] |}.
Proof. vm_compute. reflexivity. Qed.

(* ------------------------------------------------------------------ *)
(** ** Where a match ends *)

Lemma run_suffix m (r : regex) :
  forall prev s k x,
    run m r prev s k = Some x ->
    exists prev' s' pre, s = pre ++ s' /\ k prev' s' = Some x.
Proof.
  induction r as [|p|a IHa b IHb|a IHa b IHb|a IHa|n a IHa| | |a IHa];
    intros prev s k x H; cbn [run] in H.
  - exists prev, s, []. auto.
  - destruct s as [|c s]; [discriminate|]. destruct (p c); [|discriminate].
    exists (Some c), s, [c]. auto.
  - apply IHa in H. destruct H as [p1 [s1 [pre1 [E1 H]]]].
    apply IHb in H. destruct H as [p2 [s2 [pre2 [E2 H]]]].
    exists p2, s2, (pre1 ++ pre2). split; [|exact H].
    subst. now rewrite app_assoc.
  - destruct (run m a prev s k) eqn:E.
    + inversion H; subst. now apply IHa in E.
    + now apply IHb in H.
  - remember (length s) as fuel eqn:F. clear F.
    revert prev s H. induction fuel as [|fuel IH]; intros prev s H.
    + exists prev, s, []. auto.
    + match type of H with
      | match ?X with _ => _ end = _ => destruct X eqn:E
      end.
      * inversion H; subst. apply IHa in E.
        destruct E as [p1 [s1 [pre1 [E1 E]]]].
        destruct (length s1 <? length s); [|discriminate].
        apply IH in E. destruct E as [p2 [s2 [pre2 [E2 E]]]].
        exists p2, s2, (pre1 ++ pre2). split; [|exact E].
        subst. now rewrite app_assoc.
      * exists prev, s, []. auto.
  - revert prev s H. induction n as [|n IH]; intros prev s H.
    + exists prev, s, []. auto.
    + apply IHa in H. destruct H as [p1 [s1 [pre1 [E1 H]]]].
      apply IH in H. destruct H as [p2 [s2 [pre2 [E2 H]]]].
      exists p2, s2, (pre1 ++ pre2). split; [|exact H].
      subst. now rewrite app_assoc.
  - destruct (atBol m prev); [|discriminate]. exists prev, s, []. auto.
  - destruct (atEol m s); [|discriminate]. exists prev, s, []. auto.
  - destruct (run m a prev s (fun _ s' => Some s')); [|discriminate].
    exists prev, s, []. auto.
Qed.

(* ------------------------------------------------------------------ *)
(** ** Heading levels *)

Lemma restAfter_suffix r1 r2 (s rest : jsstring) :
  restAfter r1 r2 s = Some rest ->
  (exists pre, s = pre ++ rest)
  /\ exists prev, run false r2 prev rest (fun _ _ => Some rest) = Some rest.
Proof.
  unfold restAfter. intro H. apply run_suffix in H.
  destruct H as [p1 [s1 [pre [E H]]]].
  pose proof H as H'. apply run_suffix in H'.
  destruct H' as [_ [_ [_ [_ H']]]]. inversion H'; subst s1.
  split; [now exists pre|now exists p1].
Qed.

Lemma headingMatch_title (line : jsstring) level title :
  headingMatch line = Some (level, title) ->
  title <> [] /\ exists pre, line = pre ++ title.
Proof.
  unfold headingMatch.
  destruct (restAfter (Seq Bol re_hashes) (Seq re_spaces re_title) line);
    [|discriminate].
  destruct (restAfter (Cat [Bol; re_hashes; re_spaces]) re_title line)
    as [t|] eqn:E; [|discriminate].
  intro H. inversion H; subst. clear H.
  apply restAfter_suffix in E. destruct E as [E [prev R]].
  split; [|exact E].
  intros ->. unfold re_title, Plus in R. cbn [run] in R. discriminate.
Qed.

Lemma trimmed_suffix_nonBlank (l pre s : jsstring) :
  trim l = pre ++ s -> s <> [] -> nonBlank s = true.
Proof.
  intros E N.
  assert (exists c, In c s /\ isSpace c = false) as [c [I S]].
  { apply (f_equal (@rev ascii)) in E.
    unfold trim, trimEnd in E. rewrite rev_involutive, rev_app_distr in E.
    pose proof (dropWhile_head isSpace (rev (trimStart l))) as Hd.
    rewrite E in Hd.
    destruct (rev s) as [|c r] eqn:R.
    - apply (f_equal (@rev ascii)) in R. rewrite rev_involutive in R.
      contradiction.
    - exists c. split; [|exact Hd].
      apply in_rev. rewrite R. now left. }
  rewrite nonBlank_allSpace. unfold allSpace.
  destruct (forallb isSpace s) eqn:F; [|reflexivity].
  rewrite forallb_forall in F. rewrite (F c I) in S. discriminate.
Qed.


Lemma pushLevel_In level txt (levels : Levels) i t :
  In t (pushLevel level txt levels i) ->
  In t (levels i) \/ (i = level /\ 1 <= level <= 6 /\ t = txt).
Proof.
  unfold pushLevel.
  destruct ((1 <=? level) && (level <=? 6)) eqn:G; [|auto].
  apply andb_true_iff in G. destruct G as [G1 G2].
  apply Nat.leb_le in G1, G2.
  destruct (i =? level) eqn:E; [|auto].
  apply Nat.eqb_eq in E. intro H. apply in_app_iff in H.
  destruct H as [H|[H|[]]]; auto.
Qed.

Lemma analyzeLine_ok levels line :
  headingsOk levels -> headingsOk (analyzeLine levels line).
Proof.
  intros H i t I. unfold analyzeLine in I.
  destruct (headingMatch (trim line)) as [[level title]|] eqn:M;
    [|now apply H].
  apply pushLevel_In in I. destruct I as [I|[-> [B ->]]]; [now apply H|].
  split; [exact B|].
  apply headingMatch_title in M. destruct M as [N [pre E]].
  apply trim_trimmedText. exact (trimmed_suffix_nonBlank line pre title E N).
Qed.

Lemma analyzeDoc_ok levels doc :
  headingsOk levels -> headingsOk (analyzeDoc levels doc).
Proof.
  intro H. unfold analyzeDoc.
  destruct (DocType_eqb (doc_type doc) markdown
            || DocType_eqb (doc_type doc) text); [|exact H].
  revert levels H.
  induction (split_regex false re_newline (doc_content doc)) as [|l ls IH];
    intros levels H; [exact H|].
  cbn [fold_left]. now apply IH, analyzeLine_ok.
Qed.

Lemma analyzeMarkdownLevels_ok docs : headingsOk (analyzeMarkdownLevels docs).
Proof.
  unfold analyzeMarkdownLevels.
  assert (headingsOk noLevels) as H by (intros i t []).
  revert H. generalize noLevels.
  induction docs as [|d docs IH]; intros levels H; [exact H|].
  cbn [fold_left]. now apply IH, analyzeDoc_ok.
Qed.

(** X26.  Every heading that [analyzeMarkdownLevels] records is listed
    under a level from 1 to 6 and is a non-empty text without white
    space at either end. *)
Theorem analyzeMarkdownLevels_headings :
  forall docs i t,
    In t (analyzeMarkdownLevels docs i) ->
    1 <= i <= 6 /\ trimmedText t.
Proof. intros docs i t H. exact (analyzeMarkdownLevels_ok docs i t H). Qed.

Lemma analyzeMarkdownLevels_headings_witness :
  1 <= 2 <= 6 /\ trimmedText (str "A").
Proof.
  apply (analyzeMarkdownLevels_headings [c3doc] 2 (str "A")).
  vm_compute. left. reflexivity.
Defined.

Example analyzeMarkdownLevels_ex :
  let levels :=
    analyzeMarkdownLevels
      [mdDoc (str "doc") (nl "# Title|  ## Indented  |#nospace|####### seven|text");
       textDoc (nl "## Second #|### ")] in
  map levels (seq 0 8)
  = [[]; [str "Title"]; [str "Indented"; str "Second #"]; []; []; []; []; []].
Proof. vm_compute. reflexivity. Qed.

Lemma pushLevel_split level txt (levels : Levels) i :
  pushLevel level txt levels i = levels i ++ pushLevel level txt noLevels i.
Proof.
  unfold pushLevel, noLevels.
  destruct ((1 <=? level) && (level <=? 6)); [|now rewrite app_nil_r].
  destruct (i =? level); [reflexivity|now rewrite app_nil_r].
Qed.

Lemma analyzeLines_split (lines : list jsstring) i :
  forall levels,
    fold_left analyzeLine lines levels i
    = levels i ++ fold_left analyzeLine lines noLevels i.
Proof.
  induction lines as [|l lines IH]; intro levels; cbn [fold_left].
  - unfold noLevels. now rewrite app_nil_r.
  - rewrite (IH (analyzeLine levels l)), (IH (analyzeLine noLevels l)).
    rewrite app_assoc. f_equal. unfold analyzeLine.
    destruct (headingMatch (trim l)) as [[level title]|].
    + apply pushLevel_split.
    + unfold noLevels. now rewrite app_nil_r.
Qed.

Lemma analyzeDoc_split levels doc i :
  analyzeDoc levels doc i = levels i ++ analyzeDoc noLevels doc i.
Proof.
  unfold analyzeDoc.
  destruct (DocType_eqb (doc_type doc) markdown
            || DocType_eqb (doc_type doc) text).
  - apply analyzeLines_split.
  - unfold noLevels. now rewrite app_nil_r.
Qed.

Lemma analyzeDocs_split (docs : list SourceDocument) i :
  forall levels,
    fold_left analyzeDoc docs levels i
    = levels i ++ fold_left analyzeDoc docs noLevels i.
Proof.
  induction docs as [|d docs IH]; intro levels; cbn [fold_left].
  - unfold noLevels. now rewrite app_nil_r.
  - rewrite (IH (analyzeDoc levels d)), (IH (analyzeDoc noLevels d)).
    rewrite app_assoc. f_equal. apply analyzeDoc_split.
Qed.

(** X27.  [analyzeMarkdownLevels] works document by document: the
    headings of a list of documents are, level by level, those of its
    first part followed by those of the rest; a CSV document adds
    none. *)
Theorem analyzeMarkdownLevels_app :
  forall docs1 docs2 i,
    analyzeMarkdownLevels (docs1 ++ docs2) i
    = analyzeMarkdownLevels docs1 i ++ analyzeMarkdownLevels docs2 i.
Proof.
  intros docs1 docs2 i. unfold analyzeMarkdownLevels.
  rewrite fold_left_app. apply analyzeDocs_split.
Qed.

Lemma In_seq_1_6 i : In i (seq 1 6) <-> 1 <= i <= 6.
Proof. rewrite in_seq. lia. Qed.

(** X28.  When the documents hold a heading, the default split level
    that [initStep2] computes is a level from 1 to 6 under which there
    is a heading, and no level above it holds more than one. *)
Theorem defaultLevel_has_heading :
  forall docs i,
    analyzeMarkdownLevels docs i <> [] ->
    1 <= defaultLevel docs <= 6
    /\ analyzeMarkdownLevels docs (defaultLevel docs) <> []
    /\ forall j, 1 <= j < defaultLevel docs ->
                 length (analyzeMarkdownLevels docs j) <= 1.
Proof.
  intros docs i H. unfold defaultLevel, defaultLevelOf.
  set (levels := analyzeMarkdownLevels docs) in *.
  assert (1 <= i <= 6) as Bi.
  { destruct (levels i) as [|t l] eqn:E; [congruence|].
    apply (analyzeMarkdownLevels_ok docs i t). fold levels. rewrite E.
    now left. }
  destruct ((length (levels 1) <=? 1) && (1 <? length (levels 2))) eqn:C.
  - apply andb_true_iff in C. destruct C as [C1 C2].
    apply Nat.leb_le in C1. apply Nat.ltb_lt in C2.
    split; [lia|]. split.
    + intro E. rewrite E in C2. simpl in C2. lia.
    + intros j Hj. replace j with 1 by lia. exact C1.
  - clear C. unfold firstLevel.
    destruct (find (fun i => 0 <? length (levels i)) (seq 1 6)) as [d|] eqn:F.
    + cbn [orElse]. pose proof (find_some _ _ F) as [I P].
      apply In_seq_1_6 in I. apply Nat.ltb_lt in P.
      split; [exact I|]. split.
      * intro E. rewrite E in P. simpl in P. lia.
      * intros j Hj.
        assert ((0 <? length (levels j)) = false) as Z.
        { cbn [seq find] in F.
          repeat match type of F with
          | (if ?b then _ else _) = _ =>
              let B := fresh "B" in destruct b eqn:B
          end;
          try discriminate; inversion F; subst d;
          assert (j = 1 \/ j = 2 \/ j = 3 \/ j = 4 \/ j = 5) as J by lia;
          repeat (destruct J as [->|J]; [first [assumption|lia]|]);
          first [subst j; assumption|lia]. }
        apply Nat.ltb_ge in Z. lia.
    + exfalso. pose proof (find_none _ _ F i (proj2 (In_seq_1_6 i) Bi)) as Z.
      apply Nat.ltb_ge in Z. destruct (levels i); [congruence|simpl in Z; lia].
Qed.

Lemma defaultLevel_has_heading_witness :
  1 <= defaultLevel [c3doc] <= 6
  /\ analyzeMarkdownLevels [c3doc] (defaultLevel [c3doc]) <> []
  /\ forall j, 1 <= j < defaultLevel [c3doc] ->
               length (analyzeMarkdownLevels [c3doc] j) <= 1.
Proof.
  apply (defaultLevel_has_heading [c3doc] 1).
  vm_compute. discriminate.
Defined.

Example defaultLevel_ex :
  defaultLevel [c3doc] = 2
  /\ defaultLevel [mdDoc (str "d") (nl "### only|text")] = 3
  /\ defaultLevel [textDoc (str "no heading")] = 1.
Proof. vm_compute. repeat split; reflexivity. Qed.

(* ------------------------------------------------------------------ *)
(** ** The two splitters *)

Lemma Lit_no_match m (p : jsstring) :
  forall prev s k, startsWith p s = false -> run m (Lit p) prev s k = None.
Proof.
  induction p as [|c p IH]; intros prev s k H; [discriminate|].
  cbn [Lit run]. destruct s as [|y s]; [reflexivity|].
  cbn [startsWith] in H. unfold isChr.
  destruct (chr_eqb c y); [|reflexivity].
  apply IH. exact H.
Qed.

Lemma includes_no_match (p s : jsstring) :
  forall prev,
    includes p s = false -> testLoop (matchAt false (Lit p)) prev s = false.
Proof.
  induction s as [|c s IH]; intros prev H; cbn [includes testLoop] in *;
    apply orb_false_iff in H; destruct H as [H1 H2];
    unfold matchAt; rewrite Lit_no_match by exact H1.
  - reflexivity.
  - now apply IH.
Qed.

Lemma replaceDelimiter_absent rep (txt : jsstring) :
  includes CSV_ROW_DELIMITER txt = false -> replaceDelimiter rep txt = txt.
Proof.
  intro H. unfold replaceDelimiter. apply replace_without_match.
  unfold test. now apply includes_no_match.
Qed.

Lemma trimmedChunks_sourced ty sid sname (pieces : list jsstring) :
  forall g,
    (cs <- trimmedChunks ty pieces ;;
     ret (map (fun c =>
                 {| chunk_id := chunk_id c; chunk_text := chunk_text c;
                    chunk_type := chunk_type c;
                    chunk_sourceId := Some sid;
                    chunk_sourceName := Some sname;
                    chunk_tags := chunk_tags c |}) cs)) g
    = mapGen (fun t => newChunk (trim t) ty sid sname)
        (filter nonBlank pieces) g.
Proof.
  unfold trimmedChunks.
  induction (filter nonBlank pieces) as [|t l IH]; intro g; [reflexivity|].
  specialize (IH (snd (bareChunk ty (trim t) g))).
  rewrite bind_eq, ret_eq in IH.
  cbn [mapGen]. rewrite !bind_eq, !ret_eq. cbn [fst snd map].
  change (snd (newChunk (trim t) ty sid sname g))
    with (snd (bareChunk ty (trim t) g)).
  rewrite <- IH. reflexivity.
Qed.

Lemma splitDocuments_step strat cfg lvl doc :
  splitsAlike strat doc ->
  forall allChunks g,
    (cs <- splitSingleText (doc_content doc) strat ;;
     ret (allChunks
          ++ map (fun c =>
                    {| chunk_id := chunk_id c; chunk_text := chunk_text c;
                       chunk_type := chunk_type c;
                       chunk_sourceId := Some (doc_id doc);
                       chunk_sourceName := Some (doc_name doc);
                       chunk_tags := chunk_tags c |}) cs)) g
    = (docChunks <- segmentDoc strat cfg false lvl doc ;;
       ret (allChunks ++ docChunks)) g.
Proof.
  intros [T H] allChunks g.
  assert (DocType_eqb (doc_type doc) csv = false) as Tc
    by (destruct (doc_type doc); try reflexivity; congruence).
  pose proof (trimmedChunks_sourced strat (doc_id doc) (doc_name doc)) as S.
  destruct strat; try contradiction.
  - (* PARAGRAPH *)
    unfold segmentDoc, splitSingleText, splitParagraphs, splitRawText.
    rewrite Tc. cbn [negb]. rewrite replaceDelimiter_absent by exact H.
    specialize (S (split_regex false re_paragraph (doc_content doc)) g).
    rewrite bind_eq, ret_eq in S. rewrite !bind_eq, !ret_eq.
    rewrite <- S. reflexivity.
  - (* TURN *)
    unfold segmentDoc, splitSingleText, splitRawText.
    rewrite Tc, H. cbn [negb]. rewrite andb_false_r.
    specialize (S (split_regex false re_turn (doc_content doc)) g).
    rewrite bind_eq, ret_eq in S. rewrite !bind_eq, !ret_eq.
    rewrite <- S. reflexivity.
Qed.

(** Run on the same supply of identifiers, the two return the same. *)
Lemma splitters_same_supply :
  forall strat cfg lvl docs g,
    Forall (splitsAlike strat) docs ->
    splitDocuments docs strat g
    = performSegmentation strat cfg false lvl docs g.
Proof.
  intros strat cfg lvl docs g H.
  unfold splitDocuments, performSegmentation.
  generalize (@nil Chunk). revert g.
  induction H as [|d docs Hd Hdocs IH]; intros g acc; [reflexivity|].
  cbn [forEach].
  rewrite (bind_eq (_ <- splitSingleText _ _ ;; _)).
  rewrite (bind_eq (_ <- segmentDoc _ _ _ _ _ ;; _)).
  rewrite (splitDocuments_step strat cfg lvl d Hd acc g).
  apply IH.
Qed.

Lemma sansId_entries strat (cs1 cs2 : list Chunk) :
  Forall (fun c => chunk_type c = strat /\ chunk_tags c = []) cs1 ->
  Forall (fun c => chunk_type c = strat /\ chunk_tags c = []) cs2 ->
  map entryOf cs1 = map entryOf cs2 ->
  map sansId cs1 = map sansId cs2.
Proof.
  intros H1. revert cs2.
  induction H1 as [|c1 cs1 [T1 G1] _ IH]; intros cs2 H2 E;
    destruct H2 as [|c2 cs2 [T2 G2] H2]; try discriminate; [reflexivity|].
  cbn [map] in *. inversion E as [[Ei En Et Er]].
  rewrite (IH cs2 H2 Er). f_equal.
  unfold sansId. congruence.
Qed.

Lemma performSegmentation_plain strat cfg hier lvl docs g :
  Forall (fun c => chunk_type c = strat /\ chunk_tags c = [])
    (fst (performSegmentation strat cfg hier lvl docs g)).
Proof.
  apply performSegmentation_built. intros. split; reflexivity.
Qed.

(** X29.  The two splitters of the repository agree up to the
    identifiers: for documents that are not tables, [splitDocuments] and
    the flat [performSegmentation] return chunks with the same texts,
    types, sources and tags, in the same order, when splitting into
    paragraphs texts without the row delimiter, or into turns texts that
    hold a colon. *)
Theorem splitters_agree :
  forall strat cfg lvl docs g1 g2,
    Forall (splitsAlike strat) docs ->
    map sansId (fst (splitDocuments docs strat g1))
    = map sansId (fst (performSegmentation strat cfg false lvl docs g2)).
Proof.
  intros strat cfg lvl docs g1 g2 H.
  rewrite (splitters_same_supply strat cfg lvl docs g1 H).
  apply (sansId_entries strat); try apply performSegmentation_plain.
  now rewrite !performSegmentation_entries.
Qed.

Lemma splitters_agree_witness :
  map sansId
    (fst (splitDocuments
            [textDoc (nl "Q: why?|A: because.||B: so.");
             mdDoc (str "talk") (nl "Anna: yes|Ben: no")]
            TURN demoIds))
  = map sansId
      (fst (performSegmentation TURN None false 1
              [textDoc (nl "Q: why?|A: because.||B: so.");
               mdDoc (str "talk") (nl "Anna: yes|Ben: no")]
              (advance demoIds 7))).
Proof.
  apply splitters_agree.
  constructor; [split; [vm_compute; discriminate|reflexivity]|].
  constructor; [split; [vm_compute; discriminate|reflexivity]|].
  constructor.
Defined.

(** With the row delimiter in the text the two differ: [splitDocuments]
    splits at it, [performSegmentation] keeps it in the paragraph. *)
Remark splitters_differ_on_delimiter :
  let d := textDoc (str "a<<<ROW_BREAK>>>b") in
  map chunk_text (fst (splitDocuments [d] PARAGRAPH demoIds))
  = [str "a"; str "b"]
  /\ map chunk_text (fst (performSegmentation PARAGRAPH None false 1 [d]
                            demoIds))
     = [str "a<<<ROW_BREAK>>>b"].
Proof. vm_compute. split; reflexivity. Qed.

(* ------------------------------------------------------------------ *)
(** ** Sentences keep the text *)

Lemma star_chr_unfold m p prev c (s : jsstring) k :
  run m (Star (Chr p)) prev (c :: s) k
  = if p c
    then match run m (Star (Chr p)) (Some c) s k with
         | Some x => Some x
         | None => k prev (c :: s)
         end
    else k prev (c :: s).
Proof.
  cbn [run length]. destruct (p c); [|reflexivity].
  replace (length s <? S (length s)) with true
    by (symmetry; apply Nat.ltb_lt; lia).
  reflexivity.
Qed.

Lemma star_chr_succeeds m p k :
  forall (s : jsstring) prev,
    (forall prev', k prev' (dropWhile p s) <> None) ->
    run m (Star (Chr p)) prev s k <> None.
Proof.
  induction s as [|c s IH]; intros prev H.
  - cbn [run length]. apply H.
  - rewrite star_chr_unfold. cbn [dropWhile] in H.
    destruct (p c) eqn:Pc; [|apply H].
    destruct (run m (Star (Chr p)) (Some c) s k) eqn:E; [discriminate|].
    exfalso. exact (IH (Some c) H E).
Qed.

Lemma scan_keeps (M : matcher) (P : ascii -> bool) :
  (forall prev c s, P c = true -> exists n, M prev (c :: s) = Some (S n)) ->
  forall rest prev skip,
    filter P (concat (matchesOf (scanLoop M prev rest skip)))
    = filter P (skipn skip rest).
Proof.
  intro H. induction rest as [|c rest IH]; intros prev skip.
  - cbn [scanLoop]. destruct skip; [|reflexivity].
    destruct (M prev []); reflexivity.
  - cbn [scanLoop]. destruct skip as [|n]; [|apply IH].
    cbn [skipn].
    destruct (M prev (c :: rest)) as [[|n]|] eqn:E.
    + cbn [matchesOf concat app]. rewrite IH. cbn [skipn filter].
      destruct (P c) eqn:Pc; [|reflexivity].
      destruct (H prev c rest Pc) as [n E']. congruence.
    + cbn [matchesOf concat]. rewrite filter_app, IH.
      rewrite <- filter_app. cbn [firstn app].
      now rewrite firstn_skipn.
    + cbn [matchesOf]. rewrite IH. cbn [skipn filter].
      destruct (P c) eqn:Pc; [|reflexivity].
      destruct (H prev c rest Pc) as [n E']. congruence.
Qed.

Lemma sentence_match_at prev c (s : jsstring) :
  noneOf sentenceEnd c = true ->
  exists n, matchAt false re_sentence prev (c :: s) = Some (S n).
Proof.
  intro Nc.
  set (k0 := fun (_ : option ascii) (s' : jsstring) => Some s').
  set (N := Chr (noneOf sentenceEnd)).
  set (T := Chr (oneOf sentenceEnd)).
  set (Q := Opt (Chr (oneOf [DQUOTE; "'"%char]))).
  set (K1 := fun p r => run false (Seq (Plus T) Q) p r k0).
  set (K2 := fun p r => run false Eol p r k0).
  assert (run false re_sentence prev (c :: s) k0
          = match run false (Star N) (Some c) s K1 with
            | Some x => Some x
            | None => run false (Star N) (Some c) s K2
            end) as U.
  { unfold re_sentence. cbn [Cat]. unfold Plus at 1 3.
    change (Chr (noneOf sentenceEnd)) with N.
    cbn [run]. unfold N at 1 3. cbn [run]. rewrite Nc. reflexivity. }
  assert (forall K x, (forall p r y, K p r = Some y ->
                                     exists pre, r = pre ++ y) ->
            run false (Star N) (Some c) s K = Some x ->
            length x <= length s) as Len.
  { intros K x HK R. apply run_suffix in R.
    destruct R as [p1 [s1 [pre [E R]]]]. apply HK in R.
    destruct R as [pre2 ->]. subst s. rewrite !length_app. lia. }
  assert (forall K, (forall p r y, K p r = Some y ->
                                   exists pre, r = pre ++ y) ->
            forall x, run false (Star N) (Some c) s K = Some x ->
            exists n, length (c :: s) - length x = S n) as Pos.
  { intros K HK x R. pose proof (Len K x HK R) as L.
    exists (length s - length x). cbn [length]. lia. }
  assert (forall p r y, K1 p r = Some y -> exists pre, r = pre ++ y) as HK1.
  { intros p r y R. unfold K1 in R. apply run_suffix in R.
    destruct R as [p1 [s1 [pre [E R]]]]. unfold k0 in R. inversion R. subst.
    now exists pre. }
  assert (forall p r y, K2 p r = Some y -> exists pre, r = pre ++ y) as HK2.
  { intros p r y R. unfold K2 in R. apply run_suffix in R.
    destruct R as [p1 [s1 [pre [E R]]]]. unfold k0 in R. inversion R. subst.
    now exists pre. }
  unfold matchAt. fold k0. rewrite U.
  destruct (run false (Star N) (Some c) s K1) as [x|] eqn:R1.
  { destruct (Pos K1 HK1 x R1) as [n E]. exists n. now rewrite E. }
  destruct (run false (Star N) (Some c) s K2) as [x|] eqn:R2.
  { destruct (Pos K2 HK2 x R2) as [n E]. exists n. now rewrite E. }
  exfalso.
  destruct (dropWhile (noneOf sentenceEnd) s) as [|t y] eqn:D.
  - revert R2. apply star_chr_succeeds. intro p. rewrite D.
    unfold K2. cbn [run atEol]. discriminate.
  - revert R1. apply star_chr_succeeds. intro p. rewrite D.
    pose proof (dropWhile_head (noneOf sentenceEnd) s) as Hd.
    rewrite D in Hd. unfold noneOf in Hd. apply negb_false_iff in Hd.
    unfold K1, Plus. cbn [run]. unfold T at 1. cbn [run]. rewrite Hd.
    apply star_chr_succeeds. intro p'.
    unfold Q, Opt. cbn [run].
    destruct (dropWhile (oneOf sentenceEnd) y) as [|q z]; [discriminate|].
    destruct (oneOf [DQUOTE; "'"%char] q); discriminate.
Qed.

(** X30.  Splitting into sentences loses no character other than the
    sentence marks [.], [!] and [?]: the pieces of [splitRawText] for
    SENTENCE, put together, read as the text does once those three
    marks are left out of both. *)
Theorem sentences_keep_text :
  forall txt,
    filter (noneOf sentenceEnd) (concat (splitRawText txt SENTENCE))
    = filter (noneOf sentenceEnd) txt.
Proof.
  intro txt. unfold splitRawText, match_global, scan.
  pose proof (scan_keeps (matchAt false re_sentence) (noneOf sentenceEnd)
                (fun prev c s => sentence_match_at prev c s) txt None 0) as K.
  cbn [skipn] in K.
  destruct (matchesOf (scanLoop (matchAt false re_sentence) None txt 0))
    as [|w l] eqn:E; cbn [orElse].
  - cbn [concat]. now rewrite app_nil_r.
  - exact K.
Qed.

Example sentences_ex :
  splitRawText (str "?Hi there. 'Go!'! no end") SENTENCE
  = [str "Hi there."; str " 'Go!'"; str " no end"].
Proof. vm_compute. reflexivity. Qed.
